(** * The argument parser of [lib/argument_parser.js]

    A shallow embedding of the parsing core of [ArgumentParser]
    ([_parseKnownArgs], [_parseOptional], [_getOptionTuples],
    [_getNargsPattern], [_matchArgument], [_matchArgumentsPartial],
    [_getValues], [_getValue], [_checkValue]) together with the
    properties of the parsing algorithm.

    JavaScript strings are modelled by [string], arrays by [list], the
    objects the parser uses as dictionaries by [gmap] (or by an
    association list where the enumeration order of [for ... in] is
    observable), exceptions by an error sum. *)

From Stdlib Require Import String Ascii List ZArith Lia Bool.

From stdpp Require Import gmap strings list.

Local Open Scope string_scope.

Local Open Scope list_scope.

(** ** JavaScript string and array primitives *)

Module Js.

(** [s[i]]: [None] stands for [undefined]. *)
Definition char_at (s : string) (i : nat) : option ascii := String.get i s.

(** The string produced when [s[i]] is used where a string is expected
    ([undefined] prints as the text "undefined"). *)
Definition char_str (c : option ascii) : string :=
  match c with
  | Some c => String c EmptyString
  | None => "undefined"
  end.

(** [hay.indexOf(needle)], with [-1] for no occurrence. *)
Definition indexOf (hay needle : string) : Z :=
  match String.index 0 needle hay with
  | Some i => Z.of_nat i
  | None => (-1)%Z
  end.

(** [s.substr(start)]. *)
Fixpoint substr_from (s : string) (start : nat) : string :=
  match start, s with
  | O, _ => s
  | S n, String _ r => substr_from r n
  | S _, EmptyString => EmptyString
  end.

(** [s.substr(0, len)]. *)
Definition substr0 (s : string) (len : nat) : string := String.substring 0 len s.

(** [s.split(sep)] for a one-character separator. *)
Fixpoint split_aux (sep : ascii) (s : string) (cur : string) : list string :=
  match s with
  | EmptyString => [cur]
  | String c r =>
      if Ascii.eqb c sep then cur :: split_aux sep r EmptyString
      else split_aux sep r (cur +:+ String c EmptyString)
  end.

Definition split (sep : ascii) (s : string) : list string :=
  split_aux sep s EmptyString.

(** [s.split(sep, limit)]: the limit truncates the array of pieces, it
    does not stop the splitting. *)
Definition split_limit (sep : ascii) (limit : nat) (s : string) : list string :=
  take limit (split sep s).

(** [s.replace(/-\*/g, '')]. *)
Fixpoint remove_dash_star (s : string) : string :=
  match s with
  | String "-" (String "*" r) => remove_dash_star r
  | String c r => String c (remove_dash_star r)
  | EmptyString => EmptyString
  end.

(** [s.replace(/-/g, '')]. *)
Fixpoint remove_dash (s : string) : string :=
  match s with
  | String c r => if Ascii.eqb c "-" then remove_dash r else String c (remove_dash r)
  | EmptyString => EmptyString
  end.

(** [_.str.repeat(s, n)]. *)
Fixpoint repeat_str (s : string) (n : nat) : string :=
  match n with
  | O => EmptyString
  | S k => s +:+ repeat_str s k
  end.

(** [xs.join(sep)] on an array of strings. *)
Fixpoint join (sep : string) (xs : list string) : string :=
  match xs with
  | [] => EmptyString
  | [x] => x
  | x :: r => x +:+ sep +:+ join sep r
  end.

(** [xs.slice(a, b)] for non-negative [a] and [b]. *)
Definition slice {A} (xs : list A) (a b : nat) : list A := take (b - a) (drop a xs).

(** [s.search(' ') >= 0]. *)
Definition has_space (s : string) : bool := (0 <=? indexOf s " ")%Z.

End Js.

(** ** Regular expressions

    The patterns built by [_getNargsPattern] use a small part of the
    regular-expression syntax: literal characters, character classes
    whose members are literal (a dash is first or last in the class),
    the postfix operators [*] and [?] on one character or class, and
    capture groups that are not nested.  [parse] reads that syntax and
    [exec] is the backtracking matcher of [String.prototype.match] for a
    non-global expression: the leftmost start position that admits a
    match, greedy quantifiers, no anchoring. *)

Module Regex.

Inductive atom :=
| Lit (c : ascii)
| Class (cs : list ascii).

Inductive quant := One | Star | Opt.

Definition piece : Type := atom * quant.

Inductive item :=
| Piece (p : piece)
| Group (ps : list piece).

Definition regex := list item.

(** *** Parsing *)

Record pstate := {
  ps_items : list item;             (* finished items, last first *)
  ps_group : option (list piece);   (* pieces of the open group, last first *)
  ps_pending : option atom;         (* atom still waiting for its quantifier *)
  ps_class : option (list ascii);   (* members of the open class, last first *)
}.

Definition ps_init : pstate :=
  {| ps_items := []; ps_group := None; ps_pending := None; ps_class := None |}.

Definition emit (st : pstate) (p : piece) : pstate :=
  match ps_group st with
  | Some g => {| ps_items := ps_items st; ps_group := Some (p :: g);
                 ps_pending := None; ps_class := ps_class st |}
  | None => {| ps_items := Piece p :: ps_items st; ps_group := None;
               ps_pending := None; ps_class := ps_class st |}
  end.

Definition flush (st : pstate) : pstate :=
  match ps_pending st with
  | Some a => emit st (a, One)
  | None => st
  end.

(** A dash inside a class is literal only in first or last position. *)
Definition class_ok (cs : list ascii) : bool :=
  match cs with
  | [] => true
  | _ :: r => forallb (fun c => negb (Ascii.eqb c "-")) (removelast r)
  end.

Definition special (c : ascii) : bool :=
  existsb (Ascii.eqb c)
    ["\"; "^"; "$"; "."; "|"; "+"; "{"; "}"; "]"]%char.

Definition pstep (st : pstate) (c : ascii) : option pstate :=
  match ps_class st with
  | Some cs =>
      if Ascii.eqb c "]" then
        if class_ok (rev cs) then
          Some {| ps_items := ps_items st; ps_group := ps_group st;
                  ps_pending := Some (Class (rev cs)); ps_class := None |}
        else None
      else if Ascii.eqb c "\" then None
      else Some {| ps_items := ps_items st; ps_group := ps_group st;
                   ps_pending := ps_pending st; ps_class := Some (c :: cs) |}
  | None =>
      if Ascii.eqb c "*" then
        match ps_pending st with
        | Some a => Some (emit st (a, Star))
        | None => None
        end
      else if Ascii.eqb c "?" then
        match ps_pending st with
        | Some a => Some (emit st (a, Opt))
        | None => None
        end
      else
        let st := flush st in
        if Ascii.eqb c "[" then
          Some {| ps_items := ps_items st; ps_group := ps_group st;
                  ps_pending := None; ps_class := Some [] |}
        else if Ascii.eqb c "(" then
          match ps_group st with
          | Some _ => None
          | None => Some {| ps_items := ps_items st; ps_group := Some [];
                            ps_pending := None; ps_class := None |}
          end
        else if Ascii.eqb c ")" then
          match ps_group st with
          | Some g => Some {| ps_items := Group (rev g) :: ps_items st;
                              ps_group := None; ps_pending := None;
                              ps_class := None |}
          | None => None
          end
        else if special c then None
        else Some {| ps_items := ps_items st; ps_group := ps_group st;
                     ps_pending := Some (Lit c); ps_class := None |}
  end.

Fixpoint parse_from (st : pstate) (s : string) : option regex :=
  match s with
  | String c r =>
      match pstep st c with
      | Some st' => parse_from st' r
      | None => None
      end
  | EmptyString =>
      match ps_class st, ps_group (flush st) with
      | None, None => Some (rev (ps_items (flush st)))
      | _, _ => None
      end
  end.

(** [new RegExp(s)]; [None] is a pattern outside the syntax above. *)
Definition parse (s : string) : option regex := parse_from ps_init s.

(** *** Matching *)

Definition atom_matches (a : atom) (c : ascii) : bool :=
  match a with
  | Lit d => Ascii.eqb c d
  | Class cs => existsb (Ascii.eqb c) cs
  end.

Section Matcher.
Context {R : Type}.

(** Greedy [a*]: take as many characters as possible, give one back at
    a time when the continuation fails. *)
Fixpoint match_star (a : atom) (s : string) (k : string -> option R) : option R :=
  match s with
  | String c r =>
      if atom_matches a c then
        match match_star a r k with
        | Some res => Some res
        | None => k s
        end
      else k s
  | EmptyString => k s
  end.

Definition match_piece (p : piece) (s : string) (k : string -> option R) : option R :=
  match p with
  | (a, One) =>
      match s with
      | String c r => if atom_matches a c then k r else None
      | EmptyString => None
      end
  | (a, Opt) =>
      match s with
      | String c r =>
          if atom_matches a c then
            match k r with
            | Some res => Some res
            | None => k s
            end
          else k s
      | EmptyString => k s
      end
  | (a, Star) => match_star a s k
  end.

Fixpoint match_pieces (ps : list piece) (s : string) (k : string -> option R) : option R :=
  match ps with
  | [] => k s
  | p :: r => match_piece p s (fun s' => match_pieces r s' k)
  end.

End Matcher.

(** The part of [s] in front of its suffix [s']. *)
Definition consumed (s s' : string) : string :=
  String.substring 0 (String.length s - String.length s') s.

(** Match all items at the start of [s]; the result lists the captures
    of the groups from left to right. *)
Fixpoint match_items (its : regex) (s : string) (caps : list string) : option (list string) :=
  match its with
  | [] => Some caps
  | Piece p :: r => match_piece p s (fun s' => match_items r s' caps)
  | Group ps :: r =>
      match_pieces ps s (fun s' => match_items r s' (caps ++ [consumed s s']))
  end.

(** [s.match(re)]: try the start positions from left to right.  The
    result is the array of captures, i.e. the elements of the match
    array from index 1 on. *)
Fixpoint exec (re : regex) (s : string) : option (list string) :=
  match match_items re s [] with
  | Some caps => Some caps
  | None =>
      match s with
      | String _ r => exec re r
      | EmptyString => None
      end
  end.

End Regex.

(** ** Values, actions and the parser object *)

(** Values handled by the parser.  [VRef] is an object that belongs to
    the schema (a default, a constant, a member of a choice array, the
    result of a type function) and is compared by identity; [VArray] is
    an array allocated during the parse, which is identical to no value
    that existed before; [VBuiltin] is a function or object of the
    runtime, named by the property of the prototype it is found
    under. *)
#[warnings="-register-all"]
Inductive Value :=
| VUndefined
| VNull
| VBool (b : bool)
| VNum (n : Z)
| VStr (s : string)
| VRef (id : nat)
| VArray (items : list Value)
| VBuiltin (name : string).

(** [!!v]. *)
Definition truthy (v : Value) : bool :=
  match v with
  | VUndefined | VNull => false
  | VBool b => b
  | VNum n => negb (n =? 0)%Z
  | VStr s => negb (String.eqb s EmptyString)
  | VRef _ | VArray _ | VBuiltin _ => true
  end.

(** [a === b]. *)
Definition strict_eq (a b : Value) : bool :=
  match a, b with
  | VUndefined, VUndefined => true
  | VNull, VNull => true
  | VBool x, VBool y => Bool.eqb x y
  | VNum x, VNum y => (x =? y)%Z
  | VStr x, VStr y => String.eqb x y
  | VRef x, VRef y => Nat.eqb x y
  | VBuiltin x, VBuiltin y => String.eqb x y
  | _, _ => false
  end.

(** A string-valued slot that may also hold [undefined] or [null]: the
    explicit argument of an option tuple, the option string handed to an
    action. *)
Inductive MaybeStr :=
| MUndefined
| MNull
| MStr (s : string).

(** [action.nargs].  [NargsDefault] is [undefined] or [null]; the other
    symbolic values are the constants [OPTIONAL] ('?'), [ZERO_OR_MORE]
    ('*'), [ONE_OR_MORE] ('+'), [REMAINDER] ('...') and [PARSER]
    ('A...') of [const.js]. *)
Inductive Nargs :=
| NargsDefault
| NargsCount (n : nat)
| OPTIONAL
| ZERO_OR_MORE
| ONE_OR_MORE
| REMAINDER
| PARSER.

Definition Nargs_eqb (a b : Nargs) : bool :=
  match a, b with
  | NargsDefault, NargsDefault => true
  | NargsCount n, NargsCount m => Nat.eqb n m
  | OPTIONAL, OPTIONAL | ZERO_OR_MORE, ZERO_OR_MORE | ONE_OR_MORE, ONE_OR_MORE
  | REMAINDER, REMAINDER | PARSER, PARSER => true
  | _, _ => false
  end.

(** [!action.nargs]. *)
Definition nargs_falsy (n : Nargs) : bool :=
  match n with
  | NargsDefault | NargsCount O => true
  | _ => false
  end.

(** [action.choices]: absent, an array, or an object keyed by name (the
    name-to-parser map of a sub-command action).  Only an array has an
    [indexOf] method. *)
Inductive Choices :=
| ChoicesNone
| ChoicesArray (items : list Value)
| ChoicesObject (keys : list string).

(** The [$$.SUPPRESS] constant of [const.js]. *)
Definition SUPPRESS : string := "==SUPPRESS==".

Abbreviation Namespace := (gmap string Value).

(** One declared argument.  [uid] stands for the identity of the
    JavaScript object.  [typeFunction] is the result of
    [this._registryGet('type', action.type, action.type)]: [None] when
    the registry yields something that is not callable; the function
    itself returns [None] when it throws.  [call] is the action's own
    [call] method, which receives the namespace, the converted values
    and the option string, and either updates the namespace or throws.
    [default] is the property [takeAction] compares the values with. *)
Record Action := {
  uid : nat;
  optionStrings : list string;
  dest : string;
  nargs : Nargs;
  constant : Value;
  defaultValue : Value;
  default : Value;
  typeFunction : option (string -> option Value);
  choices : Choices;
  required : bool;
  call : Namespace -> Value -> MaybeStr -> Namespace + string;
}.

(** Modelled from the spec: [Action#isOptional] and [Action#isPositional]
    live in [action.js]; the spec's data model gives an Action an ordered
    set of option strings that is empty for positionals. *)
Definition isPositional (a : Action) : bool :=
  match optionStrings a with
  | [] => true
  | _ => false
  end.

Definition isOptional (a : Action) : bool := negb (isPositional a).

(** The parser object.  [_optionStringActions] keeps the insertion order
    of its keys, which [for ... in] and [_.keys] enumerate.
    [_regexpNegativeNumber] says whether a string matches the expression
    of that name, [_hasNegativeNumberOptionals] is the truth value of the
    property of that name; both are set up by the action container. *)
Record Parser := {
  prefixChars : string;
  _actions : list Action;
  _optionStringActions : list (string * Action);
  _regexpNegativeNumber : string -> bool;
  _hasNegativeNumberOptionals : bool;
}.

(** [this._optionStringActions[key]], for a key that names no member of
    [Object.prototype]: the keys looked up start with a prefix
    character. *)
Fixpoint lookup_option (m : list (string * Action)) (key : string) : option Action :=
  match m with
  | [] => None
  | (k, a) :: r => if String.eqb k key then Some a else lookup_option r key
  end.

(** ** Errors *)

(** The messages given to [argumentErrorHelper(action, message)]. *)
Inductive ArgumentMessage :=
| NotAllowedWith (other : nat)            (* 'Not allowed with argument "..."' *)
| IgnoredExplicitArgument                 (* 'ignored explicit argument %r', as it stands *)
| ExpectedOneArgument
| ExpectedAtMostOneArgument
| ExpectedAtLeastOneArgument
| ExpectedCountArguments (n : Nargs)      (* 'Expected %(count)s argument(s)' *)
| NotCallable
| InvalidTypeValue (value : string)       (* 'Invalid %(type)s value: %(value)s' *)
| InvalidChoice (value : Value).          (* 'Invalid choice: ...' *)

(** The messages given to [this.error(message)], which does not return:
    it throws in debug mode and ends the process otherwise. *)
Inductive ParserMessage :=
| AmbiguousOption (argument : string) (values : string)
| TooFewArguments
| ArgumentRequired (action : nat).

Inductive Error :=
| ArgumentError (action : nat) (msg : ArgumentMessage)
| ParserError (msg : ParserMessage)
| JsError (msg : string)                  (* throw new Error(msg) *)
| CallError (action : nat) (msg : string) (* thrown inside action.call *)
| RegExpError (pattern : string)          (* new RegExp(pattern) rejected *)
| OutOfFuel.   (* no error of the program: the bound given to a loop was too small *)

Inductive Result (A : Type) :=
| Ok (a : A)
| Err (e : Error).

Arguments Ok {A} a.

Arguments Err {A} e.

#[global] Instance result_ret : MRet Result := fun _ a => Ok a.

#[global] Instance result_bind : MBind Result := fun _ _ f m =>
  match m with
  | Ok a => f a
  | Err e => Err e
  end.

(** ** The arity matcher *)

(** [_getNargsPattern]. *)
Definition _getNargsPattern (action : Action) : string :=
  let regexpNargs :=
    match nargs action with
    | NargsDefault => "(-*A-*)"
    | OPTIONAL => "(-*A?-*)"
    | ZERO_OR_MORE => "(-*[A-]*)"
    | ONE_OR_MORE => "(-*A[A-]*)"
    | REMAINDER => "([-AO]*)"
    | PARSER => "(-*A[-AO]*)"
    | NargsCount n => "(-*" +:+ Js.repeat_str "-*A" n +:+ "-*)"
    end in
  if isOptional action then Js.remove_dash (Js.remove_dash_star regexpNargs)
  else regexpNargs.

(** The message of a failed [_matchArgument]. *)
Definition arity_message (n : Nargs) : ArgumentMessage :=
  match n with
  | NargsDefault => ExpectedOneArgument
  | OPTIONAL => ExpectedAtMostOneArgument
  | ONE_OR_MORE => ExpectedAtLeastOneArgument
  | _ => ExpectedCountArguments n
  end.

(** [_matchArgument]: the length of the first capture of the match. *)
Definition _matchArgument (action : Action) (regexpArgStrings : string) : Result nat :=
  match Regex.parse (_getNargsPattern action) with
  | None => Err (RegExpError (_getNargsPattern action))
  | Some regexpNargs =>
      match Regex.exec regexpNargs regexpArgStrings with
      | None => Err (ArgumentError (uid action) (arity_message (nargs action)))
      | Some [] => Err (JsError "matches[1] is undefined")
      | Some (m1 :: _) => Ok (String.length m1)
      end
  end.

(** The pattern of the first [i] actions, concatenated. *)
Fixpoint concat_patterns (actionSlice : list Action) : string :=
  match actionSlice with
  | [] => EmptyString
  | a :: r => _getNargsPattern a +:+ concat_patterns r
  end.

(** [_matchArgumentsPartial]: the loop [for (i = actions.length; i > 0;
    i -= 1)], by recursion on [i]. *)
Fixpoint matchPartial_from (actions : list Action) (regexpArgStrings : string)
    (i : nat) : Result (list nat) :=
  match i with
  | O => Ok []
  | S j =>
      let pattern := concat_patterns (take i actions) in
      match Regex.parse pattern with
      | None => Err (RegExpError pattern)
      | Some re =>
          match Regex.exec re regexpArgStrings with
          | Some groups => Ok (map String.length groups)
          | None => matchPartial_from actions regexpArgStrings j
          end
      end
  end.

Definition _matchArgumentsPartial (actions : list Action) (regexpArgStrings : string)
    : Result (list nat) :=
  matchPartial_from actions regexpArgStrings (length actions).

(** ** The option resolver *)

(** An option tuple [[action, optionString, explicitArgument]]; the
    action is [None] for [null]. *)
Definition OptionTuple : Type := option Action * string * MaybeStr.

(** [pieces[i]] as a string-valued slot. *)
Definition piece_at (pieces : list string) (i : nat) : MaybeStr :=
  match pieces !! i with
  | Some s => MStr s
  | None => MUndefined
  end.

(** [chars.indexOf(s[i]) >= 0]. *)
Definition is_prefix_char (chars : string) (s : string) (i : nat) : bool :=
  (0 <=? Js.indexOf chars (Js.char_str (Js.char_at s i)))%Z.

(** [_getOptionTuples]. *)
Definition _getOptionTuples (p : Parser) (optionString : string) : Result (list OptionTuple) :=
  let chars := prefixChars p in
  if is_prefix_char chars optionString 0 && is_prefix_char chars optionString 1 then
    let '(optionPrefix, argExplicit) :=
      if (0 <=? Js.indexOf optionString "=")%Z then
        let optionStringSplit := Js.split_limit "=" 1 optionString in
        (match optionStringSplit !! 0 with Some s => s | None => EmptyString end,
         piece_at optionStringSplit 1)
      else (optionString, MNull) in
    Ok (omap (fun '(actionOptionString, action) =>
                if String.eqb (Js.substr0 actionOptionString (String.length optionPrefix))
                     optionPrefix
                then Some (Some action, actionOptionString, argExplicit)
                else None)
             (_optionStringActions p))
  else if is_prefix_char chars optionString 0
          && negb (is_prefix_char chars optionString 1) then
    let optionPrefix := optionString in
    let argExplicit := MNull in
    let optionPrefixShort := Js.substr0 optionString 2 in
    let argExplicitShort := Js.substr_from optionString 2 in
    Ok (omap (fun '(actionOptionString, action) =>
                if String.eqb actionOptionString optionPrefixShort
                then Some (Some action, actionOptionString, MStr argExplicitShort)
                else if String.eqb
                          (Js.substr0 actionOptionString (String.length optionPrefix))
                          optionPrefix
                then Some (Some action, actionOptionString, argExplicit)
                else None)
             (_optionStringActions p))
  else Err (JsError ("Unexpected option string: " +:+ optionString +:+ ".")).

(** [_parseOptional]: [Ok None] is the result [null]. *)
Definition _parseOptional (p : Parser) (argString : string) : Result (option OptionTuple) :=
  if String.eqb argString EmptyString then Ok None
  else if negb (is_prefix_char (prefixChars p) argString 0) then Ok None
  else match lookup_option (_optionStringActions p) argString with
  | Some action => Ok (Some (Some action, argString, MNull))
  | None =>
  if Nat.eqb (String.length argString) 1 then Ok None
  else
  let by_name :=
    if (0 <=? Js.indexOf argString "=")%Z then
      let argStringSplit := Js.split "=" argString in
      let optionString :=
        match argStringSplit !! 0 with Some s => s | None => EmptyString end in
      let argExplicit := piece_at argStringSplit 1 in
      match lookup_option (_optionStringActions p) optionString with
      | Some action => Some (Some action, optionString, argExplicit)
      | None => None
      end
    else None in
  match by_name with
  | Some t => Ok (Some t)
  | None =>
  optionTuples ← _getOptionTuples p argString;
  match optionTuples with
  | _ :: _ :: _ =>
      let optionStrings := map (fun t : OptionTuple => t.1.2) optionTuples in
      Err (ParserError (AmbiguousOption argString (Js.join ", " optionStrings)))
  | [t] => Ok (Some t)
  | [] =>
      if _regexpNegativeNumber p argString && negb (_hasNegativeNumberOptionals p)
      then Ok None
      else if Js.has_space argString then Ok None
      else Ok (Some (None, argString, MNull))
  end
  end
  end.

(** ** The token classifier *)

(** The callback of [argStrings.forEach] in [_parseKnownArgs], applied
    to the elements from index [i] on.  [n] is [argStrings.length]. *)
Fixpoint classify_from (p : Parser) (n : nat) (rest : list string) (i : nat)
    (parts : string) (indices : gmap nat OptionTuple)
    : Result (string * gmap nat OptionTuple) :=
  match rest with
  | [] => Ok (parts, indices)
  | argString :: rest' =>
      if String.eqb argString "--" then
        (* push '-', then one 'A' per index from [i] up to the length *)
        classify_from p n rest' (S i)
          (parts +:+ "-" +:+ Js.repeat_str "A" (n - i)) indices
      else
        optionTuple ← _parseOptional p argString;
        match optionTuple with
        | None => classify_from p n rest' (S i) (parts +:+ "A") indices
        | Some t => classify_from p n rest' (S i) (parts +:+ "O") (<[i := t]> indices)
        end
  end.

(** The pattern string [argStringsPattern] and the map
    [optionStringIndices]. *)
Definition classify (p : Parser) (argStrings : list string)
    : Result (string * gmap nat OptionTuple) :=
  classify_from p (length argStrings) argStrings 0 EmptyString ∅.

(** ** Value conversion and validation *)

(** [_getValue]. *)
Definition _getValue (action : Action) (argString : string) : Result Value :=
  match typeFunction action with
  | None => Err (ArgumentError (uid action) NotCallable)
  | Some f =>
      match f argString with
      | Some result => Ok result
      | None => Err (ArgumentError (uid action) (InvalidTypeValue argString))
      end
  end.

(** The array index named by a property key: a decimal numeral without
    superfluous leading zero. *)
Definition digit_of (c : ascii) : option nat :=
  let n := nat_of_ascii c in
  if (48 <=? n)%nat && (n <=? 57)%nat then Some (n - 48) else None.

Fixpoint digits_value (s : string) (acc : nat) : option nat :=
  match s with
  | EmptyString => Some acc
  | String c r =>
      match digit_of c with
      | Some d => digits_value r (10 * acc + d)
      | None => None
      end
  end.

Definition canonical_index (s : string) : option nat :=
  match s with
  | EmptyString => None
  | String "0" EmptyString => Some 0
  | String "0" _ => None
  | _ => digits_value s 0
  end.

(** The index of an array that the value [v] names when it is used as
    a property key: a number, a string that is the decimal numeral of
    one, or an array that holds one such value (an array prints as its
    elements joined by commas, so an array of one element prints as that
    element).  The string form of a [VRef] is unknown and taken to name
    no property. *)
Fixpoint array_index_of (v : Value) : option nat :=
  match v with
  | VStr s => canonical_index s
  | VNum n => if (0 <=? n)%Z then Some (Z.to_nat n) else None
  | VArray [x] => array_index_of x
  | _ => None
  end.

(** The name the value [v] turns into when it is used as a property
    key, for the values that can name a member other than an index: a
    string, or an array that holds one such value. *)
Fixpoint key_name (v : Value) : option string :=
  match v with
  | VStr s => Some s
  | VArray [x] => key_name x
  | _ => None
  end.

(** The string-keyed members an array inherits from [Array.prototype]
    and [Object.prototype] (ECMAScript 2023, with the legacy accessors
    of [Object.prototype]).  Every one of them is a function or an
    object. *)
Definition array_prototype_members : list string :=
  ["constructor"; "at"; "concat"; "copyWithin"; "entries"; "every"; "fill"; "filter";
   "find"; "findIndex"; "findLast"; "findLastIndex"; "flat"; "flatMap"; "forEach";
   "includes"; "indexOf"; "join"; "keys"; "lastIndexOf"; "map"; "pop"; "push";
   "reduce"; "reduceRight"; "reverse"; "shift"; "slice"; "some"; "sort"; "splice";
   "toLocaleString"; "toReversed"; "toSorted"; "toSpliced"; "toString"; "unshift";
   "values"; "with";
   "hasOwnProperty"; "isPrototypeOf"; "propertyIsEnumerable"; "valueOf";
   "__proto__"; "__defineGetter__"; "__defineSetter__"; "__lookupGetter__";
   "__lookupSetter__"].

(** [choices[value]] for an array of choices: the own property [length],
    a member inherited from the prototypes, or the element at the index
    the value names. *)
Definition array_get (items : list Value) (v : Value) : Value :=
  let element :=
    match array_index_of v with
    | Some i => match items !! i with Some x => x | None => VUndefined end
    | None => VUndefined
    end in
  match key_name v with
  | Some name =>
      if String.eqb name "length" then VNum (Z.of_nat (length items))
      else if existsb (String.eqb name) array_prototype_members then VBuiltin name
      else element
  | None => element
  end.

(** [_checkValue]. *)
Definition _checkValue (action : Action) (value : Value) : Result unit :=
  match choices action with
  | ChoicesNone => Ok tt
  | ChoicesObject _ => Ok tt     (* no [indexOf] method *)
  | ChoicesArray items =>
      if negb (truthy (array_get items value))
         && negb (existsb (strict_eq value) items)
      then Err (ArgumentError (uid action) (InvalidChoice value))
      else Ok tt
  end.

(** [argStrings.map(function (v) { return self._getValue(action, v); })]. *)
Fixpoint map_getValue (action : Action) (argStrings : list string) : Result (list Value) :=
  match argStrings with
  | [] => Ok []
  | v :: r =>
      x ← _getValue action v;
      xs ← map_getValue action r;
      Ok (x :: xs)
  end.

(** [value.forEach(function (v) { self._checkValue(action, v); })]. *)
Fixpoint forEach_checkValue (action : Action) (value : list Value) : Result unit :=
  match value with
  | [] => Ok tt
  | v :: r => _ ← _checkValue action v; forEach_checkValue action r
  end.

(** [value[0]]. *)
Definition first_value (value : list Value) : Value :=
  match value with
  | v :: _ => v
  | [] => VUndefined
  end.

Definition is_parser_or_remainder (n : Nargs) : bool :=
  match n with
  | PARSER | REMAINDER => true
  | _ => false
  end.

(** [_getValues]. *)
Definition _getValues (action : Action) (argStrings : list string) : Result Value :=
  let argStrings :=
    if negb (is_parser_or_remainder (nargs action))
    then filter (fun arrayElement => arrayElement ≠ "--") argStrings
    else argStrings in
  if Nat.eqb (length argStrings) 0 && Nargs_eqb (nargs action) OPTIONAL then
    let value := if isOptional action then constant action else defaultValue action in
    match value with
    | VStr s =>
        value ← _getValue action s;
        _ ← _checkValue action value;
        Ok value
    | _ => Ok value
    end
  else if Nat.eqb (length argStrings) 0 && Nargs_eqb (nargs action) ZERO_OR_MORE
          && isOptional action then
    let value :=
      if truthy (defaultValue action) then defaultValue action
      else VArray (map VStr argStrings) in
    _ ← _checkValue action value;
    Ok value
  else if Nat.eqb (length argStrings) 1
          && (nargs_falsy (nargs action) || Nargs_eqb (nargs action) OPTIONAL) then
    match argStrings with
    | argString :: _ =>
        value ← _getValue action argString;
        _ ← _checkValue action value;
        Ok value
    | [] => Ok VUndefined
    end
  else if Nargs_eqb (nargs action) REMAINDER then
    value ← map_getValue action argStrings;
    Ok (VArray value)
  else if Nargs_eqb (nargs action) PARSER then
    value ← map_getValue action argStrings;
    _ ← _checkValue action (first_value value);
    Ok (VArray value)
  else
    value ← map_getValue action argStrings;
    _ ← forEach_checkValue action value;
    Ok (VArray value).

(** ** The consumption loop *)

(** The variables of [_parseKnownArgs] that its inner functions update.
    [actionConflicts] is indexed by the string form of an action
    object. *)
Record State := {
  extras : list string;
  seenActions : list Action;
  seenNonDefaultActions : list Action;
  positionals : list Action;
  namespace : Namespace;
  actionConflicts : gmap string (list Action);
}.

(** The property name an action object turns into when it indexes
    [actionConflicts]: the Action class is not given a [toString] in this
    file, so the default one applies. *)
Definition action_key (a : Action) : string := "[object Object]".

(** [xs.indexOf(a)] on an array of actions, by object identity. *)
Fixpoint action_indexOf_from (xs : list Action) (a : Action) (i : Z) : Z :=
  match xs with
  | [] => (-1)%Z
  | x :: r => if Nat.eqb (uid x) (uid a) then i else action_indexOf_from r a (i + 1)%Z
  end.

Definition action_indexOf (xs : list Action) (a : Action) : Z :=
  action_indexOf_from xs a 0%Z.

(** The [for] loop of [takeAction] over [actionConflicts[action]]. *)
Fixpoint check_conflicts (action : Action) (seenNonDefault : list Action)
    (conflicts : list Action) : Result unit :=
  match conflicts with
  | [] => Ok tt
  | actionConflict :: r =>
      if (0 <? action_indexOf seenNonDefault actionConflict)%Z then
        Err (ArgumentError (uid action) (NotAllowedWith (uid actionConflict)))
      else check_conflicts action seenNonDefault r
  end.

(** [takeAction(action, argumentStrings, optionString)]. *)
Definition takeAction (st : State) (action : Action) (argumentStrings : list string)
    (optionString : MaybeStr) : Result State :=
  let seen := seenActions st ++ [action] in
  argumentValues ← _getValues action argumentStrings;
  '(seenNonDefault) ←
    (if negb (strict_eq argumentValues (default action)) then
       let seenNonDefault := seenNonDefaultActions st ++ [action] in
       match actionConflicts st !! action_key action with
       | Some conflicts =>
           _ ← check_conflicts action seenNonDefault conflicts;
           Ok seenNonDefault
       | None => Ok seenNonDefault
       end
     else Ok (seenNonDefaultActions st));
  ns ←
    (if negb (strict_eq argumentValues (VStr SUPPRESS)) then
       match call action (namespace st) argumentValues optionString with
       | inl ns => Ok ns
       | inr msg => Err (CallError (uid action) msg)
       end
     else Ok (namespace st));
  Ok {| extras := extras st; seenActions := seen;
        seenNonDefaultActions := seenNonDefault;
        positionals := positionals st; namespace := ns;
        actionConflicts := actionConflicts st |}.

(** The message of the [Error] that [_.str.sprintf] throws for a format
    with a conversion outside [b-fosuxX]. *)
Definition sprintf_unknown_conversion : string := "[_.sprintf] huh?".

(** How the [while (true)] loop of [consumeOptional] is left: by the
    early [return] for an option tuple without action, or by [break]
    with the action tuples collected and the index [stop]. *)
Inductive OptionalExit :=
| Unrecognized
| Matched (actionTuples : list (Action * list string * string)) (stop : nat).

(** The [while (true)] loop of [consumeOptional].  Its only way round is
    the clustering of single-character flags, which drops the first
    character of the explicit argument; the recursion follows that
    string, whose empty value stands for every falsy explicit argument
    ([null], [undefined] and the empty string). *)
Fixpoint consumeOptional_loop (p : Parser) (argStringsPattern : string)
    (argStrings : list string) (startIndex : nat)
    (explicitArg : string) (action : option Action) (optionString : string)
    (actionTuples : list (Action * list string * string)) : Result OptionalExit :=
  match action with
  | None => Ok Unrecognized
  | Some action =>
      match explicitArg with
      | String c newExplicitArg =>
          argCount ← _matchArgument action "A";
          if Nat.eqb argCount 0 && negb (is_prefix_char (prefixChars p) optionString 1) then
            let actionTuples := actionTuples ++ [(action, [], optionString)] in
            let optionString :=
              Js.char_str (Js.char_at optionString 0) +:+ String c EmptyString in
            match lookup_option (_optionStringActions p) optionString with
            | Some action' =>
                consumeOptional_loop p argStringsPattern argStrings startIndex
                  newExplicitArg (Some action') optionString actionTuples
            | None =>
                Err (ArgumentError (uid action) IgnoredExplicitArgument)
            end
          else if Nat.eqb argCount 1 then
            Ok (Matched (actionTuples ++ [(action, [explicitArg], optionString)])
                  (startIndex + 1))
          else
            (* [_.str.sprintf(message, explicitArg)] is evaluated first: it
               throws on the conversion [%r], which it does not know *)
            Err (JsError sprintf_unknown_conversion)
      | EmptyString =>
          let start := startIndex + 1 in
          let selectedPatterns := Js.substr_from argStringsPattern start in
          argCount ← _matchArgument action selectedPatterns;
          let stop := start + argCount in
          let args := Js.slice argStrings start stop in
          Ok (Matched (actionTuples ++ [(action, args, optionString)]) stop)
      end
  end.

(** The loop [for (i = 0; i < actionTuples.length; i++)
    takeAction.apply(self, actionTuples[i])]. *)
Fixpoint take_all (st : State) (actionTuples : list (Action * list string * string))
    : Result State :=
  match actionTuples with
  | [] => Ok st
  | (action, args, optionString) :: r =>
      st' ← takeAction st action args (MStr optionString);
      take_all st' r
  end.

(** [consumeOptional(startIndex)]. *)
Definition consumeOptional (p : Parser) (argStringsPattern : string)
    (optionStringIndices : gmap nat OptionTuple) (argStrings : list string)
    (st : State) (startIndex : nat) : Result (nat * State) :=
  match optionStringIndices !! startIndex with
  | None => Err (JsError "TypeError: optionTuple is undefined")
  | Some (action, optionString, explicitArg) =>
      let explicit :=
        match explicitArg with
        | MStr e => e
        | _ => EmptyString
        end in
      exit ← consumeOptional_loop p argStringsPattern argStrings startIndex
                explicit action optionString [];
      match exit with
      | Unrecognized =>
          let pushed :=
            match argStrings !! startIndex with
            | Some s => [s]
            | None => [] (* unreachable: the index is that of a token *)
            end in
          Ok (startIndex + 1,
              {| extras := extras st ++ pushed; seenActions := seenActions st;
                 seenNonDefaultActions := seenNonDefaultActions st;
                 positionals := positionals st; namespace := namespace st;
                 actionConflicts := actionConflicts st |})
      | Matched actionTuples stop =>
          if (length actionTuples <? 1)%nat then Err (JsError "length should be > 0")
          else
            st' ← take_all st actionTuples;
            Ok (stop, st')
      end
  end.

(** A number that may be [NaN]: the running index of
    [consumePositionals] once [undefined] has been added to it. *)
Inductive Index :=
| Num (n : nat)
| NaN.

(** The integer an index argument of [slice] stands for. *)
Definition index_to_nat (i : Index) : nat :=
  match i with
  | Num n => n
  | NaN => 0
  end.

(** [startIndex + argCount], where [argCount] may be [undefined]. *)
Definition index_add (i : Index) (argCount : option nat) : Index :=
  match i, argCount with
  | Num n, Some c => Num (n + c)
  | _, _ => NaN
  end.

(** [_.zip(xs, ys)]: as long as the longer array, the shorter one padded
    with [undefined]. *)
Fixpoint zip_longest {A B} (xs : list A) (ys : list B) : list (option A * option B) :=
  match xs, ys with
  | [], [] => []
  | x :: xs', [] => (Some x, None) :: zip_longest xs' []
  | [], y :: ys' => (None, Some y) :: (fix pad (l : list B) :=
                                          match l with
                                          | [] => []
                                          | z :: l' => (None, Some z) :: pad l'
                                          end) ys'
  | x :: xs', y :: ys' => (Some x, Some y) :: zip_longest xs' ys'
  end.

(** The [forEach] of [consumePositionals] over the zipped pairs. *)
Fixpoint take_positionals (argStrings : list string) (st : State) (startIndex : Index)
    (items : list (option Action * option nat)) : Result (Index * State) :=
  match items with
  | [] => Ok (startIndex, st)
  | (action, argCount) :: r =>
      let args := Js.slice argStrings (index_to_nat startIndex)
                    (index_to_nat (index_add startIndex argCount)) in
      let startIndex := index_add startIndex argCount in
      match action with
      | None => Err (JsError "TypeError: action is undefined")
      | Some action =>
          st' ← takeAction st action args MUndefined;
          take_positionals argStrings st' startIndex r
      end
  end.

(** [consumePositionals(startIndex)]. *)
Definition consumePositionals (argStringsPattern : string) (argStrings : list string)
    (st : State) (startIndex : nat) : Result (Index * State) :=
  let selectedPattern := Js.substr_from argStringsPattern startIndex in
  argCounts ← _matchArgumentsPartial (positionals st) selectedPattern;
  '(stopIndex, st') ←
    (if (0 <? length argCounts)%nat
     then take_positionals argStrings st (Num startIndex)
            (zip_longest (positionals st) argCounts)
     else Ok (Num startIndex, st));
  Ok (stopIndex,
      {| extras := extras st'; seenActions := seenActions st';
         seenNonDefaultActions := seenNonDefaultActions st';
         positionals := drop (length argCounts) (positionals st');
         namespace := namespace st'; actionConflicts := actionConflicts st' |}).

(** The keys of [optionStringIndices], as [for (position in ...)]
    enumerates them. *)
Definition option_positions (optionStringIndices : gmap nat OptionTuple) : list nat :=
  (map_to_list optionStringIndices).*1.

(** [maxOptionStringIndex]. *)
Definition maxOptionStringIndex (optionStringIndices : gmap nat OptionTuple) : Z :=
  foldl (fun acc position => Z.max acc (Z.of_nat position)) (-1)%Z
    (option_positions optionStringIndices).

(** [nextOptionStringIndex]: the least position not before [startIndex],
    [None] for [null]. *)
Definition nextOptionStringIndex (optionStringIndices : gmap nat OptionTuple)
    (startIndex : nat) : option nat :=
  foldl (fun acc position =>
           if (startIndex <=? position)%nat then
             match acc with
             | Some next => Some (Nat.min next position)
             | None => Some position
             end
           else acc)
    None (option_positions optionStringIndices).

Definition with_extras (st : State) (more : list string) : State :=
  {| extras := extras st ++ more; seenActions := seenActions st;
     seenNonDefaultActions := seenNonDefaultActions st;
     positionals := positionals st; namespace := namespace st;
     actionConflicts := actionConflicts st |}.

(** The part of one iteration of the main loop that follows the
    positionals: move the tokens in front of the next option to the
    extras if the current index holds no option, then consume the
    option. *)
Definition consume_next_optional (p : Parser) (argStringsPattern : string)
    (optionStringIndices : gmap nat OptionTuple) (argStrings : list string)
    (st : State) (startIndex : Index) (next : option nat) : Result (nat * State) :=
  let at_option :=
    match startIndex with
    | Num n => bool_decide (is_Some (optionStringIndices !! n))
    | NaN => false
    end in
  if negb at_option then
    match next with
    | Some nextIndex =>
        let strings := Js.slice argStrings (index_to_nat startIndex) nextIndex in
        consumeOptional p argStringsPattern optionStringIndices argStrings
          (with_extras st strings) nextIndex
    | None => Err (JsError "TypeError: optionTuple is undefined")
    end
  else
    consumeOptional p argStringsPattern optionStringIndices argStrings st
      (index_to_nat startIndex).

(** The loop [while (startIndex <= maxOptionStringIndex)].  Every
    iteration moves [startIndex] forward, so the number of iterations is
    bounded by the number of tokens; [fuel] is that bound. *)
Fixpoint main_loop (fuel : nat) (p : Parser) (argStringsPattern : string)
    (optionStringIndices : gmap nat OptionTuple) (argStrings : list string)
    (st : State) (startIndex : nat) : Result (nat * State) :=
  if (Z.of_nat startIndex <=? maxOptionStringIndex optionStringIndices)%Z then
    match fuel with
    | O => Err OutOfFuel
    | S fuel' =>
        let next := nextOptionStringIndex optionStringIndices startIndex in
        if negb (bool_decide (Some startIndex = next)) then
          '(positionalsEndIndex, st') ←
            consumePositionals argStringsPattern argStrings st startIndex;
          match positionalsEndIndex with
          | Num e =>
              if (startIndex <? e)%nat then
                main_loop fuel' p argStringsPattern optionStringIndices argStrings st' e
              else
                '(startIndex', st'') ←
                  consume_next_optional p argStringsPattern optionStringIndices
                    argStrings st' positionalsEndIndex next;
                main_loop fuel' p argStringsPattern optionStringIndices argStrings
                  st'' startIndex'
          | NaN =>
              '(startIndex', st'') ←
                consume_next_optional p argStringsPattern optionStringIndices
                  argStrings st' positionalsEndIndex next;
              main_loop fuel' p argStringsPattern optionStringIndices argStrings
                st'' startIndex'
          end
        else
          '(startIndex', st') ←
            consume_next_optional p argStringsPattern optionStringIndices
              argStrings st (Num startIndex) next;
          main_loop fuel' p argStringsPattern optionStringIndices argStrings
            st' startIndex'
    end
  else Ok (startIndex, st).

(** [_.rest(argStrings, stopIndex)]. *)
Definition rest_from (argStrings : list string) (stopIndex : Index) : list string :=
  drop (index_to_nat stopIndex) argStrings.

(** The check of the required actions at the end of [_parseKnownArgs]. *)
Fixpoint check_required (seen : list Action) (actions : list Action) : Result unit :=
  match actions with
  | [] => Ok tt
  | action :: r =>
      if required action && (action_indexOf seen action <? 0)%Z then
        Err (ParserError (ArgumentRequired (uid action)))
      else check_required seen r
  end.

(** [_getPositionalActions]. *)
Definition _getPositionalActions (p : Parser) : list Action :=
  List.filter isPositional (_actions p).

Definition initial_state (p : Parser) (namespace : Namespace) : State :=
  {| extras := []; seenActions := []; seenNonDefaultActions := [];
     positionals := _getPositionalActions p; namespace := namespace;
     actionConflicts := ∅ |}.

(** [_parseKnownArgs] up to the collection of the extras: the
    classification, the main loop, the last run of positionals. *)
Definition parse_loop (p : Parser) (argStrings : list string) (namespace : Namespace)
    : Result State :=
  '(argStringsPattern, optionStringIndices) ← classify p argStrings;
  '(startIndex, st) ←
    main_loop (S (length argStrings)) p argStringsPattern optionStringIndices
      argStrings (initial_state p namespace) 0;
  '(stopIndex, st) ← consumePositionals argStringsPattern argStrings st startIndex;
  Ok (with_extras st (rest_from argStrings stopIndex)).

(** [_parseKnownArgs], with the values of all its local variables at the
    [return]: the loop above, then the checks for unused positionals and
    for required actions. *)
Definition parse_state (p : Parser) (argStrings : list string) (namespace : Namespace)
    : Result State :=
  st ← parse_loop p argStrings namespace;
  if (0 <? length (positionals st))%nat then Err (ParserError TooFewArguments)
  else
    _ ← check_required (seenActions st) (_actions p);
    Ok st.

(** [_parseKnownArgs]: the pair [[namespace, extras]]. *)
Definition _parseKnownArgs (p : Parser) (argStrings : list string) (namespace0 : Namespace)
    : Result (Namespace * list string) :=
  st ← parse_state p argStrings namespace0;
  Ok (namespace st, extras st).

(** ** Sample schemas *)

Module Sample.

(** An action that stores its values under [dest], as the 'store'
    action does. *)
Definition store (d : string) : Namespace -> Value -> MaybeStr -> Namespace + string :=
  fun ns v _ => inl (<[d := v]> ns).

Definition action (id : nat) (names : list string) (d : string) (n : Nargs)
    (ch : Choices) : Action :=
  {| uid := id; optionStrings := names; dest := d; nargs := n;
     constant := VUndefined; defaultValue := VNull; default := VUndefined;
     typeFunction := Some (fun s => Some (VStr s));
     choices := ch; required := false; call := store d |}.

(** A parser over the prefix character '-' whose option strings are
    registered in declaration order. *)
Definition parser (actions : list Action) : Parser :=
  {| prefixChars := "-";
     _actions := actions;
     _optionStringActions :=
       flat_map (fun a => map (fun o => (o, a)) (optionStrings a)) actions;
     _regexpNegativeNumber := fun _ => false;
     _hasNegativeNumberOptionals := false |}.

Definition opt_x : Action := action 1 ["-x"] "x" (NargsCount 0) ChoicesNone.

Definition opt_foo : Action := action 2 ["--foo"] "foo" NargsDefault ChoicesNone.

Definition opt_foobar : Action := action 3 ["--foobar"] "foobar" NargsDefault ChoicesNone.

Definition opt_bar : Action := action 4 ["--bar"] "bar" (NargsCount 0) ChoicesNone.

Definition opt_f : Action := action 5 ["-f"] "f" NargsDefault ChoicesNone.

Definition opt_fox : Action := action 6 ["-fox"] "fox" NargsDefault ChoicesNone.

Definition sub : Action := action 7 [] "command" PARSER ChoicesNone.

Definition rest_ab : Action :=
  action 8 [] "rest" REMAINDER (ChoicesArray [VStr "a"; VStr "b"]).

Definition sub_ab : Action :=
  action 9 [] "command" PARSER (ChoicesArray [VStr "a"; VStr "b"]).

Definition pos_name : Action := action 10 [] "name" NargsDefault ChoicesNone.

Definition pos_opt : Action := action 11 [] "maybe" OPTIONAL ChoicesNone.

Definition flag_a : Action := action 12 ["-a"] "a" (NargsCount 0) ChoicesNone.

Definition flag_b : Action := action 13 ["-b"] "b" (NargsCount 0) ChoicesNone.

Definition flag_c : Action := action 14 ["-c"] "c" (NargsCount 0) ChoicesNone.

Definition pos_second : Action := action 15 [] "second" NargsDefault ChoicesNone.

End Sample.

(** * Notions used in the statements *)

(** ** Alignment of the pattern string *)

(** The pattern and the option-tuple map are aligned with the tokens:
    one character per token, an [O] exactly at the indices of the
    map. *)
Definition aligned (i : nat) (parts : string) (indices : gmap nat OptionTuple) : Prop :=
  String.length parts = i
  /\ forall k, is_Some (indices !! k) <-> Js.char_at parts k = Some "O"%char.

(** ** The abbreviation rule *)

(** The declared option strings that start with [P], with their
    actions, in declaration order. *)
Definition declared_with_prefix (p : Parser) (P : string) : list (string * Action) :=
  List.filter (fun '(o, _) => String.prefix P o) (_optionStringActions p).

(** The abbreviation rule as the specification words it: one declared
    option string with prefix [P] resolves the token [P] to that option,
    two or more make the token ambiguous. *)
Definition abbreviation_rule (p : Parser) (P : string) : Prop :=
  (forall o a, declared_with_prefix p P = [(o, a)] ->
     exists e, _parseOptional p P = Ok (Some (Some a, o, e)))
  /\ (2 <= length (declared_with_prefix p P) ->
      _parseOptional p P
      = Err (ParserError
               (AmbiguousOption P (Js.join ", " (declared_with_prefix p P).*1)))).

(** The candidates of the prefix search for the token [P]: the declared
    option strings that start with [P] and, when the second character of
    [P] is no prefix character, the declared option string made of the
    first two characters of [P]. *)
Definition candidates (p : Parser) (P : string) : list (string * Action) :=
  List.filter
    (fun '(o, _) =>
       (negb (is_prefix_char (prefixChars p) P 1) && String.eqb o (Js.substr0 P 2))
       || String.prefix P o)
    (_optionStringActions p).

(** The tuple the prefix search builds for a candidate. *)
Definition candidate_tuple (p : Parser) (P : string) (oa : string * Action) : OptionTuple :=
  (Some oa.2, oa.1,
   if negb (is_prefix_char (prefixChars p) P 1) && String.eqb oa.1 (Js.substr0 P 2)
   then MStr (Js.substr_from P 2) else MNull).

(** ** Value conversion *)

(** The rule for [Remainder] and [ParserHandoff] as the specification
    words it: every token is converted and the first converted value is
    checked against the choices. *)
Definition converts_all_checks_first (action : Action) (argStrings : list string)
    : Result Value :=
  value ← map_getValue action argStrings;
  _ ← _checkValue action (first_value value);
  Ok (VArray value).

Definition remainder_parser_rule (action : Action) (argStrings : list string) : Prop :=
  nargs action = REMAINDER \/ nargs action = PARSER ->
  _getValues action argStrings = converts_all_checks_first action argStrings.

(** The slice without its [--] tokens. *)
Definition strip_separators (argStrings : list string) : list string :=
  filter (fun arrayElement => arrayElement ≠ "--") argStrings.

(** ** Classes of errors and states *)

(** The error raised for two conflicting (mutually exclusive)
    actions. *)
Definition is_conflict (e : Error) : bool :=
  match e with
  | ArgumentError _ (NotAllowedWith _) => true
  | _ => false
  end.

Definition raises_conflict {A} (r : Result A) : bool :=
  match r with
  | Err e => is_conflict e
  | Ok _ => false
  end.

(** The errors a parse can end with: an argument error other than the
    conflict error, a parser error, an error thrown by the [call] of an
    action, or the error [_.str.sprintf] throws for the message of a
    rejected explicit argument.  The others stand for further exceptions
    of the JavaScript runtime, for a rejected regular expression and for
    the exhaustion of the loop bound. *)
Definition expected (e : Error) : bool :=
  match e with
  | ArgumentError _ (NotAllowedWith _) => false
  | ArgumentError _ _ | ParserError _ | CallError _ _ => true
  | JsError msg => String.eqb msg sprintf_unknown_conversion
  | RegExpError _ | OutOfFuel => false
  end.

(** A result that satisfies [Q] when it is a value and whose error, if
    any, is in the class [P]. *)
Definition ok_or (P : Error -> bool) {A} (Q : A -> Prop) (r : Result A) : Prop :=
  match r with
  | Ok a => Q a
  | Err e => P e = true
  end.

Definition any {A} : A -> Prop := fun _ => True.

(** The action-conflict map of a state is empty. *)
Definition no_conflicts (st : State) : Prop := actionConflicts st = ∅.

Definition no_conflicts_at {I} (r : I * State) : Prop := no_conflicts r.2.

(** ** Flags *)

(** The schema that declares three flags and nothing else. *)
Definition flags_parser (a b c : Action) (negative : string -> bool)
    (hasNegative : bool) : Parser :=
  {| prefixChars := "-";
     _actions := [a; b; c];
     _optionStringActions := [("-a", a); ("-b", b); ("-c", c)];
     _regexpNegativeNumber := negative;
     _hasNegativeNumberOptionals := hasNegative |}.

(** One flag fires: its [call] receives the empty array of values and
    its option string. *)
Definition fire (x : Action) (o : string) (st : State) : Result State :=
  match call x (namespace st) (VArray []) (MStr o) with
  | inl ns' =>
      Ok {| extras := extras st; seenActions := seenActions st ++ [x];
            seenNonDefaultActions := seenNonDefaultActions st ++ [x];
            positionals := positionals st; namespace := ns';
            actionConflicts := actionConflicts st |}
  | inr msg => Err (CallError (uid x) msg)
  end.

Definition is_flag (x : Action) (o : string) : Prop :=
  optionStrings x = [o] /\ nargs x = NargsCount 0.

(** ** The grammars of the arities *)

Module Grammar.

Import Regex.

Definition dash : atom := Lit "-".

Definition arg : atom := Lit "A".

(** The pieces inside the capture group of an action's pattern. *)
Definition action_pieces (a : Action) : list piece :=
  if isOptional a then
    match nargs a with
    | NargsDefault => [(arg, One)]
    | OPTIONAL => [(arg, Opt)]
    | ZERO_OR_MORE => [(Class ["A"%char], Star)]
    | ONE_OR_MORE => [(arg, One); (Class ["A"%char], Star)]
    | REMAINDER => [(Class ["A"; "O"]%char, Star)]
    | PARSER => [(arg, One); (Class ["A"; "O"]%char, Star)]
    | NargsCount n => repeat (arg, One) n
    end
  else
    match nargs a with
    | NargsDefault => [(dash, Star); (arg, One); (dash, Star)]
    | OPTIONAL => [(dash, Star); (arg, Opt); (dash, Star)]
    | ZERO_OR_MORE => [(dash, Star); (Class ["A"; "-"]%char, Star)]
    | ONE_OR_MORE => [(dash, Star); (arg, One); (Class ["A"; "-"]%char, Star)]
    | REMAINDER => [(Class ["-"; "A"; "O"]%char, Star)]
    | PARSER => [(dash, Star); (arg, One); (Class ["-"; "A"; "O"]%char, Star)]
    | NargsCount n =>
        (dash, Star) :: concat (repeat [(dash, Star); (arg, One)] n) ++ [(dash, Star)]
    end.

(** The expression for a run of actions: one group per action. *)
Definition grammar_of (actions : list Action) : regex :=
  map (fun a => Group (action_pieces a)) actions.

(** Reading a string character by character. *)
Fixpoint steps (st : pstate) (s : string) : option pstate :=
  match s with
  | EmptyString => Some st
  | String c r =>
      match pstep st c with
      | Some st' => steps st' r
      | None => None
      end
  end.

(** The parser state between two groups. *)
Definition between (its : list item) : pstate :=
  {| ps_items := its; ps_group := None; ps_pending := None; ps_class := None |}.

(** The parser state inside a group. *)
Definition inside (its : list item) (g : list piece) (pending : option atom) : pstate :=
  {| ps_items := its; ps_group := Some g; ps_pending := pending; ps_class := None |}.

Definition flushed (g : list piece) (pending : option atom) : list piece :=
  match pending with
  | Some a => (a, One) :: g
  | None => g
  end.

End Grammar.

(** ** Bounds of the arities *)

(** The least number of tokens the arity asks for. *)
Definition arity_min (n : Nargs) : nat :=
  match n with
  | NargsDefault => 1
  | NargsCount k => k
  | OPTIONAL => 0
  | ZERO_OR_MORE => 0
  | ONE_OR_MORE => 1
  | REMAINDER => 0
  | PARSER => 1
  end.

(** The greatest number of tokens the arity allows; [None] is no
    bound. *)
Definition arity_max (n : Nargs) : option nat :=
  match n with
  | NargsDefault => Some 1
  | NargsCount k => Some k
  | OPTIONAL => Some 1
  | _ => None
  end.

(** The least number of characters a run of pieces matches, and whether
    the run matches at most one character per piece. *)
Definition piece_min (p : Regex.piece) : nat :=
  match p.2 with
  | Regex.One => 1
  | _ => 0
  end.

Definition pieces_min (ps : list Regex.piece) : nat := sum_list (map piece_min ps).

Definition piece_bounded (p : Regex.piece) : bool :=
  match p.2 with
  | Regex.Star => false
  | _ => true
  end.

Definition piece_nullable (p : Regex.piece) : bool :=
  match p.2 with
  | Regex.One => false
  | _ => true
  end.

(** The characters the classifier writes into the pattern string. *)
Definition pattern_char (c : ascii) : bool :=
  existsb (Ascii.eqb c) ["-"; "A"; "O"]%char.

Fixpoint over_pattern_chars (s : string) : bool :=
  match s with
  | EmptyString => true
  | String c r => pattern_char c && over_pattern_chars r
  end.

(** The bounds the captures of a run of groups respect. *)
Definition capture_within (a : Action) (c : string) : Prop :=
  pieces_min (Grammar.action_pieces a) <= String.length c
  /\ (forallb piece_bounded (Grammar.action_pieces a) = true ->
      String.length c <= length (Grammar.action_pieces a)).

(** ** Explicit arguments *)

(** The arities that accept one token. *)
Definition admits_one (n : Nargs) : bool :=
  match n with
  | NargsCount k => Nat.eqb k 1
  | _ => true
  end.

(** The part of [s] in front of the first occurrence of [sep]; all of
    [s] when there is none. *)
Fixpoint upto (sep : ascii) (s : string) : string :=
  match s with
  | EmptyString => EmptyString
  | String c r => if Ascii.eqb c sep then EmptyString else String c (upto sep r)
  end.

(** ** How the state of a parse moves *)

(** From [st] to [st']: the extras grow by tokens of the input, the
    seen actions grow, and a queued positional stays queued unless it
    has been seen. *)
Definition progress (argStrings : list string) (st st' : State) : Prop :=
  (exists more, extras st' = extras st ++ more /\ forall t, In t more -> In t argStrings)
  /\ (exists fired, seenActions st' = seenActions st ++ fired)
  /\ (forall a, In a (positionals st) ->
        In a (positionals st') \/ In a (seenActions st')).

(** ** One action, one token *)



(** ** Declared actions and their calls *)

(** The actions the parser knows: those registered under an option
    string and those in its list of actions. *)
Definition declared (p : Parser) (a : Action) : Prop :=
  (exists o, In (o, a) (_optionStringActions p)) \/ In a (_actions p).

(** [called p ns ns']: the namespace [ns'] results from [ns] by
    successive calls of declared actions. *)
Inductive called (p : Parser) : Namespace -> Namespace -> Prop :=
| called_refl (ns : Namespace) : called p ns ns
| called_step (ns ns' ns'' : Namespace) (a : Action) (v : Value) (o : MaybeStr) :
    declared p a -> call a ns v o = inl ns' -> called p ns' ns'' -> called p ns ns''.

(** The actions a state refers to are declared. *)
Definition state_declared (p : Parser) (st : State) : Prop :=
  Forall (declared p) (positionals st) /\ Forall (declared p) (seenActions st).

(** The option tuples of the map name declared actions. *)
Definition tuples_declared (p : Parser) (indices : gmap nat OptionTuple) : Prop :=
  forall k a o e, indices !! k = Some (Some a, o, e) -> declared p a.

(** * Properties *)

(** ** Sequencing of results *)

Lemma bind_Ok {A B} (f : A -> Result B) (a : A) : (x ← Ok a; f x) = f a.
Proof. reflexivity. Qed.

Lemma bind_Err {A B} (f : A -> Result B) (e : Error) : (x ← Err e; f x) = Err e.
Proof. reflexivity. Qed.

(** Unfold the sequencing of results once its first part is known. *)
Ltac simpl_result :=
  repeat first [ rewrite bind_Ok | rewrite bind_Err ]; cbv beta iota.


(** ** The regular expressions of the arities *)

Module GrammarFacts.

Import Regex Grammar.

Lemma parse_from_app (st st' : pstate) (s1 s2 : string) :
  steps st s1 = Some st' -> parse_from st (s1 +:+ s2) = parse_from st' s2.
Proof.
  revert st. induction s1 as [|c s1 IH]; intros st; simpl.
  - intros [= ->]. reflexivity.
  - destruct (pstep st c); [apply IH|discriminate].
Qed.

Lemma steps_app (st st' : pstate) (s1 s2 : string) :
  steps st s1 = Some st' -> steps st (s1 +:+ s2) = steps st' s2.
Proof.
  revert st. induction s1 as [|c s1 IH]; intros st; simpl.
  - intros [= ->]. reflexivity.
  - destruct (pstep st c); [apply IH|discriminate].
Qed.

Lemma steps_count_positional (n : nat) (its : list item) (g : list piece)
    (pending : option atom) :
  steps (inside its g pending) (Js.repeat_str "-*A" n +:+ "-*)")
  = Some (between
            (Group (rev (flushed g pending)
                    ++ concat (repeat [(dash, Star); (arg, One)] n) ++ [(dash, Star)])
             :: its)).
Proof.
  revert g pending. induction n as [|n IH]; intros g pending.
  - destruct pending; reflexivity.
  - change (Js.repeat_str "-*A" (S n) +:+ "-*)")
      with ("-*A" +:+ (Js.repeat_str "-*A" n +:+ "-*)")).
    rewrite (steps_app _ (inside its ((dash, Star) :: flushed g pending) (Some arg)))
      by (destruct pending; reflexivity).
    rewrite IH. simpl. rewrite <- !app_assoc. reflexivity.
Qed.

Lemma steps_count_optional (n : nat) (its : list item) (g : list piece)
    (pending : option atom) :
  steps (inside its g pending) (Js.repeat_str "A" n +:+ ")")
  = Some (between (Group (rev (flushed g pending) ++ repeat (arg, One) n) :: its)).
Proof.
  revert g pending. induction n as [|n IH]; intros g pending.
  - destruct pending; simpl; rewrite ?app_nil_r; reflexivity.
  - change (Js.repeat_str "A" (S n) +:+ ")")
      with ("A" +:+ (Js.repeat_str "A" n +:+ ")")).
    rewrite (steps_app _ (inside its (flushed g pending) (Some arg)))
      by (destruct pending; reflexivity).
    rewrite IH. simpl. rewrite <- !app_assoc. reflexivity.
Qed.

Lemma remove_dash_star_count (n : nat) (tail : string) :
  Js.remove_dash_star (Js.repeat_str "-*A" n +:+ tail)
  = Js.repeat_str "A" n +:+ Js.remove_dash_star tail.
Proof.
  induction n as [|n IH]; [reflexivity|].
  change (Js.repeat_str "-*A" (S n) +:+ tail)
    with (String "-" (String "*" (String "A" (Js.repeat_str "-*A" n +:+ tail)))).
  simpl. rewrite IH. reflexivity.
Qed.

Lemma remove_dash_count (n : nat) (tail : string) :
  Js.remove_dash (Js.repeat_str "A" n +:+ tail)
  = Js.repeat_str "A" n +:+ Js.remove_dash tail.
Proof.
  induction n as [|n IH]; [reflexivity|].
  change (Js.repeat_str "A" (S n) +:+ tail)
    with (String "A" (Js.repeat_str "A" n +:+ tail)).
  simpl. rewrite IH. reflexivity.
Qed.

(** The pattern of an action reads as one group. *)
Lemma steps_pattern (a : Action) (its : list item) :
  steps (between its) (_getNargsPattern a)
  = Some (between (Group (action_pieces a) :: its)).
Proof.
  unfold _getNargsPattern, action_pieces.
  destruct (isOptional a), (nargs a) as [|n| | | | |]; try reflexivity.
  - change ("(-*" +:+ Js.repeat_str "-*A" n +:+ "-*)")
      with (String "(" (String "-" (String "*" (Js.repeat_str "-*A" n +:+ "-*)")))).
    cbn [Js.remove_dash_star]. rewrite remove_dash_star_count.
    change (Js.remove_dash_star "-*)") with ")".
    change (Js.remove_dash (String "(" (Js.repeat_str "A" n +:+ ")")))
      with (String "(" (Js.remove_dash (Js.repeat_str "A" n +:+ ")"))).
    rewrite remove_dash_count. change (Js.remove_dash ")") with ")".
    change (steps (between its) (String "(" (Js.repeat_str "A" n +:+ ")")))
      with (steps (inside its [] None) (Js.repeat_str "A" n +:+ ")")).
    rewrite steps_count_optional. reflexivity.
  - change (steps (between its) ("(-*" +:+ Js.repeat_str "-*A" n +:+ "-*)"))
      with (steps (inside its [(dash, Star)] None) (Js.repeat_str "-*A" n +:+ "-*)")).
    rewrite steps_count_positional. reflexivity.
Qed.

Lemma parse_from_patterns (actions : list Action) (its : list item) :
  parse_from (between its) (concat_patterns actions)
  = Some (rev its ++ grammar_of actions).
Proof.
  revert its. induction actions as [|a r IH]; intros its; simpl.
  - rewrite app_nil_r. reflexivity.
  - rewrite (parse_from_app _ _ _ _ (steps_pattern a its)), IH. simpl.
    rewrite <- app_assoc. reflexivity.
Qed.

(** [new RegExp] accepts the concatenated pattern of every run of
    actions and yields the grammar of the run. *)
Lemma parse_patterns (actions : list Action) :
  parse (concat_patterns actions) = Some (grammar_of actions).
Proof. apply (parse_from_patterns actions []). Qed.

Lemma parse_pattern (a : Action) :
  parse (_getNargsPattern a) = Some [Group (action_pieces a)].
Proof.
  pose proof (parse_patterns [a]) as H. simpl in H.
  unfold concat_patterns in H.
  replace (_getNargsPattern a +:+ EmptyString) with (_getNargsPattern a) in H; [exact H|].
  generalize (_getNargsPattern a). intros s.
  induction s as [|c s IH]; [reflexivity|].
  change (String c s +:+ EmptyString) with (String c (s +:+ EmptyString)).
  f_equal. exact IH.
Qed.

End GrammarFacts.

Section MatcherResults.
Context {R : Type}.

Import Regex.

(** A successful match hands the result of its continuation on. *)
Lemma match_star_result (a : atom) (s : string) (k : string -> option R) (r : R) :
  match_star a s k = Some r -> exists s', k s' = Some r.
Proof.
  induction s as [|c s IH]; simpl.
  - eauto.
  - destruct (atom_matches a c); [|eauto].
    destruct (match_star a s k) as [r'|] eqn:E; [|eauto].
    intros [= <-]. apply IH. reflexivity.
Qed.

Lemma match_piece_result (p : piece) (s : string) (k : string -> option R) (r : R) :
  match_piece p s k = Some r -> exists s', k s' = Some r.
Proof.
  destruct p as [a [| |]]; simpl.
  - destruct s as [|c s]; [discriminate|].
    destruct (atom_matches a c); [eauto|discriminate].
  - apply match_star_result.
  - destruct s as [|c s]; [eauto|].
    destruct (atom_matches a c); [|eauto].
    destruct (k s) eqn:E; [|eauto]. intros [= <-]. eauto.
Qed.

Lemma match_pieces_result (ps : list piece) (s : string) (k : string -> option R)
    (r : R) :
  match_pieces ps s k = Some r -> exists s', k s' = Some r.
Proof.
  revert s k. induction ps as [|p ps IH]; intros s k; simpl.
  - eauto.
  - intros H. apply match_piece_result in H as [s' H]. apply IH in H. exact H.
Qed.

End MatcherResults.

(** A match has one capture per group. *)
Lemma match_items_captures (its : Regex.regex) (s : string) (caps r : list string) :
  (forall it, In it its -> exists ps, it = Regex.Group ps) ->
  Regex.match_items its s caps = Some r -> length r = length caps + length its.
Proof.
  revert s caps. induction its as [|it its IH]; intros s caps Hall; simpl.
  - intros [= <-]. lia.
  - destruct (Hall it (or_introl eq_refl)) as [ps ->].
    intros H. apply match_pieces_result in H as [s' H].
    apply IH in H; [|intros; apply Hall; right; assumption].
    rewrite H, length_app. simpl. lia.
Qed.

Lemma exec_captures (actions : list Action) (w : string) (groups : list string) :
  Regex.exec (Grammar.grammar_of actions) w = Some groups ->
  length groups = length actions.
Proof.
  induction w as [|c w IH]; simpl.
  - destruct (Regex.match_items _ _ _) eqn:E; [|discriminate]. intros [= <-].
    apply match_items_captures in E.
    + rewrite E. unfold Grammar.grammar_of. rewrite length_map. reflexivity.
    + intros it Hin. apply in_map_iff in Hin as (a & <- & _). eauto.
  - destruct (Regex.match_items _ _ _) eqn:E; [|exact IH]. intros [= <-].
    apply match_items_captures in E.
    + rewrite E. unfold Grammar.grammar_of. rewrite length_map. reflexivity.
    + intros it Hin. apply in_map_iff in Hin as (a & <- & _). eauto.
Qed.

(** The loop of [_matchArgumentsPartial] from [i] downwards. *)
Lemma matchPartial_from_spec (actions : list Action) (w : string) (i : nat) :
  i <= length actions ->
  exists counts,
    matchPartial_from actions w i = Ok counts
    /\ length counts <= i
    /\ (forall j, length counts < j <= i ->
        Regex.exec (Grammar.grammar_of (take j actions)) w = None)
    /\ (0 < length counts ->
        exists groups,
          Regex.exec (Grammar.grammar_of (take (length counts) actions)) w = Some groups
          /\ counts = map String.length groups).
Proof.
  induction i as [|i IH]; intros Hi.
  - exists []. simpl. repeat split; [lia| |lia]. intros j Hj. lia.
  - cbn [matchPartial_from]. rewrite GrammarFacts.parse_patterns.
    destruct (Regex.exec (Grammar.grammar_of (take (S i) actions)) w) as [groups|] eqn:E.
    + pose proof (exec_captures _ _ _ E) as Hlen.
      rewrite length_take, Nat.min_l in Hlen by exact Hi.
      exists (map String.length groups). rewrite length_map, Hlen.
      repeat split; [lia| |].
      * intros j Hj. lia.
      * intros _. exists groups. split; [exact E|reflexivity].
    + destruct IH as (counts & Ec & Hle & Hnone & Hsome); [lia|].
      exists counts. repeat split; [exact Ec|lia| |exact Hsome].
      intros j Hj. destruct (decide (j = S i)) as [->|Hne]; [exact E|].
      apply Hnone. lia.
Qed.

(** ** Errors that can and cannot arise *)

Lemma ok_or_bind (P : Error -> bool) {A B} (Q : A -> Prop) (Q' : B -> Prop)
    (m : Result A) (f : A -> Result B) :
  ok_or P Q m -> (forall a, Q a -> ok_or P Q' (f a)) -> ok_or P Q' (m ≫= f).
Proof. destruct m as [a|e]; simpl; auto. Qed.

Lemma ok_or_and (P : Error -> bool) {A} (Q Q' : A -> Prop) (r : Result A) :
  ok_or P Q r -> (forall a, r = Ok a -> Q' a) -> ok_or P (fun a => Q a /\ Q' a) r.
Proof. destruct r; simpl; auto. Qed.

Lemma ok_or_post (P : Error -> bool) {A} (Q Q' : A -> Prop) (r : Result A) :
  ok_or P Q r -> (forall a, Q a -> Q' a) -> ok_or P Q' r.
Proof. destruct r; simpl; auto. Qed.

Create HintDb expected_db.

Ltac expected_step :=
  match goal with
  | |- any _ => exact I
  | |- ok_or _ _ (Ok _) => simpl; try exact I; try reflexivity
  | |- ok_or _ _ (Err _) => reflexivity
  | |- ok_or _ _ (_ ≫= _) => eapply ok_or_bind; [solve [eauto with expected_db]|intros ? ?]
  | |- ok_or _ _ (if ?c then _ else _) => destruct c
  | |- ok_or _ _ (match ?x with _ => _ end) => destruct x
  | |- ok_or _ _ _ => solve [eauto with expected_db]
  end.

Lemma getValue_expected (action : Action) (s : string) :
  ok_or expected any (_getValue action s).
Proof. unfold _getValue. repeat expected_step. Qed.
#[local] Hint Resolve getValue_expected : expected_db.

Lemma checkValue_expected (action : Action) (v : Value) :
  ok_or expected any (_checkValue action v).
Proof. unfold _checkValue. repeat expected_step. Qed.
#[local] Hint Resolve checkValue_expected : expected_db.

Lemma map_getValue_expected (action : Action) (l : list string) :
  ok_or expected any (map_getValue action l).
Proof. induction l; simpl; repeat expected_step. Qed.
#[local] Hint Resolve map_getValue_expected : expected_db.

Lemma forEach_checkValue_expected (action : Action) (l : list Value) :
  ok_or expected any (forEach_checkValue action l).
Proof. induction l; simpl; repeat expected_step. Qed.
#[local] Hint Resolve forEach_checkValue_expected : expected_db.

Lemma getValues_expected (action : Action) (l : list string) :
  ok_or expected any (_getValues action l).
Proof. unfold _getValues. repeat expected_step. Qed.
#[local] Hint Resolve getValues_expected : expected_db.

(** The pattern of an action is a regular expression with one group, so
    [_matchArgument] either finds its first capture or raises the arity
    error. *)
Lemma matchArgument_expected (action : Action) (w : string) :
  ok_or expected any (_matchArgument action w).
Proof.
  unfold _matchArgument. rewrite GrammarFacts.parse_pattern.
  destruct (Regex.exec _ w) as [caps|] eqn:E.
  - apply (exec_captures [action]) in E. destruct caps; [discriminate E|exact I].
  - destruct (nargs action); reflexivity.
Qed.
#[local] Hint Resolve matchArgument_expected : expected_db.

(** The prefix search is only entered with a token that starts with a
    prefix character. *)
Lemma getOptionTuples_ok (p : Parser) (s : string) :
  is_prefix_char (prefixChars p) s 0 = true ->
  exists tuples, _getOptionTuples p s = Ok tuples.
Proof.
  intros H. unfold _getOptionTuples. rewrite H.
  destruct (is_prefix_char (prefixChars p) s 1); simpl; eauto.
  destruct (0 <=? Js.indexOf s "=")%Z; eauto.
Qed.

Lemma parseOptional_expected (p : Parser) (s : string) :
  ok_or expected any (_parseOptional p s).
Proof.
  unfold _parseOptional.
  destruct (String.eqb s EmptyString); [exact I|].
  destruct (is_prefix_char (prefixChars p) s 0) eqn:H0; [|exact I]. cbn [negb].
  destruct (lookup_option _ s); [exact I|].
  destruct (Nat.eqb _ 1); [exact I|].
  match goal with
  | |- ok_or _ _ (match ?x with _ => _ end) => destruct x; [exact I|]
  end.
  destruct (getOptionTuples_ok p s H0) as [tuples ->]. simpl_result.
  destruct tuples as [|t [|t' r]]; repeat expected_step.
Qed.
#[local] Hint Resolve parseOptional_expected : expected_db.

Lemma classify_from_expected (p : Parser) (n : nat) (rest : list string) (i : nat)
    (parts : string) (indices : gmap nat OptionTuple) :
  ok_or expected any (classify_from p n rest i parts indices).
Proof.
  revert i parts indices. induction rest as [|t rest IH]; intros; simpl.
  - exact I.
  - repeat expected_step; apply IH.
Qed.

Lemma classify_expected (p : Parser) (argStrings : list string) :
  ok_or expected any (classify p argStrings).
Proof. apply classify_from_expected. Qed.
#[local] Hint Resolve classify_expected : expected_db.

Lemma check_required_expected (seen actions : list Action) :
  ok_or expected any (check_required seen actions).
Proof. induction actions; simpl; repeat expected_step. Qed.

(** ** Positions of the options *)

Lemma option_positions_spec (indices : gmap nat OptionTuple) (k : nat) :
  k ∈ option_positions indices <-> is_Some (indices !! k).
Proof.
  unfold option_positions. rewrite list_elem_of_fmap. split.
  - intros ([k' t] & -> & H). apply elem_of_map_to_list in H. simpl. eauto.
  - intros [t H]. exists (k, t). split; [reflexivity|].
    apply elem_of_map_to_list. exact H.
Qed.

Lemma foldl_max_spec (l : list nat) (acc : Z) :
  let m := foldl (fun acc position => Z.max acc (Z.of_nat position)) acc l in
  (acc <= m)%Z
  /\ (forall x, x ∈ l -> (Z.of_nat x <= m)%Z)
  /\ (m = acc \/ exists x, x ∈ l /\ m = Z.of_nat x).
Proof.
  revert acc. induction l as [|y l IH]; intros acc; simpl.
  - split; [lia|]. split; [|left; reflexivity]. intros x Hx. inversion Hx.
  - destruct (IH (Z.max acc (Z.of_nat y))) as (H1 & H2 & H3).
    split; [lia|]. split.
    + intros x Hx. apply elem_of_cons in Hx as [->|Hx]; [lia|apply H2, Hx].
    + destruct H3 as [H3|(x & Hx & H3)].
      * destruct (Z.max_spec acc (Z.of_nat y)) as [[_ E]|[_ E]].
        -- right. exists y. split; [left|rewrite H3; exact E].
        -- left. rewrite H3. exact E.
      * right. exists x. split; [right; exact Hx|exact H3].
Qed.

(** While the loop runs there is an option at or after the index. *)
Lemma max_index_reached (indices : gmap nat OptionTuple) (s : nat) :
  (Z.of_nat s <=? maxOptionStringIndex indices)%Z = true ->
  exists k, s <= k /\ is_Some (indices !! k).
Proof.
  intros H. apply Z.leb_le in H. unfold maxOptionStringIndex in H.
  destruct (foldl_max_spec (option_positions indices) (-1)%Z) as (_ & _ & [E|(x & Hx & E)]).
  - rewrite E in H. lia.
  - rewrite E in H. exists x. split; [lia|]. apply option_positions_spec, Hx.
Qed.

Lemma foldl_next_spec (s : nat) (l : list nat) (acc : option nat) :
  let step := fun (acc : option nat) position =>
                if (s <=? position)%nat then
                  match acc with
                  | Some next => Some (Nat.min next position)
                  | None => Some position
                  end
                else acc in
  match foldl step acc l with
  | Some n =>
      (acc = Some n \/ (n ∈ l /\ s <= n))
      /\ (forall x, x ∈ l -> s <= x -> n <= x)
      /\ (forall a, acc = Some a -> n <= a)
  | None => acc = None /\ forall x, x ∈ l -> x < s
  end.
Proof.
  revert acc. induction l as [|y l IH]; intros acc; simpl.
  - destruct acc as [a|].
    + split; [left; reflexivity|]. split; [intros x Hx; inversion Hx|].
      intros a' [= ->]. lia.
    + split; [reflexivity|]. intros x Hx. inversion Hx.
  - set (acc' := if (s <=? y)%nat then
                   match acc with
                   | Some next => Some (Nat.min next y)
                   | None => Some y
                   end
                 else acc).
    specialize (IH acc'). simpl in IH.
    destruct (foldl _ acc' l) as [n|].
    + destruct IH as (H1 & H2 & H3). subst acc'.
      destruct (Nat.leb_spec s y) as [Hsy|Hsy].
      * split; [|split].
        -- destruct H1 as [H1|[H1 H1']]; [|right; split; [right; exact H1|exact H1']].
           destruct acc as [a|]; injection H1 as H1.
           ++ destruct (Nat.min_spec a y) as [[_ E]|[_ E]]; rewrite E in H1.
              ** left. congruence.
              ** right. subst. split; [left|exact Hsy].
           ++ right. subst. split; [left|exact Hsy].
        -- intros x Hx Hsx. apply elem_of_cons in Hx as [->|Hx]; [|apply H2; assumption].
           destruct acc as [a|]; [specialize (H3 _ eq_refl)|specialize (H3 _ eq_refl)]; lia.
        -- intros a ->. specialize (H3 _ eq_refl). lia.
      * split; [|split].
        -- destruct H1 as [H1|[H1 H1']]; [left; exact H1|].
           right. split; [right; exact H1|exact H1'].
        -- intros x Hx Hsx. apply elem_of_cons in Hx as [->|Hx]; [lia|].
           apply H2; assumption.
        -- exact H3.
    + destruct IH as [E H]. subst acc'.
      destruct (Nat.leb_spec s y) as [Hsy|Hsy].
      * destruct acc; discriminate E.
      * split; [exact E|]. intros x Hx.
        apply elem_of_cons in Hx as [->|Hx]; [exact Hsy|apply H, Hx].
Qed.

(** [nextOptionStringIndex] is the least position of an option at or
    after the index. *)
Lemma next_index_spec (indices : gmap nat OptionTuple) (s k : nat) :
  s <= k -> is_Some (indices !! k) ->
  exists n, nextOptionStringIndex indices s = Some n
            /\ s <= n /\ is_Some (indices !! n)
            /\ forall j, s <= j < n -> indices !! j = None.
Proof.
  intros Hsk Hk. unfold nextOptionStringIndex.
  pose proof (foldl_next_spec s (option_positions indices) None) as H. simpl in H.
  destruct (foldl _ None (option_positions indices)) as [n|].
  - destruct H as ([H|[Hn Hsn]] & Hmin & _); [discriminate|].
    exists n. split; [reflexivity|]. split; [exact Hsn|].
    split; [apply option_positions_spec, Hn|].
    intros j [Hj1 Hj2]. destruct (indices !! j) eqn:E; [|reflexivity].
    assert (n <= j); [|lia].
    apply Hmin; [|exact Hj1]. apply option_positions_spec. eauto.
  - destruct H as [_ H]. apply option_positions_spec in Hk. apply H in Hk. lia.
Qed.

Lemma next_index_bound (indices : gmap nat OptionTuple) (s n : nat) :
  nextOptionStringIndex indices s = Some n -> s <= n.
Proof.
  unfold nextOptionStringIndex. intros H.
  pose proof (foldl_next_spec s (option_positions indices) None) as F. simpl in F.
  rewrite H in F. destruct F as ([F|[_ F]] & _); [discriminate|exact F].
Qed.

Lemma next_index_is_option (indices : gmap nat OptionTuple) (s n : nat) :
  nextOptionStringIndex indices s = Some n -> is_Some (indices !! n).
Proof.
  unfold nextOptionStringIndex. intros H.
  pose proof (foldl_next_spec s (option_positions indices) None) as F. simpl in F.
  rewrite H in F. destruct F as ([F|[F _]] & _); [discriminate|].
  apply option_positions_spec, F.
Qed.

(** ** What the classifier records *)

(** Every entry the classifier adds to the option-tuple map sits at the
    index of a token and is the tuple [_parseOptional] returns for that
    token. *)
Lemma classify_from_entries (p : Parser) (n : nat) (rest : list string) (i : nat)
    (parts : string) (indices : gmap nat OptionTuple)
    (pattern : string) (indices' : gmap nat OptionTuple) :
  classify_from p n rest i parts indices = Ok (pattern, indices') ->
  forall k t, indices' !! k = Some t ->
    indices !! k = Some t
    \/ (i <= k /\ exists tok, rest !! (k - i) = Some tok
                              /\ _parseOptional p tok = Ok (Some t)).
Proof.
  revert i parts indices. induction rest as [|tok rest IH]; intros i parts indices; simpl.
  - intros [= _ <-] k t H. left. exact H.
  - destruct (String.eqb tok "--").
    + intros H k t Hk. destruct (IH _ _ _ H k t Hk) as [Hl|(Hi & tok' & Hr & Hp)].
      * left. exact Hl.
      * right. split; [lia|]. exists tok'. split; [|exact Hp].
        replace (k - i) with (S (k - S i)) by lia. exact Hr.
    + destruct (_parseOptional p tok) as [[t0|]|] eqn:Ep; simpl_result; [| |discriminate].
      * intros H k t Hk. destruct (IH _ _ _ H k t Hk) as [Hl|(Hi & tok' & Hr & Hp)].
        -- destruct (decide (i = k)) as [->|Hne].
           ++ rewrite lookup_insert_eq in Hl. injection Hl as ->.
              right. split; [lia|]. exists tok. rewrite Nat.sub_diag. split; [reflexivity|].
              exact Ep.
           ++ rewrite lookup_insert_ne in Hl by exact Hne. left. exact Hl.
        -- right. split; [lia|]. exists tok'. split; [|exact Hp].
           replace (k - i) with (S (k - S i)) by lia. exact Hr.
      * intros H k t Hk. destruct (IH _ _ _ H k t Hk) as [Hl|(Hi & tok' & Hr & Hp)].
        -- left. exact Hl.
        -- right. split; [lia|]. exists tok'. split; [|exact Hp].
           replace (k - i) with (S (k - S i)) by lia. exact Hr.
Qed.

Lemma classify_entries (p : Parser) (argStrings : list string)
    (pattern : string) (indices : gmap nat OptionTuple) :
  classify p argStrings = Ok (pattern, indices) ->
  forall k t, indices !! k = Some t ->
    exists tok, argStrings !! k = Some tok /\ _parseOptional p tok = Ok (Some t).
Proof.
  intros H k t Hk.
  destruct (classify_from_entries _ _ _ _ _ _ _ _ H k t Hk) as [Hl|(_ & tok & Hr & Hp)].
  - rewrite lookup_empty in Hl. discriminate.
  - rewrite Nat.sub_0_r in Hr. eauto.
Qed.

Lemma classify_positions_bounded (p : Parser) (argStrings : list string)
    (pattern : string) (indices : gmap nat OptionTuple) :
  classify p argStrings = Ok (pattern, indices) ->
  forall k, is_Some (indices !! k) -> k < length argStrings.
Proof.
  intros H k [t Hk]. destruct (classify_entries _ _ _ _ H k t Hk) as (tok & Ht & _).
  apply lookup_lt_Some in Ht. exact Ht.
Qed.

(** ** The states of a parse *)

Lemma initial_state_no_conflicts (p : Parser) (ns : Namespace) :
  no_conflicts (initial_state p ns).
Proof. reflexivity. Qed.

(** With an empty action-conflict map, [takeAction] raises only the
    errors of the value conversion and of the action's [call], and
    leaves the map empty. *)
Lemma takeAction_expected (st : State) (action : Action) (args : list string)
    (o : MaybeStr) :
  no_conflicts st -> ok_or expected no_conflicts (takeAction st action args o).
Proof.
  intros Hst. unfold takeAction. red in Hst. rewrite Hst, lookup_empty.
  eapply ok_or_bind; [apply getValues_expected|]. intros v _.
  destruct (negb (strict_eq v (default action))); simpl_result;
    destruct (negb (strict_eq v (VStr SUPPRESS))); simpl_result;
    try destruct (call action (namespace st) v o); simpl_result; simpl;
    first [exact Hst | reflexivity].
Qed.

Lemma take_all_expected (tuples : list (Action * list string * string)) (st : State) :
  no_conflicts st -> ok_or expected no_conflicts (take_all st tuples).
Proof.
  revert st. induction tuples as [|[[a args] o] r IH]; intros st Hst; simpl.
  - exact Hst.
  - eapply ok_or_bind; [apply takeAction_expected, Hst|]. exact IH.
Qed.

Lemma consumeOptional_loop_expected (p : Parser) (pattern : string)
    (argStrings : list string) (startIndex : nat) (explicitArg : string)
    (action : option Action) (optionString : string)
    (tuples : list (Action * list string * string)) :
  ok_or expected any
    (consumeOptional_loop p pattern argStrings startIndex explicitArg action
       optionString tuples).
Proof.
  revert action optionString tuples.
  induction explicitArg as [|c e IH]; intros [a|] o tuples; simpl;
    repeat expected_step.
Qed.

(** The loop of [consumeOptional] ends behind the option, with at least
    one action tuple. *)
Lemma consumeOptional_loop_stop (p : Parser) (pattern : string)
    (argStrings : list string) (s : nat) (explicitArg : string)
    (action : option Action) (o : string)
    (tuples tuples' : list (Action * list string * string)) (stop : nat) :
  consumeOptional_loop p pattern argStrings s explicitArg action o tuples
  = Ok (Matched tuples' stop) ->
  s < stop /\ tuples' <> [].
Proof.
  revert action o tuples.
  induction explicitArg as [|c e IH]; intros [a|] o tuples; simpl; try discriminate.
  - destruct (_matchArgument a _) as [argCount|]; simpl_result; [|discriminate].
    intros [= <- <-]. split; [lia|]. destruct tuples; discriminate.
  - destruct (_matchArgument a "A") as [argCount|]; simpl_result; [|discriminate].
    destruct (_ && _).
    + destruct (lookup_option _ _); [apply IH|discriminate].
    + destruct (Nat.eqb argCount 1); [|discriminate].
      intros [= <- <-]. split; [lia|]. destruct tuples; discriminate.
Qed.

(** [consumeOptional], called at the index of an option, raises only
    expected errors and returns an index behind the option. *)
Lemma consumeOptional_expected (p : Parser) (pattern : string)
    (indices : gmap nat OptionTuple) (argStrings : list string) (st : State)
    (s : nat) :
  is_Some (indices !! s) -> no_conflicts st ->
  ok_or expected (fun r => no_conflicts_at r /\ s < r.1)
    (consumeOptional p pattern indices argStrings st s).
Proof.
  intros Hs Hst. unfold consumeOptional.
  destruct (indices !! s) as [[[a o] e]|]; [|destruct Hs; discriminate].
  pose proof (consumeOptional_loop_expected p pattern argStrings s
                (match e with MStr x => x | _ => EmptyString end) a o []) as Hl.
  destruct (consumeOptional_loop _ _ _ _ _ _ _ _) as [[|tuples stop]|err] eqn:E;
    simpl_result; [| |exact Hl].
  - split; [exact Hst|simpl; lia].
  - apply consumeOptional_loop_stop in E as [Hstop Hne].
    destruct tuples as [|t tuples]; [contradiction|]. cbn [length Nat.ltb Nat.leb].
    eapply ok_or_bind; [apply (take_all_expected (t :: tuples)), Hst|].
    intros st' Hst'. split; [exact Hst'|exact Hstop].
Qed.

Lemma consumeOptional_progress (p : Parser) (pattern : string)
    (indices : gmap nat OptionTuple) (argStrings : list string) (st st' : State)
    (s s' : nat) :
  consumeOptional p pattern indices argStrings st s = Ok (s', st') -> s < s'.
Proof.
  unfold consumeOptional.
  destruct (indices !! s) as [[[a o] e]|]; [|discriminate].
  destruct (consumeOptional_loop _ _ _ _ _ _ _ _) as [[|tuples stop]|] eqn:E;
    simpl_result; [| |discriminate].
  - intros [= <- _]. lia.
  - apply consumeOptional_loop_stop in E as [Hs _].
    destruct (length tuples <? 1)%nat; [discriminate|].
    destruct (take_all st tuples); simpl_result; [|discriminate].
    intros [= <- _]. exact Hs.
Qed.

(** When the counts are no more than the positionals, every pair of the
    zip holds an action. *)
Lemma zip_longest_actions {A B} (xs : list A) (ys : list B) :
  length ys <= length xs ->
  Forall (fun it : option A * option B => is_Some it.1) (zip_longest xs ys).
Proof.
  revert ys. induction xs as [|x xs IH]; intros [|y ys] H; simpl in *;
    try lia; constructor; simpl; eauto.
  - apply (IH []). simpl. lia.
  - apply IH. lia.
Qed.

Lemma take_positionals_expected (argStrings : list string)
    (items : list (option Action * option nat)) (st : State) (startIndex : Index) :
  Forall (fun it : option Action * option nat => is_Some it.1) items ->
  no_conflicts st ->
  ok_or expected no_conflicts_at (take_positionals argStrings st startIndex items).
Proof.
  intros Hitems. revert st startIndex.
  induction Hitems as [|[a c] r [a' Ha] _ IH]; intros st i Hst; simpl.
  - exact Hst.
  - simpl in Ha. subst a.
    eapply ok_or_bind; [apply takeAction_expected, Hst|]. intros st' Hst'.
    apply IH, Hst'.
Qed.

Lemma takeAction_positionals (st st' : State) (a : Action) (args : list string)
    (o : MaybeStr) :
  takeAction st a args o = Ok st' -> positionals st' = positionals st.
Proof.
  unfold takeAction.
  destruct (_getValues a args) as [v|]; simpl_result; [|discriminate].
  match goal with
  | |- context [mbind _ ?m] => destruct m; simpl_result; [|discriminate]
  end.
  match goal with
  | |- context [mbind _ ?m] => destruct m; simpl_result; [|discriminate]
  end.
  intros [= <-]. reflexivity.
Qed.

Lemma take_positionals_positionals (argStrings : list string)
    (items : list (option Action * option nat)) (st st' : State) (i i' : Index) :
  take_positionals argStrings st i items = Ok (i', st') ->
  positionals st' = positionals st.
Proof.
  revert st i. induction items as [|[[a|] c] r IH]; intros st i; simpl.
  - intros [= _ <-]. reflexivity.
  - destruct (takeAction st a _ _) as [st1|] eqn:E; simpl_result; [|discriminate].
    intros H. apply IH in H. rewrite H. eapply takeAction_positionals, E.
  - discriminate.
Qed.

Lemma take_positionals_index (argStrings : list string)
    (items : list (option Action * option nat)) (st st' : State) (i : Index) (e : nat) :
  take_positionals argStrings st i items = Ok (Num e, st') ->
  exists s, i = Num s /\ s <= e.
Proof.
  revert st i. induction items as [|[[a|] c] r IH]; intros st i; simpl.
  - intros [= -> _]. eauto.
  - destruct (takeAction st a _ _) as [st1|]; simpl_result; [|discriminate].
    intros H. apply IH in H as (s & Hs & Hle).
    destruct i as [s0|], c as [c|]; simpl in Hs; try discriminate.
    injection Hs as <-. exists s0. split; [reflexivity|lia].
  - discriminate.
Qed.

Lemma consumePositionals_index (pattern : string) (argStrings : list string)
    (st st' : State) (s e : nat) :
  consumePositionals pattern argStrings st s = Ok (Num e, st') -> s <= e.
Proof.
  unfold consumePositionals.
  destruct (_matchArgumentsPartial _ _) as [counts|]; simpl_result; [|discriminate].
  destruct (0 <? length counts)%nat.
  - destruct (take_positionals _ _ _ _) as [[i st1]|] eqn:E; simpl_result; [|discriminate].
    intros [= -> _]. apply take_positionals_index in E as (s0 & [= <-] & H). exact H.
  - simpl_result. intros [= <- _]. lia.
Qed.

Lemma matchArgumentsPartial_expected (actions : list Action) (w : string) :
  ok_or expected (fun counts => length counts <= length actions)
    (_matchArgumentsPartial actions w).
Proof.
  destruct (matchPartial_from_spec actions w (length actions) (le_n _))
    as (counts & Ec & Hle & _).
  unfold _matchArgumentsPartial. rewrite Ec. exact Hle.
Qed.

Lemma consumePositionals_expected (pattern : string) (argStrings : list string)
    (st : State) (startIndex : nat) :
  no_conflicts st ->
  ok_or expected no_conflicts_at (consumePositionals pattern argStrings st startIndex).
Proof.
  intros Hst. unfold consumePositionals.
  eapply ok_or_bind; [apply matchArgumentsPartial_expected|]. intros counts Hc.
  eapply ok_or_bind with (Q := no_conflicts_at).
  - destruct (0 <? length counts)%nat; [|exact Hst].
    apply take_positionals_expected; [apply zip_longest_actions, Hc|exact Hst].
  - intros [i st'] Hst'. exact Hst'.
Qed.

(** One iteration of the main loop, after the positionals: it raises
    only expected errors and ends behind the index it started at. *)
Lemma consume_next_optional_expected (p : Parser) (pattern : string)
    (indices : gmap nat OptionTuple) (argStrings : list string) (st : State)
    (i : Index) (n s : nat) :
  no_conflicts st ->
  s <= n -> is_Some (indices !! n) ->
  i = NaN \/ i = Num s ->
  ok_or expected (fun r => no_conflicts_at r /\ s < r.1)
    (consume_next_optional p pattern indices argStrings st i (Some n)).
Proof.
  intros Hst Hsn Hn Hi. unfold consume_next_optional.
  destruct (negb _) eqn:E.
  - eapply ok_or_post; [apply consumeOptional_expected; [exact Hn|exact Hst]|].
    intros [s' st'] [H1 H2]. simpl in *. split; [exact H1|lia].
  - destruct Hi as [-> | ->]; [discriminate E|].
    apply negb_false_iff, bool_decide_eq_true_1 in E.
    apply consumeOptional_expected; [exact E|exact Hst].
Qed.

(** The main loop raises only expected errors: in particular it never
    exhausts a bound that exceeds the number of tokens not yet passed. *)
Lemma main_loop_total (fuel : nat) (p : Parser) (pattern : string)
    (indices : gmap nat OptionTuple) (argStrings : list string) (st : State) (s : nat) :
  no_conflicts st ->
  (forall k, is_Some (indices !! k) -> k < length argStrings) ->
  length argStrings < fuel + s ->
  ok_or expected no_conflicts_at (main_loop fuel p pattern indices argStrings st s).
Proof.
  intros Hst Hkeys. revert st s Hst.
  induction fuel as [|fuel IH]; intros st s Hst Hfuel.
  - simpl. destruct (_ <=? _)%Z eqn:E; [|exact Hst].
    apply max_index_reached in E as (k & Hk & Hsome). apply Hkeys in Hsome. lia.
  - cbn [main_loop]. destruct (_ <=? _)%Z eqn:E; [|exact Hst].
    destruct (max_index_reached _ _ E) as (k & Hk & Hsome).
    destruct (next_index_spec _ _ _ Hk Hsome) as (n & -> & Hsn & Hn & _).
    assert (Hnext : forall st' i,
      no_conflicts st' -> i = NaN \/ i = Num s ->
      ok_or expected no_conflicts_at
        ('(startIndex', st'') ←
           consume_next_optional p pattern indices argStrings st' i (Some n);
         main_loop fuel p pattern indices argStrings st'' startIndex')).
    { intros st' i Hst' Hi. eapply ok_or_bind.
      - apply (consume_next_optional_expected _ _ _ _ _ _ n s); assumption.
      - intros [j st''] [H1 H2]. simpl in H2. apply IH; [exact H1|lia]. }
    destruct (negb _); [|apply Hnext; [exact Hst|right; reflexivity]].
    eapply ok_or_bind.
    + apply ok_or_and; [apply consumePositionals_expected, Hst|].
      intros a Ha. exact Ha.
    + intros [[e|] st'] [Hst' He]; simpl in He.
      * apply consumePositionals_index in He as Hle.
        destruct (Nat.ltb_spec s e) as [Hlt|Hge].
        -- apply IH; [exact Hst'|lia].
        -- apply Hnext; [exact Hst'|]. right. f_equal. lia.
      * apply Hnext; [exact Hst'|left; reflexivity].
Qed.

Lemma parse_loop_total (p : Parser) (argStrings : list string) (ns : Namespace) :
  ok_or expected no_conflicts (parse_loop p argStrings ns).
Proof.
  unfold parse_loop.
  destruct (classify p argStrings) as [[pattern indices]|e] eqn:Ec.
  - simpl_result.
    eapply ok_or_bind.
    + apply main_loop_total; [apply initial_state_no_conflicts| |lia].
      eapply classify_positions_bounded, Ec.
    + intros [s st] Hst.
      eapply ok_or_bind; [apply consumePositionals_expected, Hst|].
      intros [stop st'] Hst'. exact Hst'.
  - pose proof (classify_expected p argStrings) as H. rewrite Ec in H. exact H.
Qed.

Lemma parse_state_total (p : Parser) (argStrings : list string) (ns : Namespace) :
  ok_or expected no_conflicts (parse_state p argStrings ns).
Proof.
  unfold parse_state.
  eapply ok_or_bind; [apply parse_loop_total|]. intros st Hst.
  destruct (0 <? _)%nat; [reflexivity|].
  eapply ok_or_bind; [apply check_required_expected|].
  intros _ _. exact Hst.
Qed.

(** X25. Every error a parse ends with is an argument error other than
    the conflict error, a parser error, an error of an action's [call]
    or the error of [_.str.sprintf]: the other exceptions of the runtime
    that the model makes explicit (an undefined option tuple or action,
    a regular expression that does not compile, the internal length
    check) cannot occur, and the bound on the iterations of the main
    loop is never exhausted. *)
Theorem parse_errors_expected (p : Parser) (argStrings : list string) (ns : Namespace) :
  ok_or expected any (_parseKnownArgs p argStrings ns).
Proof.
  unfold _parseKnownArgs.
  eapply ok_or_bind; [apply parse_state_total|]. intros st _. exact I.
Qed.

(** The bound on the iterations of the main loop is never exhausted. *)
Theorem parse_never_out_of_fuel (p : Parser) (argStrings : list string) (ns : Namespace) :
  _parseKnownArgs p argStrings ns <> Err OutOfFuel.
Proof.
  pose proof (parse_state_total p argStrings ns) as H.
  unfold _parseKnownArgs.
  destruct (parse_state p argStrings ns) as [st|e]; simpl_result; [discriminate|].
  intros [= ->]. discriminate H.
Qed.

(** ** Steps of the consumption loop *)

Lemma main_loop_done (fuel : nat) (p : Parser) (pattern : string)
    (indices : gmap nat OptionTuple) (argStrings : list string) (st : State) (s : nat) :
  (Z.of_nat s <=? maxOptionStringIndex indices)%Z = false ->
  main_loop fuel p pattern indices argStrings st s = Ok (s, st).
Proof. intros H. destruct fuel; simpl; rewrite H; reflexivity. Qed.

Lemma main_loop_at_option (fuel : nat) (p : Parser) (pattern : string)
    (indices : gmap nat OptionTuple) (argStrings : list string) (st : State) (s : nat) :
  (Z.of_nat s <=? maxOptionStringIndex indices)%Z = true ->
  nextOptionStringIndex indices s = Some s ->
  is_Some (indices !! s) ->
  main_loop (S fuel) p pattern indices argStrings st s
  = ('(s', st') ← consumeOptional p pattern indices argStrings st s;
     main_loop fuel p pattern indices argStrings st' s').
Proof.
  intros Hmax Hnext Hsome. simpl. rewrite Hmax, Hnext.
  rewrite bool_decide_eq_true_2 by reflexivity. simpl.
  unfold consume_next_optional.
  rewrite bool_decide_eq_true_2 by assumption. reflexivity.
Qed.

Lemma consumeOptional_matched (p : Parser) (pattern : string)
    (indices : gmap nat OptionTuple) (argStrings : list string) (st : State) (s : nat)
    (action : option Action) (o : string) (e : MaybeStr)
    (tuples : list (Action * list string * string)) (stop : nat) :
  indices !! s = Some (action, o, e) ->
  consumeOptional_loop p pattern argStrings s
    (match e with MStr x => x | _ => EmptyString end) action o []
  = Ok (Matched tuples stop) ->
  tuples <> [] ->
  consumeOptional p pattern indices argStrings st s
  = (st' ← take_all st tuples; Ok (stop, st')).
Proof.
  intros Hl Hloop Hne. unfold consumeOptional. rewrite Hl, Hloop. simpl_result.
  destruct tuples; [contradiction|]. reflexivity.
Qed.

Lemma consumePositionals_none (pattern : string) (argStrings : list string)
    (st : State) (s : nat) :
  positionals st = [] ->
  consumePositionals pattern argStrings st s = Ok (Num s, st).
Proof.
  intros H. unfold consumePositionals. rewrite H.
  destruct st; simpl in *; subst. reflexivity.
Qed.

Lemma with_extras_nil (st : State) : with_extras st [] = st.
Proof. destruct st. unfold with_extras. simpl. rewrite app_nil_r. reflexivity. Qed.

Lemma with_extras_app (st : State) (xs ys : list string) :
  with_extras (with_extras st xs) ys = with_extras st (xs ++ ys).
Proof. unfold with_extras. simpl. rewrite app_assoc. reflexivity. Qed.

(** An option-shaped token that matched no action is pushed to the
    extras, and the loop goes on behind it. *)
Lemma consumeOptional_unrecognized (p : Parser) (pattern : string)
    (indices : gmap nat OptionTuple) (argStrings : list string) (st : State)
    (s : nat) (o : string) (e : MaybeStr) (tok : string) :
  indices !! s = Some (None, o, e) ->
  argStrings !! s = Some tok ->
  consumeOptional p pattern indices argStrings st s = Ok (s + 1, with_extras st [tok]).
Proof.
  intros Hi Ht. unfold consumeOptional. rewrite Hi.
  destruct (match e with MStr e0 => e0 | _ => EmptyString end); simpl;
    rewrite Ht; reflexivity.
Qed.

(** When no queued positional consumes anything at an index that holds
    no option, the tokens in front of the next option are moved to the
    extras and the loop goes on with that option. *)
Lemma main_loop_gap (fuel : nat) (p : Parser) (pattern : string)
    (indices : gmap nat OptionTuple) (argStrings : list string) (st st1 : State)
    (s n : nat) :
  (Z.of_nat s <=? maxOptionStringIndex indices)%Z = true ->
  nextOptionStringIndex indices s = Some n ->
  indices !! s = None ->
  consumePositionals pattern argStrings st s = Ok (Num s, st1) ->
  main_loop (S fuel) p pattern indices argStrings st s
  = ('(s', st') ← consumeOptional p pattern indices argStrings
                    (with_extras st1 (Js.slice argStrings s n)) n;
     main_loop fuel p pattern indices argStrings st' s').
Proof.
  intros Hmax Hnext Hs Hpos. cbn [main_loop]. rewrite Hmax, Hnext.
  assert (Hne : Some s <> Some n).
  { intros [= ->]. apply next_index_is_option in Hnext as [t Ht]. congruence. }
  rewrite bool_decide_eq_false_2 by exact Hne. cbn [negb].
  rewrite Hpos. simpl_result. rewrite Nat.ltb_irrefl.
  unfold consume_next_optional. rewrite Hs.
  rewrite bool_decide_eq_false_2 by (intros [? ?]; discriminate). reflexivity.
Qed.

(** The end of a parse without positionals: the loop is over, the last
    run of positionals consumes nothing, the tokens from [s] on are
    extras. *)
Lemma parse_tail_no_positionals (fuel : nat) (p : Parser) (pattern : string)
    (indices : gmap nat OptionTuple) (argStrings : list string) (st : State) (s : nat) :
  (Z.of_nat s <=? maxOptionStringIndex indices)%Z = false ->
  positionals st = [] ->
  ('(startIndex, st) ← main_loop fuel p pattern indices argStrings st s;
   '(stopIndex, st) ← consumePositionals pattern argStrings st startIndex;
   Ok (with_extras st (rest_from argStrings stopIndex)))
  = Ok (with_extras st (drop s argStrings)).
Proof.
  intros Hmax Hpos. rewrite main_loop_done by assumption. simpl_result.
  rewrite consumePositionals_none by assumption. reflexivity.
Qed.

(** * The claims *)

(** ** The token classifier *)

(** Characters of a pattern string that grows by one character. *)
Lemma char_at_snoc (parts : string) (c : ascii) (k : nat) :
  Js.char_at (parts +:+ String c EmptyString) k
  = if (k <? String.length parts)%nat then Js.char_at parts k
    else if (k =? String.length parts)%nat then Some c else None.
Proof.
  unfold Js.char_at. revert k.
  induction parts as [|d parts IH]; intros k.
  - destruct k as [|k]; [reflexivity|]. destruct k; reflexivity.
  - destruct k as [|k]; [reflexivity|].
    change (String.get (S k) (String d parts +:+ String c EmptyString))
      with (String.get k (parts +:+ String c EmptyString)).
    rewrite IH. reflexivity.
Qed.

Lemma length_snoc (parts : string) (c : ascii) :
  String.length (parts +:+ String c EmptyString) = S (String.length parts).
Proof.
  induction parts as [|d parts IH]; [reflexivity|].
  change (String.length (String d parts +:+ String c EmptyString))
    with (S (String.length (parts +:+ String c EmptyString))).
  rewrite IH. reflexivity.
Qed.

Lemma char_at_beyond (parts : string) (k : nat) :
  String.length parts <= k -> Js.char_at parts k = None.
Proof.
  unfold Js.char_at. revert k. induction parts as [|d parts IH]; intros k H.
  - destruct k; reflexivity.
  - destruct k as [|k]; simpl in H; [lia|]. simpl. apply IH. lia.
Qed.

Lemma classify_from_aligned (p : Parser) (n : nat) (rest : list string) (i : nat)
    (parts : string) (indices : gmap nat OptionTuple)
    (pattern : string) (indices' : gmap nat OptionTuple) :
  Forall (fun t => t <> "--") rest ->
  aligned i parts indices ->
  classify_from p n rest i parts indices = Ok (pattern, indices') ->
  aligned (i + length rest) pattern indices'.
Proof.
  intros Hrest. revert i parts indices.
  induction Hrest as [|tok rest Htok _ IH]; intros i parts indices [Hlen Hmap]; simpl.
  - intros [= <- <-]. rewrite Nat.add_0_r. split; assumption.
  - destruct (String.eqb_spec tok "--") as [->|_]; [contradiction|].
    destruct (_parseOptional p tok) as [[t|]|]; simpl_result; [| |discriminate].
    + intros H. replace (i + S (length rest)) with (S i + length rest) by lia.
      apply (IH _ _ _) in H; [exact H|]. split; [rewrite length_snoc; lia|].
      intros k. rewrite char_at_snoc, Hlen.
      destruct (Nat.ltb_spec k i) as [Hk|Hk].
      * rewrite lookup_insert_ne by lia. apply Hmap.
      * destruct (Nat.eqb_spec k i) as [->|Hne].
        -- rewrite lookup_insert_eq. split; eauto.
        -- rewrite lookup_insert_ne by lia. rewrite Hmap, char_at_beyond by lia.
           split; discriminate.
    + intros H. replace (i + S (length rest)) with (S i + length rest) by lia.
      apply (IH _ _ _) in H; [exact H|]. split; [rewrite length_snoc; lia|].
      intros k. rewrite char_at_snoc, Hlen.
      destruct (Nat.ltb_spec k i) as [Hk|Hk]; [apply Hmap|].
      rewrite Hmap, char_at_beyond by lia.
      destruct (Nat.eqb_spec k i); split; discriminate.
Qed.

(** Without a [--] among the tokens the classifier keeps the
    invariants: the pattern has one character per token and the indices
    of the option-tuple map are exactly those classified [O]. *)
Lemma classify_aligned (p : Parser) (argStrings : list string)
    (pattern : string) (indices : gmap nat OptionTuple) :
  Forall (fun t => t <> "--") argStrings ->
  classify p argStrings = Ok (pattern, indices) ->
  String.length pattern = length argStrings
  /\ forall k, is_Some (indices !! k) <-> Js.char_at pattern k = Some "O"%char.
Proof.
  intros Hall H.
  apply (classify_from_aligned _ _ _ 0 _ _ _ _ Hall) in H; [exact H|].
  split; [reflexivity|]. intros k. rewrite lookup_empty. destruct k; split; try discriminate;
    intros [? ?]; discriminate.
Qed.

(** C1.  The classifier does not keep the pattern string aligned with
    the tokens once a [--] occurs: for the two tokens [--] and [-x] (with
    [-x] declared) it emits the four characters [-AAO]; the separator
    is followed by two [A]s although one token follows it, the token
    after the separator is classified once more, and index 1 of the
    option-tuple map holds a tuple while character 1 of the pattern is
    [A]. *)
Theorem classify_separator_misaligned :
  exists pattern indices,
    classify (Sample.parser [Sample.opt_x]) ["--"; "-x"] = Ok (pattern, indices)
    /\ pattern = "-AAO"
    /\ String.length pattern <> length ["--"; "-x"]
    /\ indices !! 1 = Some (Some Sample.opt_x, "-x", MNull)
    /\ Js.char_at pattern 1 = Some "A"%char.
Proof.
  eexists _, _. split; [vm_compute; reflexivity|].
  repeat split; try reflexivity. vm_compute. lia.
Qed.

(** ** The arity matcher *)

(** C2.  The arity matcher is not anchored at the start of the window.
    For the option [--foo] of arity one and the window [OA], whose
    first character does not fit the grammar [A], it reports one token
    (found at the second position); for a sub-command positional and the
    window [OA-] it reports two tokens, not the window length three. *)
Theorem matchArgument_not_anchored :
  _matchArgument Sample.opt_foo "OA" = Ok 1
  /\ _getNargsPattern Sample.opt_foo = "(A)"
  /\ _matchArgument Sample.sub "OA-" = Ok 2
  /\ _getNargsPattern Sample.sub = "(-*A[-AO]*)"
  /\ String.length "OA-" = 3.
Proof. repeat split; vm_compute; reflexivity. Qed.

(** ** The option resolver *)

(** When a token with two prefix characters and an [=] goes through
    the prefix search, every tuple found carries [undefined] as its
    explicit argument. *)
Lemma getOptionTuples_double_prefix_explicit (p : Parser) (s : string)
    (tuples : list OptionTuple) :
  is_prefix_char (prefixChars p) s 0 = true ->
  is_prefix_char (prefixChars p) s 1 = true ->
  (0 <= Js.indexOf s "=")%Z ->
  _getOptionTuples p s = Ok tuples ->
  Forall (fun t : OptionTuple => t.2 = MUndefined) tuples.
Proof.
  intros H0 H1 Heq. unfold _getOptionTuples. rewrite H0, H1. simpl.
  destruct (Z.leb_spec 0 (Js.indexOf s "=")) as [_|Hlt]; [|lia].
  assert (Hp : piece_at (Js.split_limit "=" 1 s) 1 = MUndefined).
  { unfold piece_at, Js.split_limit. destruct (Js.split "=" s) as [|x l]; reflexivity. }
  rewrite Hp. intros [= <-].
  induction (_optionStringActions p) as [|[o a] l IH]; csimpl; [constructor|].
  destruct (String.eqb _ _); csimpl; [constructor; [reflexivity|exact IH]|exact IH].
Qed.

(** C3.  For the token [--fo=bar] and the single declared option
    [--foo], prefix search finds the one option string that starts with
    [--fo], but the tuple carries [undefined] as explicit argument: the
    part after the [=] is lost, because the split is limited to one
    piece. *)
Theorem parseOptional_prefix_loses_explicit_argument :
  lookup_option (_optionStringActions (Sample.parser [Sample.opt_foo])) "--fo=bar" = None
  /\ lookup_option (_optionStringActions (Sample.parser [Sample.opt_foo])) "--fo" = None
  /\ Js.split_limit "=" 1 "--fo=bar" = ["--fo"]
  /\ _parseOptional (Sample.parser [Sample.opt_foo]) "--fo=bar"
     = Ok (Some (Some Sample.opt_foo, "--foo", MUndefined)).
Proof. repeat split; vm_compute; reflexivity. Qed.

(** ** Abbreviations *)

Lemma substr0_eqb_prefix (P o : string) :
  String.eqb (Js.substr0 o (String.length P)) P = String.prefix P o.
Proof.
  unfold Js.substr0. revert o.
  induction P as [|c P IH]; intros o; simpl.
  - destruct o; reflexivity.
  - destruct o as [|d o]; simpl; [reflexivity|].
    rewrite IH. destruct (Ascii.eqb_spec d c) as [->|Hne].
    + destruct (ascii_dec c c); [reflexivity|contradiction].
    + destruct (ascii_dec c d); [subst; contradiction|reflexivity].
Qed.

Lemma omap_filter_map {A B} (c : A -> bool) (g : A -> B) (l : list A) :
  omap (fun x => if c x then Some (g x) else None) l = map g (List.filter c l).
Proof.
  induction l as [|x l IH]; csimpl; [reflexivity|].
  destruct (c x); csimpl; rewrite IH; reflexivity.
Qed.

Lemma omap_pointwise {A B} (f g : A -> option B) (l : list A) :
  (forall x, f x = g x) -> omap f l = omap g l.
Proof.
  intros E. induction l as [|x l IH]; csimpl; [reflexivity|].
  rewrite E, IH. reflexivity.
Qed.

Lemma getOptionTuples_candidates (p : Parser) (P : string) :
  is_prefix_char (prefixChars p) P 0 = true ->
  (Js.indexOf P "=" < 0)%Z ->
  _getOptionTuples p P = Ok (map (candidate_tuple p P) (candidates p P)).
Proof.
  intros H0 Heq. unfold _getOptionTuples, candidates. rewrite H0.
  destruct (is_prefix_char (prefixChars p) P 1) eqn:H1; simpl.
  - destruct (Z.leb_spec 0 (Js.indexOf P "=")) as [Hle|_]; [lia|].
    f_equal. rewrite <- omap_filter_map. apply omap_pointwise.
    intros [o a]. rewrite substr0_eqb_prefix.
    unfold candidate_tuple. rewrite H1. reflexivity.
  - f_equal. rewrite <- omap_filter_map. apply omap_pointwise.
    intros [o a]. rewrite substr0_eqb_prefix.
    unfold candidate_tuple. rewrite H1. simpl.
    destruct (String.eqb o (Js.substr0 P 2)); reflexivity.
Qed.

(** C4 (as the code has it).  For a token [P] of at least two
    characters that starts with a prefix character, contains no [=] and
    is not itself a declared option string: when the prefix search has
    exactly one candidate the token resolves to that option; when it has
    two or more, [_parseOptional] raises the ambiguity error, whose
    message lists all candidate option strings in declaration order.
    For a token that starts with two prefix characters the candidates
    are exactly the declared option strings that start with [P]. *)
Theorem abbreviation_resolution (p : Parser) (P : string)
    (Hlen : 2 <= String.length P)
    (Hpre : is_prefix_char (prefixChars p) P 0 = true)
    (Hnot : lookup_option (_optionStringActions p) P = None)
    (Heq : (Js.indexOf P "=" < 0)%Z) :
  (forall o a, candidates p P = [(o, a)] ->
     _parseOptional p P = Ok (Some (candidate_tuple p P (o, a))))
  /\ (2 <= length (candidates p P) ->
      _parseOptional p P
      = Err (ParserError (AmbiguousOption P (Js.join ", " (candidates p P).*1))))
  /\ (is_prefix_char (prefixChars p) P 1 = true ->
      candidates p P = declared_with_prefix p P).
Proof.
  assert (Hparse : _parseOptional p P =
                   match map (candidate_tuple p P) (candidates p P) with
                   | _ :: _ :: _ =>
                       Err (ParserError
                              (AmbiguousOption P
                                 (Js.join ", "
                                    (map (fun t : OptionTuple => t.1.2)
                                       (map (candidate_tuple p P) (candidates p P))))))
                   | [t] => Ok (Some t)
                   | [] =>
                       if _regexpNegativeNumber p P && negb (_hasNegativeNumberOptionals p)
                       then Ok None
                       else if Js.has_space P then Ok None
                       else Ok (Some (None, P, MNull))
                   end).
  { unfold _parseOptional.
    destruct P as [|c0 [|c1 P']]; simpl in Hlen; try lia.
    simpl String.eqb. rewrite Hpre, Hnot. simpl negb. cbv iota.
    replace (Nat.eqb (String.length (String c0 (String c1 P'))) 1) with false
      by (symmetry; apply Nat.eqb_neq; simpl; lia).
    destruct (Z.leb_spec 0 (Js.indexOf (String c0 (String c1 P')) "=")) as [Hle|_]; [lia|].
    rewrite getOptionTuples_candidates by assumption. reflexivity. }
  split; [|split].
  - intros o a Hc. rewrite Hparse, Hc. reflexivity.
  - intros Hc. rewrite Hparse.
    destruct (candidates p P) as [|x [|y l]]; simpl in Hc; try lia.
    rewrite map_map. reflexivity.
  - intros H1. unfold candidates, declared_with_prefix. rewrite H1. reflexivity.
Qed.

Lemma abbreviation_resolution_witness :
  _parseOptional (Sample.parser [Sample.opt_foo; Sample.opt_foobar]) "--fo"
  = Err (ParserError (AmbiguousOption "--fo" "--foo, --foobar"))
  /\ _parseOptional (Sample.parser [Sample.opt_foo; Sample.opt_foobar]) "--foob"
     = Ok (Some (Some Sample.opt_foobar, "--foobar", MNull))
  /\ _parseOptional (Sample.parser [Sample.opt_f; Sample.opt_fox]) "-fo"
     = Err (ParserError (AmbiguousOption "-fo" "-f, -fox")).
Proof.
  split; [|split].
  - apply (abbreviation_resolution
             (Sample.parser [Sample.opt_foo; Sample.opt_foobar]) "--fo");
      [simpl; lia | reflexivity | reflexivity | vm_compute; reflexivity
      | vm_compute; lia].
  - apply (abbreviation_resolution
             (Sample.parser [Sample.opt_foo; Sample.opt_foobar]) "--foob");
      [simpl; lia | reflexivity | reflexivity | vm_compute; reflexivity
      | vm_compute; reflexivity].
  - apply (abbreviation_resolution
             (Sample.parser [Sample.opt_f; Sample.opt_fox]) "-fo");
      [simpl; lia | reflexivity | reflexivity | vm_compute; reflexivity
      | vm_compute; lia].
Defined.

(** C4 (as the specification states it) fails: with [--foo] and
    [--foobar] declared, two declared option strings start with
    [--foo], yet the token [--foo] is an exact match and resolves to the
    first of them without any error. *)
Lemma abbreviation_rule_fails_on_exact_match :
  ~ abbreviation_rule (Sample.parser [Sample.opt_foo; Sample.opt_foobar]) "--foo".
Proof.
  intros [_ H].
  assert (L : 2 <= length (declared_with_prefix
                             (Sample.parser [Sample.opt_foo; Sample.opt_foobar]) "--foo"))
    by (vm_compute; lia).
  specialize (H L). vm_compute in H. discriminate H.
Qed.

(** ** Partial matching of a run of positionals *)

(** X26. What [_matchArgumentsPartial] computes, with the search of
    [String.prototype.match] as it is, that is, not anchored at the start
    of the window: a list of counts of some length [k] such that the
    concatenated pattern of the first [j] queued positionals is found
    nowhere in the window for any [j] above [k] up to the queue length,
    and for [k > 0] the pattern of the first [k] is found somewhere in
    the window and the counts are the lengths of its capture groups, one
    per action.  After [consumePositionals] the positionals beyond the
    first [k] are the ones still queued. *)
Theorem matchArgumentsPartial_greedy (queue : list Action) (window : string) :
  exists counts,
    _matchArgumentsPartial queue window = Ok counts
    /\ length counts <= length queue
    /\ (forall j, length counts < j <= length queue ->
        Regex.parse (concat_patterns (take j queue))
        = Some (Grammar.grammar_of (take j queue))
        /\ Regex.exec (Grammar.grammar_of (take j queue)) window = None)
    /\ (0 < length counts ->
        exists groups,
          Regex.parse (concat_patterns (take (length counts) queue))
          = Some (Grammar.grammar_of (take (length counts) queue))
          /\ Regex.exec (Grammar.grammar_of (take (length counts) queue)) window
             = Some groups
          /\ length groups = length counts
          /\ counts = map String.length groups)
    /\ (forall pattern argStrings st startIndex stopIndex st',
        positionals st = queue ->
        window = Js.substr_from pattern startIndex ->
        consumePositionals pattern argStrings st startIndex = Ok (stopIndex, st') ->
        positionals st' = drop (length counts) queue).
Proof.
  destruct (matchPartial_from_spec queue window (length queue) (le_n _))
    as (counts & Ec & Hle & Hnone & Hsome).
  exists counts. split; [exact Ec|]. split; [exact Hle|]. split; [|split].
  - intros j Hj. split; [apply GrammarFacts.parse_patterns|apply Hnone, Hj].
  - intros Hpos. destruct (Hsome Hpos) as (groups & E & ->).
    exists groups. split; [apply GrammarFacts.parse_patterns|].
    split; [exact E|]. split; [|reflexivity]. rewrite length_map. reflexivity.
  - intros pattern argStrings st s stop st' Hq Hw. unfold consumePositionals.
    rewrite Hq, <- Hw. fold (_matchArgumentsPartial queue window) in Ec.
    rewrite Ec. simpl_result.
    destruct (0 <? length counts)%nat.
    + destruct (take_positionals _ _ _ _) as [[i st1]|] eqn:E; simpl_result;
        [|discriminate].
      intros [= _ <-]. simpl. apply take_positionals_positionals in E.
      rewrite E, Hq. reflexivity.
    + simpl_result. intros [= _ <-]. simpl. rewrite Hq. reflexivity.
Qed.

Lemma matchArgumentsPartial_greedy_witness :
  _matchArgumentsPartial [Sample.pos_opt; Sample.pos_name; Sample.pos_name] "AO"
  = Ok [0; 1]
  /\ Regex.exec (Grammar.grammar_of [Sample.pos_opt; Sample.pos_name; Sample.pos_name])
       "AO" = None
  /\ (exists groups,
        Regex.exec (Grammar.grammar_of [Sample.pos_opt; Sample.pos_name]) "AO"
        = Some groups /\ [0; 1] = map String.length groups)
  /\ (forall stopIndex st',
        consumePositionals "AO" ["x"; "--bar"]
          (initial_state
             (Sample.parser [Sample.pos_opt; Sample.pos_name; Sample.pos_name;
                             Sample.opt_bar]) ∅) 0
        = Ok (stopIndex, st') ->
        positionals st' = [Sample.pos_name]).
Proof.
  destruct (matchArgumentsPartial_greedy
              [Sample.pos_opt; Sample.pos_name; Sample.pos_name] "AO")
    as (counts & Ec & _ & Hnone & Hsome & Hqueue).
  assert (counts = [0; 1]) as -> by (vm_compute in Ec; congruence).
  split; [exact Ec|]. split; [|split].
  - apply (Hnone 3). simpl. lia.
  - destruct Hsome as (groups & _ & E & _ & Hc); [simpl; lia|].
    exists groups. split; assumption.
  - intros stopIndex st' H.
    eapply Hqueue; [| |exact H]; reflexivity.
Defined.

(** [_.zip] pads the shorter array, so a run that matches only the
    first of two queued positionals also hands the second one to
    [takeAction], with an empty slice, and the running index becomes
    [NaN]; the second positional stays queued all the same. *)
Lemma consumePositionals_pads_unmatched :
  _matchArgumentsPartial [Sample.pos_name; Sample.pos_second] "AOA" = Ok [1]
  /\ match consumePositionals "AOA" ["x"; "--bar"; "y"]
             (initial_state
                (Sample.parser [Sample.pos_name; Sample.pos_second; Sample.opt_bar])
                ∅) 0
     with
     | Ok (NaN, st) =>
         map uid (seenActions st) = [10; 15] /\ map uid (positionals st) = [15]
     | _ => False
     end.
Proof. split; [reflexivity|]. vm_compute. split; reflexivity. Qed.

(** C5.  The run of positionals is not matched as the claim says.  With
    the positionals [name] and [second] queued and the flag [--bar]
    declared, the tokens [x], [--bar], [y], [z] give the window [AOAA].
    Matched at the start of the window, the grammar of both positionals
    fails and the grammar of the first one succeeds with one token, so
    [k = 1] should win and [second] stay queued.  The search of
    [_matchArgumentsPartial] is not anchored: it finds the grammar of
    both further on in the window (at [AA]) and returns the counts
    [1; 1]; [consumePositionals] applies them from the start of the
    window, so [second] receives the option [--bar], which never fires,
    and [y] and [z] end up in the extras. *)
Theorem matchArgumentsPartial_run_not_anchored :
  classify (Sample.parser [Sample.pos_name; Sample.pos_second; Sample.opt_bar])
    ["x"; "--bar"; "y"; "z"]
  = Ok ("AOAA", {[ 1 := (Some Sample.opt_bar, "--bar", MNull) ]})
  /\ Regex.match_items (Grammar.grammar_of [Sample.pos_name; Sample.pos_second]) "AOAA" []
     = None
  /\ Regex.match_items (Grammar.grammar_of [Sample.pos_name]) "AOAA" [] = Some ["A"]
  /\ _matchArgumentsPartial [Sample.pos_name; Sample.pos_second] "AOAA" = Ok [1; 1]
  /\ _parseKnownArgs
       (Sample.parser [Sample.pos_name; Sample.pos_second; Sample.opt_bar])
       ["x"; "--bar"; "y"; "z"] ∅
     = Ok (<[ "second" := VStr "--bar" ]> (<[ "name" := VStr "x" ]> ∅), ["y"; "z"]).
Proof. repeat split; vm_compute; reflexivity. Qed.

(** ** Conversion of the matched tokens *)

(** C6 (as the specification states it) fails for [Remainder]: with the
    choices [a] and [b], the token [c] is converted and returned; its
    value is not checked. *)
Lemma remainder_parser_rule_fails_for_remainder :
  ~ remainder_parser_rule Sample.rest_ab ["c"].
Proof.
  intros H. specialize (H (or_introl eq_refl)).
  vm_compute in H. discriminate H.
Qed.

(** C6 (as the code has it).  For an action of [ParserHandoff] arity
    every token of the slice is converted and only the first converted
    value is checked against the choices; for an action of [Remainder]
    arity every token is converted and no value is checked.  In neither
    case does a value after the first one undergo the choice check. *)
Theorem getValues_remainder_parser (action : Action) (argStrings : list string)
    (H : nargs action = REMAINDER \/ nargs action = PARSER) :
  _getValues action argStrings
  = (value ← map_getValue action argStrings;
     _ ← (if Nargs_eqb (nargs action) PARSER
          then _checkValue action (first_value value) else Ok tt);
     Ok (VArray value))
  /\ (forall v vs, map_getValue action argStrings = Ok (v :: vs) ->
      _checkValue action v = Ok tt ->
      _getValues action argStrings = Ok (VArray (v :: vs))).
Proof.
  assert (E : _getValues action argStrings
              = (value ← map_getValue action argStrings;
                 _ ← (if Nargs_eqb (nargs action) PARSER
                      then _checkValue action (first_value value) else Ok tt);
                 Ok (VArray value))).
  { unfold _getValues. destruct H as [-> | ->]; simpl.
    - rewrite !andb_false_r. simpl.
      destruct (map_getValue action argStrings); reflexivity.
    - rewrite !andb_false_r. simpl. reflexivity. }
  split; [exact E|].
  intros v vs Hm Hc. rewrite E, Hm. simpl.
  destruct (Nargs_eqb (nargs action) PARSER); simpl; [rewrite Hc|]; reflexivity.
Qed.

Lemma getValues_remainder_parser_witness :
  _getValues Sample.sub_ab ["a"; "zzz"] = Ok (VArray [VStr "a"; VStr "zzz"])
  /\ _checkValue Sample.sub_ab (VStr "zzz")
     = Err (ArgumentError 9 (InvalidChoice (VStr "zzz"))).
Proof.
  split; [|reflexivity].
  apply (getValues_remainder_parser Sample.sub_ab ["a"; "zzz"]);
    [right; reflexivity | reflexivity | reflexivity].
Defined.

(** ** Clustered single-character flags *)

(** A flag without arguments fires with the empty array of values. *)
Lemma takeAction_flag (st : State) (x : Action) (o : string) :
  nargs x = NargsCount 0 -> no_conflicts st ->
  takeAction st x [] (MStr o) = fire x o st.
Proof.
  intros Hn Hst. unfold takeAction, fire, _getValues. rewrite Hn. simpl. simpl_result.
  red in Hst. rewrite Hst, lookup_empty. simpl. simpl_result.
  destruct (call x (namespace st) (VArray []) (MStr o)); reflexivity.
Qed.

Lemma fire_no_conflicts (st st' : State) (x : Action) (o : string) :
  no_conflicts st -> fire x o st = Ok st' -> no_conflicts st'.
Proof.
  unfold fire, no_conflicts. intros Hst.
  destruct (call x (namespace st) (VArray []) (MStr o)); [|discriminate].
  intros [= <-]. exact Hst.
Qed.

Lemma fire_positionals (st st' : State) (x : Action) (o : string) :
  fire x o st = Ok st' -> positionals st' = positionals st /\ extras st' = extras st.
Proof.
  unfold fire. destruct (call x (namespace st) (VArray []) (MStr o)); [|discriminate].
  intros [= <-]. split; reflexivity.
Qed.

Lemma consumed_self (w : string) : Regex.consumed w w = EmptyString.
Proof.
  unfold Regex.consumed. rewrite Nat.sub_diag. destruct w; reflexivity.
Qed.

(** The arity matcher reports no token for a flag, whatever the
    window. *)
Lemma matchArgument_flag (x : Action) (o w : string) :
  is_flag x o -> _matchArgument x w = Ok 0.
Proof.
  intros [Hn Ha]. unfold _matchArgument, _getNargsPattern, isOptional, isPositional.
  rewrite Hn, Ha. simpl.
  destruct w; simpl; rewrite ?consumed_self; reflexivity.
Qed.

(** A flag that stands alone in its token. *)
Lemma consumeOptional_flag (p : Parser) (pattern : string)
    (indices : gmap nat OptionTuple) (argStrings : list string) (st : State) (s : nat)
    (x : Action) (o : string) :
  indices !! s = Some (Some x, o, MNull) -> is_flag x o -> no_conflicts st ->
  consumeOptional p pattern indices argStrings st s
  = (st' ← fire x o st; Ok (s + 1, st')).
Proof.
  intros Hl Hx Hst.
  rewrite (consumeOptional_matched _ _ _ _ _ _ _ _ _ [(x, [], o)] (s + 1) Hl);
    [| |discriminate].
  - cbn [take_all]. rewrite (takeAction_flag _ x) by (apply Hx || assumption).
    destruct (fire x o st); reflexivity.
  - cbn [consumeOptional_loop]. rewrite (matchArgument_flag x o) by assumption.
    simpl_result. unfold Js.slice. rewrite Nat.add_0_r, Nat.sub_diag. reflexivity.
Qed.

Lemma flags_no_positionals (a b c : Action) (negative : string -> bool)
    (hasNegative : bool) (ns : Namespace) :
  is_flag a "-a" -> is_flag b "-b" -> is_flag c "-c" ->
  positionals (initial_state (flags_parser a b c negative hasNegative) ns) = [].
Proof.
  intros [Ha _] [Hb _] [Hc _]. simpl. unfold _getPositionalActions. simpl.
  unfold isPositional. rewrite Ha, Hb, Hc. reflexivity.
Qed.

Ltac fire_next E :=
  match goal with
  | |- context [fire ?x ?o ?s0] =>
      let st' := fresh "st" in
      let err := fresh "e" in
      destruct (fire x o s0) as [st'|err] eqn:E; simpl_result; [|reflexivity]
  end.

Lemma parse_loop_cluster (a b c : Action) (negative : string -> bool)
    (hasNegative : bool) (ns : Namespace) :
  is_flag a "-a" -> is_flag b "-b" -> is_flag c "-c" ->
  parse_loop (flags_parser a b c negative hasNegative) ["-abc"] ns
  = (st ← fire a "-a" (initial_state (flags_parser a b c negative hasNegative) ns);
     st ← fire b "-b" st;
     fire c "-c" st).
Proof.
  intros Fa Fb Fc.
  pose proof (flags_no_positionals a b c negative hasNegative ns Fa Fb Fc) as Hpos.
  set (p := flags_parser a b c negative hasNegative) in *.
  assert (Ec : classify p ["-abc"] = Ok ("O", {[0 := (Some a, "-a", MStr "bc")]}))
    by (vm_compute; reflexivity).
  unfold parse_loop. rewrite Ec. simpl_result.
  rewrite main_loop_at_option; [|vm_compute; reflexivity..|].
  2:{ rewrite lookup_singleton_eq. eauto. }
  rewrite (consumeOptional_matched _ _ _ _ _ _ _ _ _
             [(a, [], "-a"); (b, [], "-b"); (c, [], "-c")] 1
             (lookup_singleton_eq _ _)); [| |discriminate].
  2:{ cbn [consumeOptional_loop]. rewrite (matchArgument_flag a "-a") by assumption.
      simpl_result.
      change (lookup_option (_optionStringActions p)
                (Js.char_str (Js.char_at "-a" 0) +:+ "b")) with (Some b).
      cbv iota. rewrite (matchArgument_flag b "-b") by assumption. simpl_result.
      change (lookup_option (_optionStringActions p)
                (Js.char_str (Js.char_at (Js.char_str (Js.char_at "-a" 0) +:+ "b") 0)
                 +:+ "c")) with (Some c).
      cbv iota. rewrite (matchArgument_flag c "-c") by assumption. simpl_result.
      reflexivity. }
  cbn [take_all].
  rewrite (takeAction_flag _ a) by (apply Fa || reflexivity).
  fire_next E1.
  pose proof (fire_no_conflicts _ _ _ _ (initial_state_no_conflicts p ns) E1) as C1.
  rewrite (takeAction_flag _ b) by (apply Fb || assumption).
  fire_next E2.
  pose proof (fire_no_conflicts _ _ _ _ C1 E2) as C2.
  rewrite (takeAction_flag _ c) by (apply Fc || assumption).
  fire_next E3.
  rewrite parse_tail_no_positionals;
    [f_equal; apply with_extras_nil|vm_compute; reflexivity|].
  apply fire_positionals in E3 as [-> _], E2 as [-> _], E1 as [-> _]. exact Hpos.
Qed.

Lemma parse_loop_separate (a b c : Action) (negative : string -> bool)
    (hasNegative : bool) (ns : Namespace) :
  is_flag a "-a" -> is_flag b "-b" -> is_flag c "-c" ->
  parse_loop (flags_parser a b c negative hasNegative) ["-a"; "-b"; "-c"] ns
  = (st ← fire a "-a" (initial_state (flags_parser a b c negative hasNegative) ns);
     st ← fire b "-b" st;
     fire c "-c" st).
Proof.
  intros Fa Fb Fc.
  pose proof (flags_no_positionals a b c negative hasNegative ns Fa Fb Fc) as Hpos.
  set (p := flags_parser a b c negative hasNegative) in *.
  set (indices := <[2 := (Some c, "-c", MNull)]>
                    (<[1 := (Some b, "-b", MNull)]>
                       (<[0 := (Some a, "-a", MNull)]> (∅ : gmap nat OptionTuple)))).
  assert (Ec : classify p ["-a"; "-b"; "-c"] = Ok ("OOO", indices))
    by (vm_compute; reflexivity).
  unfold parse_loop. rewrite Ec. simpl_result. cbn [length].
  rewrite main_loop_at_option; [|vm_compute; reflexivity..|vm_compute; eauto].
  rewrite (consumeOptional_flag _ _ _ _ _ _ a "-a");
    [|reflexivity|assumption|reflexivity].
  fire_next E1.
  pose proof (fire_no_conflicts _ _ _ _ (initial_state_no_conflicts p ns) E1) as C1.
  rewrite main_loop_at_option; [|vm_compute; reflexivity..|vm_compute; eauto].
  rewrite (consumeOptional_flag _ _ _ _ _ _ b "-b");
    [|reflexivity|assumption|assumption].
  fire_next E2.
  pose proof (fire_no_conflicts _ _ _ _ C1 E2) as C2.
  rewrite main_loop_at_option; [|vm_compute; reflexivity..|vm_compute; eauto].
  rewrite (consumeOptional_flag _ _ _ _ _ _ c "-c");
    [|reflexivity|assumption|assumption].
  fire_next E3.
  rewrite parse_tail_no_positionals;
    [f_equal; apply with_extras_nil|vm_compute; reflexivity|].
  apply fire_positionals in E3 as [-> _], E2 as [-> _], E1 as [-> _]. exact Hpos.
Qed.

Lemma fire_seen (st st' : State) (x : Action) (o : string) :
  fire x o st = Ok st' -> seenActions st' = seenActions st ++ [x].
Proof.
  unfold fire. destruct (call x (namespace st) (VArray []) (MStr o)); [|discriminate].
  intros [= <-]. reflexivity.
Qed.

Lemma action_indexOf_from_found (xs : list Action) (x : Action) (i : Z) :
  (0 <= i)%Z -> In x xs -> (0 <= action_indexOf_from xs x i)%Z.
Proof.
  revert i. induction xs as [|y xs IH]; intros i Hi Hin; [contradiction|].
  simpl. destruct (Nat.eqb (uid y) (uid x)) eqn:E; [exact Hi|].
  destruct Hin as [->|Hin]; [rewrite Nat.eqb_refl in E; discriminate|].
  apply IH; [lia|exact Hin].
Qed.

Lemma check_required_seen (seen actions : list Action) :
  (forall x, In x actions -> In x seen) -> check_required seen actions = Ok tt.
Proof.
  induction actions as [|x r IH]; intros H; simpl; [reflexivity|].
  assert (Hx : (0 <= action_indexOf seen x)%Z)
    by (apply action_indexOf_from_found; [lia|apply H; left; reflexivity]).
  destruct (Z.ltb_spec (action_indexOf seen x) 0) as [Hlt|_]; [lia|].
  rewrite andb_false_r. apply IH. intros y Hy. apply H. right. exact Hy.
Qed.

(** C7.  With the zero-arity flags [-a], [-b] and [-c] declared (and
    nothing else), parsing the single token [-abc] gives the same result
    as parsing the three tokens [-a], [-b], [-c]: in both cases the three
    actions fire in this order, each with the empty array of values and
    its own option string, and the extras are empty. *)
Theorem clustering_equivalent (a b c : Action) (negative : string -> bool)
    (hasNegative : bool) (ns : Namespace)
    (Fa : is_flag a "-a") (Fb : is_flag b "-b") (Fc : is_flag c "-c") :
  _parseKnownArgs (flags_parser a b c negative hasNegative) ["-abc"] ns
  = _parseKnownArgs (flags_parser a b c negative hasNegative) ["-a"; "-b"; "-c"] ns
  /\ _parseKnownArgs (flags_parser a b c negative hasNegative) ["-abc"] ns
     = (st ← fire a "-a" (initial_state (flags_parser a b c negative hasNegative) ns);
        st ← fire b "-b" st;
        st ← fire c "-c" st;
        Ok (namespace st, [])).
Proof.
  split.
  - unfold _parseKnownArgs, parse_state.
    rewrite parse_loop_cluster, parse_loop_separate by assumption. reflexivity.
  - unfold _parseKnownArgs, parse_state. rewrite parse_loop_cluster by assumption.
    pose proof (flags_no_positionals a b c negative hasNegative ns Fa Fb Fc) as Hpos.
    fire_next E1. fire_next E2. fire_next E3.
    pose proof (fire_positionals _ _ _ _ E1) as [P1 X1].
    pose proof (fire_positionals _ _ _ _ E2) as [P2 X2].
    pose proof (fire_positionals _ _ _ _ E3) as [P3 X3].
    rewrite P3, P2, P1, Hpos. change (0 <? length [])%nat with false. cbv iota.
    rewrite check_required_seen.
    + simpl_result. rewrite X3, X2, X1. reflexivity.
    + rewrite (fire_seen _ _ _ _ E3), (fire_seen _ _ _ _ E2), (fire_seen _ _ _ _ E1).
      simpl. tauto.
Qed.

Lemma clustering_equivalent_witness :
  _parseKnownArgs (flags_parser Sample.flag_a Sample.flag_b Sample.flag_c
                     (fun _ => false) false) ["-abc"] ∅
  = Ok (<["c" := VArray []]> (<["b" := VArray []]> (<["a" := VArray []]> ∅)), []).
Proof.
  rewrite (proj2 (clustering_equivalent Sample.flag_a Sample.flag_b Sample.flag_c
                    (fun _ => false) false ∅
                    (conj eq_refl eq_refl) (conj eq_refl eq_refl)
                    (conj eq_refl eq_refl))).
  reflexivity.
Defined.

(** ** Tokens that match nothing *)

Lemma parseOptional_empty_schema (p : Parser) (tok : string) (t : OptionTuple) :
  _optionStringActions p = [] ->
  _parseOptional p tok = Ok (Some t) -> t = (None, tok, MNull).
Proof.
  intros Hp. unfold _parseOptional, _getOptionTuples. rewrite Hp. simpl.
  destruct (String.eqb tok EmptyString); [discriminate|].
  destruct (is_prefix_char (prefixChars p) tok 0); simpl; [|discriminate].
  destruct (Nat.eqb (String.length tok) 1); [discriminate|].
  destruct (0 <=? Js.indexOf tok "=")%Z; simpl;
    destruct (is_prefix_char (prefixChars p) tok 1); simpl; simpl_result;
    repeat match goal with
           | |- context [if ?c then _ else _] => destruct c
           end;
    intros [= <-]; reflexivity.
Qed.

Lemma parseOptional_empty_schema_ok (p : Parser) (tok : string) :
  _optionStringActions p = [] -> exists r, _parseOptional p tok = Ok r.
Proof.
  intros Hp. unfold _parseOptional, _getOptionTuples. rewrite Hp. simpl.
  destruct (String.eqb tok EmptyString); [eauto|].
  destruct (is_prefix_char (prefixChars p) tok 0); simpl; [|eauto].
  destruct (Nat.eqb (String.length tok) 1); [eauto|].
  destruct (0 <=? Js.indexOf tok "=")%Z; simpl;
    destruct (is_prefix_char (prefixChars p) tok 1); simpl; simpl_result;
    repeat match goal with
           | |- context [if ?c then _ else _] => destruct c
           end; eauto.
Qed.

Lemma classify_from_empty_schema_ok (p : Parser) (n : nat) (rest : list string)
    (i : nat) (parts : string) (indices : gmap nat OptionTuple) :
  _optionStringActions p = [] ->
  exists r, classify_from p n rest i parts indices = Ok r.
Proof.
  intros Hp. revert i parts indices.
  induction rest as [|tok rest IH]; intros i parts indices; simpl; [eauto|].
  destruct (String.eqb tok "--"); [apply IH|].
  destruct (parseOptional_empty_schema_ok p tok Hp) as [[t|] ->]; simpl_result; apply IH.
Qed.

Section EmptySchema.
Variable p : Parser.
Variable argStrings : list string.
Variable pattern : string.
Variable indices : gmap nat OptionTuple.
Variable st0 : State.
Hypothesis entries :
  forall k t, indices !! k = Some t ->
    exists tok, argStrings !! k = Some tok /\ t = (None, tok, MNull).
Hypothesis no_positionals : positionals st0 = [].

(** Without any declared action the main loop moves every token it
    passes to the extras. *)
Lemma main_loop_empty_schema (fuel s : nat) :
  length argStrings < fuel + s ->
  exists s',
    main_loop fuel p pattern indices argStrings (with_extras st0 (take s argStrings)) s
    = Ok (s', with_extras st0 (take s' argStrings))
    /\ s <= s'.
Proof.
  revert s. induction fuel as [|fuel IH]; intros s Hfuel.
  - exists s. split; [|lia]. apply main_loop_done.
    destruct (_ <=? _)%Z eqn:E; [|reflexivity].
    apply max_index_reached in E as (k & Hk & [t Ht]).
    apply entries in Ht as (tok & Ht & _). apply lookup_lt_Some in Ht. lia.
  - destruct (Z.of_nat s <=? maxOptionStringIndex indices)%Z eqn:E.
    2:{ exists s. split; [|lia]. apply main_loop_done, E. }
    destruct (max_index_reached _ _ E) as (k & Hk & Hsome).
    destruct (next_index_spec _ _ _ Hk Hsome) as (n & Hnext & Hsn & [t Ht] & Hmin).
    destruct (entries _ _ Ht) as (tok & Htok & ->).
    assert (Hstep :
      main_loop (S fuel) p pattern indices argStrings
        (with_extras st0 (take s argStrings)) s
      = main_loop fuel p pattern indices argStrings
          (with_extras st0 (take (S n) argStrings)) (n + 1)).
    { destruct (decide (s = n)) as [->|Hne].
      - rewrite main_loop_at_option by eauto.
        rewrite (consumeOptional_unrecognized _ _ _ _ _ _ _ _ _ Ht Htok).
        simpl_result. rewrite with_extras_app, <- (take_S_r _ _ _ Htok). reflexivity.
      - rewrite (main_loop_gap _ _ _ _ _ _ (with_extras st0 (take s argStrings)) s n
                   E Hnext);
          [|apply Hmin; lia|apply consumePositionals_none, no_positionals].
        rewrite (consumeOptional_unrecognized _ _ _ _ _ _ _ _ _ Ht Htok).
        simpl_result. rewrite !with_extras_app. unfold Js.slice.
        rewrite app_assoc, take_take_drop. replace (s + (n - s)) with n by lia.
        rewrite <- (take_S_r _ _ _ Htok). reflexivity. }
    rewrite Hstep. replace (S n) with (n + 1) by lia.
    destruct (IH (n + 1)) as (s' & Hs' & Hle); [lia|].
    exists s'. split; [exact Hs'|lia].
Qed.

End EmptySchema.

(** X27. With no action declared, every token ends up in the extras, in
    input order, the namespace is returned as it was given, and the
    parse raises nothing. *)
Theorem parse_empty_schema (p : Parser) (argStrings : list string) (ns : Namespace) :
  _actions p = [] -> _optionStringActions p = [] ->
  _parseKnownArgs p argStrings ns = Ok (ns, argStrings).
Proof.
  intros Ha Ho. unfold _parseKnownArgs, parse_state, parse_loop.
  destruct (classify_from_empty_schema_ok p (length argStrings) argStrings 0
              EmptyString ∅ Ho) as [[pattern indices] Ec].
  fold (classify p argStrings) in Ec. rewrite Ec. simpl_result.
  assert (Hpos : positionals (initial_state p ns) = [])
    by (simpl; unfold _getPositionalActions; rewrite Ha; reflexivity).
  destruct (main_loop_empty_schema p argStrings pattern indices (initial_state p ns))
    with (fuel := S (length argStrings)) (s := 0) as (s' & Hs' & _).
  - intros k t Hk. destruct (classify_entries _ _ _ _ Ec k t Hk) as (tok & Ht & Hp).
    exists tok. split; [exact Ht|]. eapply parseOptional_empty_schema; eassumption.
  - exact Hpos.
  - lia.
  - cbn [take] in Hs'. rewrite with_extras_nil in Hs'. rewrite Hs'. simpl_result.
    rewrite consumePositionals_none by exact Hpos. simpl_result.
    rewrite with_extras_app. unfold rest_from. simpl index_to_nat. rewrite take_drop.
    change (positionals (with_extras (initial_state p ns) argStrings))
      with (positionals (initial_state p ns)).
    rewrite Hpos, Ha. reflexivity.
Qed.

Lemma parse_empty_schema_witness :
  _parseKnownArgs (Sample.parser []) ["x"; "--zz"; "--"; "-q"; "y"] ∅
  = Ok (∅, ["x"; "--zz"; "--"; "-q"; "y"]).
Proof. apply (parse_empty_schema (Sample.parser [])); reflexivity. Defined.

(** C8.  Unmatched tokens do not reach the extras as the claim says.
    With the option [--foo] of arity one declared, the token [--zz] in
    [--foo], [--zz], [x] is option-shaped and matches no action, yet it
    is not appended to the extras: the arity search of [--foo], which is
    not anchored, finds the [A] of [x] and [--foo] takes the token after
    it, [--zz], as its argument.  With two positionals and the flag
    [--bar] declared, the tokens [--zz], [--yy], [x], [--bar], [y] give
    the extras [--zz], [--yy], [--zz], [--yy], [x]: the two unmatched
    options twice, and the token [x] although the first positional
    consumed it.  And a double-dash flag given an explicit argument ends
    the parse with the plain [Error] of [_.str.sprintf], which is none
    of the errors of the taxonomy. *)
Theorem unmatched_tokens_lost_or_repeated :
  _parseOptional (Sample.parser [Sample.opt_foo]) "--zz" = Ok (Some (None, "--zz", MNull))
  /\ _parseKnownArgs (Sample.parser [Sample.opt_foo]) ["--foo"; "--zz"; "x"] ∅
     = Ok (<[ "foo" := VStr "--zz" ]> ∅, ["x"])
  /\ _parseKnownArgs
       (Sample.parser [Sample.pos_name; Sample.pos_second; Sample.opt_bar])
       ["--zz"; "--yy"; "x"; "--bar"; "y"] ∅
     = Ok (<[ "second" := VStr "y" ]>
             (<[ "bar" := VArray [] ]> (<[ "name" := VStr "x" ]> ∅)),
           ["--zz"; "--yy"; "--zz"; "--yy"; "x"])
  /\ _parseKnownArgs (Sample.parser [Sample.opt_bar]) ["--bar=1"] ∅
     = Err (JsError "[_.sprintf] huh?").
Proof. repeat split; vm_compute; reflexivity. Qed.

(** ** Conflicting arguments *)

(** C9.  No parse raises the conflicting-arguments error: the
    action-conflict map that [takeAction] consults is empty in the
    initial state and in the state at the return of every parse (and in
    every state in between, by the lemmas on the states of a parse), so
    the loop that raises the error has nothing to run through. *)
Theorem parse_never_conflicts (p : Parser) (argStrings : list string) (ns : Namespace) :
  raises_conflict (_parseKnownArgs p argStrings ns) = false
  /\ actionConflicts (initial_state p ns) = ∅
  /\ match parse_state p argStrings ns with
     | Ok st => actionConflicts st = ∅
     | Err _ => True
     end.
Proof.
  pose proof (parse_state_total p argStrings ns) as H.
  unfold _parseKnownArgs.
  destruct (parse_state p argStrings ns) as [st|e]; simpl in *.
  - repeat split. exact H.
  - repeat split. destruct e as [a []| | | | |]; simpl in *; congruence.
Qed.

(** ** Separators in the matched tokens *)








(** * Further properties of the parsing functions *)

(** ** The arity matcher: how much a match takes *)

Section MatcherSpans.
Context {R : Type}.

Import Regex.

(** A successful match continues on a suffix whose distance from the
    start lies within the bounds of the pieces. *)
Lemma match_star_span (a : atom) (s : string) (k : string -> option R) (r : R) :
  match_star a s k = Some r ->
  exists s', k s' = Some r /\ String.length s' <= String.length s.
Proof.
  induction s as [|c s IH]; simpl.
  - eauto.
  - destruct (atom_matches a c); [|eauto].
    destruct (match_star a s k) as [r'|] eqn:E; [|eauto].
    intros [= <-]. destruct (IH eq_refl) as (s' & H & Hl). exists s'. split; [exact H|lia].
Qed.

Lemma match_piece_span (p : piece) (s : string) (k : string -> option R) (r : R) :
  match_piece p s k = Some r ->
  exists s', k s' = Some r
    /\ String.length s' + piece_min p <= String.length s
    /\ (piece_bounded p = true -> String.length s <= String.length s' + 1).
Proof.
  destruct p as [a [| |]]; unfold piece_min, piece_bounded; simpl.
  - destruct s as [|c s]; [discriminate|].
    destruct (atom_matches a c); [|discriminate].
    intros H. exists s. simpl. repeat split; [exact H|lia|lia].
  - intros H. apply match_star_span in H as (s' & H & Hl).
    exists s'. repeat split; [exact H|lia|discriminate].
  - destruct s as [|c s].
    + intros H. exists EmptyString. simpl. repeat split; [exact H|lia|lia].
    + destruct (atom_matches a c).
      * destruct (k s) eqn:E.
        -- intros [= <-]. exists s. simpl. repeat split; [exact E|lia|lia].
        -- intros H. exists (String c s). simpl. repeat split; [exact H|lia|lia].
      * intros H. exists (String c s). simpl. repeat split; [exact H|lia|lia].
Qed.

Lemma match_pieces_span (ps : list piece) (s : string) (k : string -> option R) (r : R) :
  match_pieces ps s k = Some r ->
  exists s', k s' = Some r
    /\ String.length s' + pieces_min ps <= String.length s
    /\ (forallb piece_bounded ps = true ->
        String.length s <= String.length s' + length ps).
Proof.
  revert s k. induction ps as [|p ps IH]; intros s k; simpl.
  - intros H. exists s. unfold pieces_min. simpl. repeat split; [exact H|lia|lia].
  - intros H. apply match_piece_span in H as (s1 & H & Hmin & Hmax).
    apply IH in H as (s' & H & Hmin' & Hmax').
    exists s'. unfold pieces_min in *. simpl. repeat split; [exact H|lia|].
    intros Hb. apply andb_true_iff in Hb as [Hb1 Hb2].
    specialize (Hmax Hb1). specialize (Hmax' Hb2). lia.
Qed.

(** Pieces that may all match nothing never fail. *)
Lemma match_star_total (a : atom) (s : string) (k : string -> option R) :
  (forall s', is_Some (k s')) -> is_Some (match_star a s k).
Proof.
  intros Hk. destruct s as [|c s]; simpl; [apply Hk|].
  destruct (atom_matches a c); [|apply Hk].
  destruct (match_star a s k); [eauto|apply Hk].
Qed.

Lemma match_pieces_total (ps : list piece) (s : string) (k : string -> option R) :
  forallb piece_nullable ps = true ->
  (forall s', is_Some (k s')) -> is_Some (match_pieces ps s k).
Proof.
  revert s k. induction ps as [|[a q] ps IH]; intros s k Hn Hk; simpl.
  - apply Hk.
  - simpl in Hn. apply andb_true_iff in Hn as [Hq Hn].
    assert (Hk' : forall s', is_Some (match_pieces ps s' k))
      by (intros s'; apply IH; assumption).
    destruct q; [discriminate Hq| |].
    + apply match_star_total, Hk'.
    + destruct s as [|c s]; [apply Hk'|].
      destruct (atom_matches a c); [|apply Hk'].
      destruct (match_pieces ps s k); [eauto|apply Hk'].
Qed.

(** A star over a class that holds every character of the string takes
    the whole string when what follows accepts the end. *)
Lemma match_star_all (a : atom) (s : string) (k : string -> option R) :
  (forall s', is_Some (k s')) ->
  forallb (atom_matches a) (list_ascii_of_string s) = true ->
  match_star a s k = k EmptyString.
Proof.
  intros Hk. induction s as [|c s IH]; simpl; [reflexivity|].
  intros H. apply andb_true_iff in H as [-> H].
  rewrite (IH H). destruct (Hk EmptyString) as [r ->]. reflexivity.
Qed.

End MatcherSpans.

Lemma substring_length (n : nat) (s : string) :
  n <= String.length s -> String.length (String.substring 0 n s) = n.
Proof.
  revert n. induction s as [|c s IH]; intros [|n]; simpl; try lia.
  intros H. rewrite IH; lia.
Qed.

Lemma consumed_length (s s' : string) :
  String.length (Regex.consumed s s') = String.length s - String.length s'.
Proof. unfold Regex.consumed. apply substring_length. lia. Qed.

Lemma match_items_span (actions : list Action) (s : string) (caps r : list string) :
  Regex.match_items (Grammar.grammar_of actions) s caps = Some r ->
  exists new,
    r = caps ++ new
    /\ Forall2 capture_within actions new
    /\ sum_list (map String.length new) <= String.length s.
Proof.
  revert s caps. induction actions as [|a l IH]; intros s caps; simpl.
  - intros [= <-]. exists []. rewrite app_nil_r. repeat split; [constructor|simpl; lia].
  - intros H. apply match_pieces_span in H as (s' & H & Hmin & Hmax).
    apply IH in H as (new & -> & Hall & Hsum).
    exists (Regex.consumed s s' :: new). rewrite <- app_assoc. split; [reflexivity|].
    split.
    + constructor; [|exact Hall]. unfold capture_within. rewrite consumed_length.
      split; [lia|]. intros Hb. specialize (Hmax Hb). lia.
    + simpl. rewrite consumed_length. lia.
Qed.

Lemma exec_span (actions : list Action) (w : string) (groups : list string) :
  Regex.exec (Grammar.grammar_of actions) w = Some groups ->
  Forall2 capture_within actions groups
  /\ sum_list (map String.length groups) <= String.length w.
Proof.
  induction w as [|c w IH]; simpl.
  - destruct (Regex.match_items _ _ _) eqn:E; [|discriminate]. intros [= <-].
    apply match_items_span in E as (new & -> & Hall & Hsum). simpl in *. auto.
  - destruct (Regex.match_items _ _ _) eqn:E.
    + intros [= <-]. apply match_items_span in E as (new & -> & Hall & Hsum).
      simpl in *. auto.
    + intros H. apply IH in H as [Hall Hsum]. split; [exact Hall|lia].
Qed.

Lemma pieces_min_count_optional (n : nat) :
  pieces_min (repeat (Grammar.arg, Regex.One) n) = n.
Proof. induction n as [|n IH]; [reflexivity|]. unfold pieces_min in *. simpl. lia. Qed.

Lemma pieces_min_count_positional (n : nat) (tail : list Regex.piece) :
  pieces_min (concat (repeat [(Grammar.dash, Regex.Star); (Grammar.arg, Regex.One)] n)
              ++ tail)
  = n + pieces_min tail.
Proof. induction n as [|n IH]; [reflexivity|]. unfold pieces_min in *. simpl in *. lia. Qed.

(** The pieces of an action ask for as many characters as its arity
    asks for tokens. *)
Lemma action_pieces_min (a : Action) :
  pieces_min (Grammar.action_pieces a) = arity_min (nargs a).
Proof.
  unfold Grammar.action_pieces.
  destruct (isOptional a), (nargs a) as [|n| | | | |]; try reflexivity.
  - apply pieces_min_count_optional.
  - change (pieces_min ((Grammar.dash, Regex.Star)
                        :: concat (repeat [(Grammar.dash, Regex.Star);
                                           (Grammar.arg, Regex.One)] n)
                        ++ [(Grammar.dash, Regex.Star)]))
      with (pieces_min (concat (repeat [(Grammar.dash, Regex.Star);
                                        (Grammar.arg, Regex.One)] n)
                        ++ [(Grammar.dash, Regex.Star)])).
    rewrite pieces_min_count_positional. unfold pieces_min. simpl. lia.
Qed.

(** The pieces of an option with a bounded arity are as many as the
    bound and each takes at most one character. *)
Lemma action_pieces_max (a : Action) (M : nat) :
  isOptional a = true -> arity_max (nargs a) = Some M ->
  forallb piece_bounded (Grammar.action_pieces a) = true
  /\ length (Grammar.action_pieces a) = M.
Proof.
  intros Ho. unfold Grammar.action_pieces. rewrite Ho.
  destruct (nargs a) as [|n| | | | |]; simpl; intros [= <-]; try (split; reflexivity).
  split; [|apply repeat_length].
  induction n as [|n IH]; [reflexivity|exact IH].
Qed.

(** The pieces of an arity that asks for no token may all match
    nothing. *)
Lemma action_pieces_nullable (a : Action) :
  arity_min (nargs a) = 0 -> forallb piece_nullable (Grammar.action_pieces a) = true.
Proof.
  unfold Grammar.action_pieces.
  destruct (isOptional a), (nargs a) as [|n| | | | |]; simpl; intros E;
    try discriminate E; subst; reflexivity.
Qed.

(** X1. The number of tokens [_matchArgument] grants an action lies
    within the arity: at least the least number the arity asks for, at
    most the length of the window, and for an option of a bounded arity
    (the default one, a count, or '?') at most the bound. *)
Theorem matchArgument_within_arity (a : Action) (w : string) (m : nat) :
  _matchArgument a w = Ok m ->
  arity_min (nargs a) <= m <= String.length w
  /\ (isOptional a = true -> forall M, arity_max (nargs a) = Some M -> m <= M).
Proof.
  unfold _matchArgument. rewrite GrammarFacts.parse_pattern.
  destruct (Regex.exec _ w) as [[|m1 caps]|] eqn:E; try discriminate.
  intros [= <-]. apply (exec_span [a]) in E as [Hall Hsum].
  inversion Hall as [|? ? ? ? [Hmin Hmax] Hrest]; subst.
  rewrite action_pieces_min in Hmin. simpl in Hsum.
  split; [lia|]. intros Ho M HM.
  destruct (action_pieces_max a M Ho HM) as [Hb Hl]. specialize (Hmax Hb). lia.
Qed.

Lemma matchArgument_within_arity_witness :
  arity_min (nargs Sample.opt_foo) <= 1 <= String.length "AAO"
  /\ (isOptional Sample.opt_foo = true ->
      forall M, arity_max (nargs Sample.opt_foo) = Some M -> 1 <= M).
Proof. apply (matchArgument_within_arity Sample.opt_foo "AAO" 1). reflexivity. Defined.

Lemma matchArgumentsPartial_spans (queue : list Action) (window : string) :
  exists counts,
    _matchArgumentsPartial queue window = Ok counts
    /\ length counts <= length queue
    /\ Forall2 (fun a c => arity_min (nargs a) <= c) (take (length counts) queue) counts
    /\ sum_list counts <= String.length window.
Proof.
  unfold _matchArgumentsPartial.
  destruct (matchPartial_from_spec queue window (length queue) (le_n _))
    as (counts & Ec & Hle & _ & Hsome).
  exists counts. split; [exact Ec|]. split; [exact Hle|].
  destruct (decide (0 < length counts)) as [Hpos|Hzero].
  - destruct (Hsome Hpos) as (groups & E & Eg).
    apply exec_span in E as [Hall Hsum]. rewrite Eg at 2 3. split; [|exact Hsum].
    revert Hall. generalize (take (length counts) queue). clear.
    intros acts Hall. induction Hall as [|a g acts' gs [Hmin _] _ IH]; simpl; constructor.
    + rewrite <- action_pieces_min. exact Hmin.
    + exact IH.
  - destruct counts; [|simpl in Hzero; lia]. split; [constructor|simpl; lia].
Qed.

(** X2. [_matchArgumentsPartial] always returns: its counts belong to
    the first actions of the queue, each is at least what the arity of
    its action asks for, and together they do not exceed the window. *)
Theorem matchArgumentsPartial_within_window (queue : list Action) (window : string) :
  exists counts,
    _matchArgumentsPartial queue window = Ok counts
    /\ length counts <= length queue
    /\ Forall2 (fun a c => arity_min (nargs a) <= c) (take (length counts) queue) counts
    /\ sum_list counts <= String.length window.
Proof. apply matchArgumentsPartial_spans. Qed.

Lemma matchArgument_nullable (a : Action) (w : string) :
  arity_min (nargs a) = 0 -> exists m, _matchArgument a w = Ok m.
Proof.
  intros Hmin. unfold _matchArgument. rewrite GrammarFacts.parse_pattern.
  assert (E : is_Some (Regex.match_items [Regex.Group (Grammar.action_pieces a)] w [])).
  { simpl. apply match_pieces_total; [apply action_pieces_nullable, Hmin|].
    intros s'. eauto. }
  destruct E as [caps E].
  assert (Ex : Regex.exec [Regex.Group (Grammar.action_pieces a)] w = Some caps)
    by (destruct w; simpl in *; rewrite E; reflexivity).
  rewrite Ex. apply (exec_captures [a]) in Ex.
  destruct caps as [|m1 caps]; [discriminate Ex|]. eauto.
Qed.

(** X3. An action whose arity asks for no token ('?', '*', '...' or the
    count 0) is never refused by [_matchArgument], whatever the
    window. *)
Theorem matchArgument_total_for_optional_arities (a : Action) (w : string) :
  arity_min (nargs a) = 0 -> exists m, _matchArgument a w = Ok m.
Proof. apply matchArgument_nullable. Qed.

Lemma matchArgument_total_for_optional_arities_witness :
  exists m, _matchArgument Sample.pos_opt "OO" = Ok m.
Proof. apply (matchArgument_total_for_optional_arities Sample.pos_opt "OO"). reflexivity. Defined.

(** X4. The message 'Expected at most one argument' is never raised:
    the arity '?' it belongs to always matches. *)
Theorem matchArgument_never_at_most_one (a : Action) (w : string) (id : nat) :
  _matchArgument a w <> Err (ArgumentError id ExpectedAtMostOneArgument).
Proof.
  destruct (nargs a) eqn:E;
    try (unfold _matchArgument; rewrite GrammarFacts.parse_pattern, E;
         destruct (Regex.exec _ w) as [[|m1 caps]|]; discriminate).
  destruct (matchArgument_nullable a w) as [m ->];
    [rewrite E; reflexivity|discriminate].
Qed.

Lemma over_pattern_chars_app (s t : string) :
  over_pattern_chars (s +:+ t) = over_pattern_chars s && over_pattern_chars t.
Proof.
  induction s as [|c s IH]; [reflexivity|].
  change (String c s +:+ t) with (String c (s +:+ t)). simpl.
  rewrite IH, andb_assoc. reflexivity.
Qed.

Lemma over_pattern_chars_repeat (n : nat) : over_pattern_chars (Js.repeat_str "A" n) = true.
Proof. induction n as [|n IH]; [reflexivity|exact IH]. Qed.

Lemma over_pattern_chars_substr (s : string) (k : nat) :
  over_pattern_chars s = true -> over_pattern_chars (Js.substr_from s k) = true.
Proof.
  revert s. induction k as [|k IH]; intros s; [destruct s; auto|].
  destruct s as [|c s]; simpl; [reflexivity|].
  intros H. apply andb_true_iff in H as [_ H]. apply IH, H.
Qed.

Lemma classify_from_pattern_chars (p : Parser) (n : nat) (rest : list string) (i : nat)
    (parts : string) (indices : gmap nat OptionTuple)
    (pattern : string) (indices' : gmap nat OptionTuple) :
  over_pattern_chars parts = true ->
  classify_from p n rest i parts indices = Ok (pattern, indices') ->
  over_pattern_chars pattern = true.
Proof.
  revert i parts indices. induction rest as [|t rest IH]; intros i parts indices Hp; simpl.
  - intros [= <- <-]. exact Hp.
  - destruct (String.eqb t "--").
    + apply IH. rewrite !over_pattern_chars_app, Hp, over_pattern_chars_repeat. reflexivity.
    + destruct (_parseOptional p t) as [[tuple|]|e]; simpl_result; [| |discriminate].
      * apply IH. rewrite over_pattern_chars_app, Hp. reflexivity.
      * apply IH. rewrite over_pattern_chars_app, Hp. reflexivity.
Qed.

Lemma over_pattern_chars_class (s : string) :
  over_pattern_chars s = true ->
  forallb (Regex.atom_matches (Regex.Class ["-"; "A"; "O"]%char)) (list_ascii_of_string s)
  = true.
Proof.
  induction s as [|c s IH]; simpl; [reflexivity|].
  intros H. apply andb_true_iff in H as [Hc H]. rewrite (IH H).
  unfold pattern_char in Hc. simpl in Hc. rewrite Hc. reflexivity.
Qed.

Lemma substring_all (s : string) : String.substring 0 (String.length s) s = s.
Proof. induction s as [|c s IH]; simpl; [reflexivity|rewrite IH; reflexivity]. Qed.

(** X5. The pattern string the classifier builds consists of the
    characters '-', 'A' and 'O', and on every part of it a positional
    action of the arity '...' is granted the whole part: option-shaped
    tokens and separators included. *)
Theorem remainder_takes_whole_window (p : Parser) (argStrings : list string)
    (pattern : string) (indices : gmap nat OptionTuple) (a : Action) (startIndex : nat) :
  classify p argStrings = Ok (pattern, indices) ->
  isPositional a = true -> nargs a = REMAINDER ->
  over_pattern_chars pattern = true
  /\ _matchArgument a (Js.substr_from pattern startIndex)
     = Ok (String.length (Js.substr_from pattern startIndex)).
Proof.
  intros Hc Hp Hn.
  assert (Hpat : over_pattern_chars pattern = true)
    by (eapply classify_from_pattern_chars; [|exact Hc]; reflexivity).
  split; [exact Hpat|].
  pose proof (over_pattern_chars_substr pattern startIndex Hpat) as Hw.
  generalize dependent (Js.substr_from pattern startIndex). intros w Hw.
  unfold _matchArgument. rewrite GrammarFacts.parse_pattern.
  unfold Grammar.action_pieces, isOptional. rewrite Hp, Hn. cbn [negb].
  assert (E : Regex.match_items
                [Regex.Group [(Regex.Class ["-"; "A"; "O"]%char, Regex.Star)]] w []
              = Some [w]).
  { simpl. rewrite match_star_all; [|intros s'; eauto|apply over_pattern_chars_class, Hw].
    unfold Regex.consumed. simpl. rewrite Nat.sub_0_r, substring_all. reflexivity. }
  assert (Ex : Regex.exec
                 [Regex.Group [(Regex.Class ["-"; "A"; "O"]%char, Regex.Star)]] w
               = Some [w])
    by (destruct w; cbn [Regex.exec]; rewrite E; reflexivity).
  rewrite Ex. reflexivity.
Qed.

Lemma remainder_takes_whole_window_witness :
  over_pattern_chars "AOA" = true
  /\ _matchArgument (Sample.action 8 [] "rest" REMAINDER ChoicesNone)
       (Js.substr_from "AOA" 1)
     = Ok (String.length (Js.substr_from "AOA" 1)).
Proof.
  apply (remainder_takes_whole_window (Sample.parser [Sample.opt_x]) ["a"; "-x"; "b"]
           "AOA" {[ 1 := (Some Sample.opt_x, "-x", MNull) ]}); reflexivity.
Defined.
(** ** Options and their arguments *)

Lemma matchArgument_one (a : Action) : admits_one (nargs a) = true -> _matchArgument a "A" = Ok 1.
Proof.
  intros H. unfold _matchArgument. rewrite GrammarFacts.parse_pattern.
  unfold Grammar.action_pieces.
  destruct (isOptional a), (nargs a) as [|[|[|n]]| | | | |]; try discriminate H;
    reflexivity.
Qed.

Lemma matchArgument_zero (a : Action) :
  nargs a = NargsCount 0 -> _matchArgument a "A" = Ok 0.
Proof.
  intros H. unfold _matchArgument. rewrite GrammarFacts.parse_pattern.
  unfold Grammar.action_pieces. rewrite H. destruct (isOptional a); reflexivity.
Qed.

Lemma substr_from_char (s : string) (k : nat) (c : ascii) :
  Js.char_at s k = Some c -> Js.substr_from s k = String c (Js.substr_from s (S k)).
Proof.
  unfold Js.char_at. revert s. induction k as [|k IH]; intros [|d s]; simpl; try discriminate.
  - intros [= ->]. destruct s; reflexivity.
  - apply IH.
Qed.

Lemma substr_from_beyond (s : string) (k : nat) :
  String.length s <= k -> Js.substr_from s k = EmptyString.
Proof.
  revert s. induction k as [|k IH]; intros [|d s]; simpl; try reflexivity; try lia.
  intros H. apply IH. lia.
Qed.

Lemma take_all_one (st : State) (a : Action) (args : list string) (o : string) :
  take_all st [(a, args, o)] = takeAction st a args (MStr o).
Proof. simpl. destruct (takeAction st a args (MStr o)); reflexivity. Qed.

(** X6. An option given with an explicit argument ([--name=value], or
    [-nvalue] for a single-dash option) whose arity accepts one token
    takes the explicit argument as its only argument and leaves the
    tokens that follow alone, also when its arity would accept more. *)
Theorem consumeOptional_explicit_argument (p : Parser) (pattern : string)
    (indices : gmap nat OptionTuple) (argStrings : list string) (st : State)
    (startIndex : nat) (a : Action) (o e : string) :
  indices !! startIndex = Some (Some a, o, MStr e) ->
  e <> EmptyString ->
  admits_one (nargs a) = true ->
  consumeOptional p pattern indices argStrings st startIndex
  = st' ← takeAction st a [e] (MStr o); Ok (startIndex + 1, st').
Proof.
  intros Hi He Hn. unfold consumeOptional. rewrite Hi.
  destruct e as [|c e]; [congruence|].
  cbn [consumeOptional_loop]. rewrite (matchArgument_one a Hn). simpl_result.
  cbn [Nat.eqb andb app]. simpl_result. cbn [length Nat.ltb Nat.leb].
  rewrite take_all_one. reflexivity.
Qed.

Lemma consumeOptional_explicit_argument_witness :
  consumeOptional (Sample.parser [Sample.opt_foo]) "OA"
    {[ 0 := (Some Sample.opt_foo, "--foo", MStr "a") ]} ["--foo=a"; "b"]
    (initial_state (Sample.parser [Sample.opt_foo]) ∅) 0
  = st' ← takeAction (initial_state (Sample.parser [Sample.opt_foo]) ∅)
            Sample.opt_foo ["a"] (MStr "--foo");
    Ok (0 + 1, st').
Proof.
  apply (consumeOptional_explicit_argument _ _ _ _ _ 0 Sample.opt_foo "--foo" "a");
    [reflexivity|discriminate|reflexivity].
Defined.

(** X7. An option that takes no argument and whose option string starts
    with two prefix characters refuses an explicit argument, but not
    with an argument error: building the message 'ignored explicit
    argument %r' fails first, and the parse ends with the plain [Error]
    that [_.str.sprintf] throws for the conversion [%r]. *)
Theorem consumeOptional_flag_refuses_explicit_argument (p : Parser) (pattern : string)
    (indices : gmap nat OptionTuple) (argStrings : list string) (st : State)
    (startIndex : nat) (a : Action) (o e : string) :
  indices !! startIndex = Some (Some a, o, MStr e) ->
  e <> EmptyString ->
  nargs a = NargsCount 0 ->
  is_prefix_char (prefixChars p) o 1 = true ->
  consumeOptional p pattern indices argStrings st startIndex
  = Err (JsError sprintf_unknown_conversion).
Proof.
  intros Hi He Hn Hp. unfold consumeOptional. rewrite Hi.
  destruct e as [|c e]; [congruence|].
  cbn [consumeOptional_loop]. rewrite (matchArgument_zero a Hn). simpl_result.
  rewrite Hp. reflexivity.
Qed.

Lemma consumeOptional_flag_refuses_explicit_argument_witness :
  consumeOptional (Sample.parser [Sample.opt_bar]) "O"
    {[ 0 := (Some Sample.opt_bar, "--bar", MStr "1") ]} ["--bar=1"]
    (initial_state (Sample.parser [Sample.opt_bar]) ∅) 0
  = Err (JsError sprintf_unknown_conversion).
Proof.
  apply (consumeOptional_flag_refuses_explicit_argument _ _ _ _ _ 0 Sample.opt_bar "--bar" "1");
    [reflexivity|discriminate|reflexivity|reflexivity].
Defined.



Lemma slice_one {A} (xs : list A) (k : nat) (x : A) :
  xs !! k = Some x -> Js.slice xs k (k + 1) = [x].
Proof.
  intros H. unfold Js.slice. replace (k + 1 - k) with 1 by lia.
  rewrite (drop_S _ _ _ H). reflexivity.
Qed.

Lemma consumeOptional_next_token (p : Parser) (pattern : string)
    (indices : gmap nat OptionTuple) (argStrings : list string) (st : State)
    (startIndex : nat) (a : Action) (o tok : string) :
  indices !! startIndex = Some (Some a, o, MNull) ->
  isOptional a = true -> nargs a = NargsDefault ->
  Js.char_at pattern (startIndex + 1) = Some "A"%char ->
  argStrings !! (startIndex + 1) = Some tok ->
  consumeOptional p pattern indices argStrings st startIndex
  = st' ← takeAction st a [tok] (MStr o); Ok (startIndex + 1 + 1, st').
Proof.
  intros Hi Ho Hn Hc Ht. unfold consumeOptional. rewrite Hi. cbn [consumeOptional_loop].
  rewrite (substr_from_char _ _ _ Hc).
  assert (E : _matchArgument a (String "A" (Js.substr_from pattern (S (startIndex + 1))))
              = Ok 1).
  { unfold _matchArgument. rewrite GrammarFacts.parse_pattern.
    unfold Grammar.action_pieces. rewrite Ho, Hn. simpl.
    unfold Regex.consumed. rewrite substring_length by (simpl; lia).
    f_equal. simpl. lia. }
  rewrite E. simpl_result. cbn [app length Nat.ltb Nat.leb].
  rewrite (slice_one _ _ _ Ht), take_all_one. reflexivity.
Qed.

Lemma consumeOptional_at_end (p : Parser) (pattern : string)
    (indices : gmap nat OptionTuple) (argStrings : list string) (st : State)
    (startIndex : nat) (a : Action) (o : string) :
  indices !! startIndex = Some (Some a, o, MNull) ->
  isOptional a = true -> nargs a = NargsDefault ->
  String.length pattern <= startIndex + 1 ->
  consumeOptional p pattern indices argStrings st startIndex
  = Err (ArgumentError (uid a) ExpectedOneArgument).
Proof.
  intros Hi Ho Hn Hlen. unfold consumeOptional. rewrite Hi. cbn [consumeOptional_loop].
  rewrite (substr_from_beyond _ _ Hlen).
  unfold _matchArgument. rewrite GrammarFacts.parse_pattern.
  unfold Grammar.action_pieces. rewrite Ho, Hn. reflexivity.
Qed.

(** X9. An option of the default arity given without explicit argument
    takes the token after it when that token is classified as an
    argument, and raises 'Expected one argument' when it is the last
    entry of the pattern. *)
Theorem consumeOptional_default_arity (p : Parser) (pattern : string)
    (indices : gmap nat OptionTuple) (argStrings : list string) (st : State)
    (startIndex : nat) (a : Action) (o : string) :
  indices !! startIndex = Some (Some a, o, MNull) ->
  isOptional a = true -> nargs a = NargsDefault ->
  (forall tok, Js.char_at pattern (startIndex + 1) = Some "A"%char ->
     argStrings !! (startIndex + 1) = Some tok ->
     consumeOptional p pattern indices argStrings st startIndex
     = st' ← takeAction st a [tok] (MStr o); Ok (startIndex + 1 + 1, st'))
  /\ (String.length pattern <= startIndex + 1 ->
      consumeOptional p pattern indices argStrings st startIndex
      = Err (ArgumentError (uid a) ExpectedOneArgument)).
Proof.
  intros Hi Ho Hn. split.
  - intros tok. apply consumeOptional_next_token; assumption.
  - apply (consumeOptional_at_end _ _ _ _ _ _ a o); assumption.
Qed.

Lemma consumeOptional_default_arity_witness :
  (forall tok, Js.char_at "OA" (0 + 1) = Some "A"%char ->
     ["--foo"; "a"] !! (0 + 1) = Some tok ->
     consumeOptional (Sample.parser [Sample.opt_foo]) "OA"
       {[ 0 := (Some Sample.opt_foo, "--foo", MNull) ]} ["--foo"; "a"]
       (initial_state (Sample.parser [Sample.opt_foo]) ∅) 0
     = st' ← takeAction (initial_state (Sample.parser [Sample.opt_foo]) ∅)
               Sample.opt_foo [tok] (MStr "--foo");
       Ok (0 + 1 + 1, st'))
  /\ (String.length "OA" <= 0 + 1 ->
      consumeOptional (Sample.parser [Sample.opt_foo]) "OA"
        {[ 0 := (Some Sample.opt_foo, "--foo", MNull) ]} ["--foo"; "a"]
        (initial_state (Sample.parser [Sample.opt_foo]) ∅) 0
      = Err (ArgumentError (uid Sample.opt_foo) ExpectedOneArgument)).
Proof.
  apply (consumeOptional_default_arity _ "OA" _ ["--foo"; "a"] _ 0 Sample.opt_foo "--foo");
    reflexivity.
Defined.
(** ** The option resolver: [name=value] *)

Lemma append_nil_r (s : string) : s +:+ EmptyString = s.
Proof.
  induction s as [|c s IH]; [reflexivity|].
  change (String c s +:+ EmptyString) with (String c (s +:+ EmptyString)).
  rewrite IH. reflexivity.
Qed.

Lemma append_assoc (s t u : string) : (s +:+ t) +:+ u = s +:+ (t +:+ u).
Proof.
  induction s as [|c s IH]; [reflexivity|].
  change (String c (s +:+ t) +:+ u = String c (s +:+ (t +:+ u))).
  change (String c ((s +:+ t) +:+ u) = String c (s +:+ (t +:+ u))).
  rewrite IH. reflexivity.
Qed.

Lemma index_char_cons (c d : ascii) (s : string) :
  String.index 0 (String c EmptyString) (String d s)
  = if Ascii.eqb d c then Some 0
    else match String.index 0 (String c EmptyString) s with
         | Some n => Some (S n)
         | None => None
         end.
Proof.
  cbn [String.index String.prefix].
  destruct (ascii_dec c d) as [->|Hne].
  - rewrite Ascii.eqb_refl. destruct s; reflexivity.
  - destruct (Ascii.eqb_spec d c) as [->|_]; [congruence|reflexivity].
Qed.

(** The pieces of a string that holds the separator after a part free
    of it. *)
Lemma split_aux_app (sep : ascii) (s v cur : string) :
  String.index 0 (String sep EmptyString) s = None ->
  Js.split_aux sep (s +:+ String sep v) cur = (cur +:+ s) :: Js.split_aux sep v EmptyString.
Proof.
  revert cur. induction s as [|c s IH]; intros cur.
  - intros _. change (EmptyString +:+ String sep v) with (String sep v).
    cbn [Js.split_aux]. rewrite Ascii.eqb_refl, append_nil_r. reflexivity.
  - rewrite index_char_cons. destruct (Ascii.eqb c sep) eqn:E; [discriminate|].
    intros H. change (String c s +:+ String sep v) with (String c (s +:+ String sep v)).
    cbn [Js.split_aux]. rewrite E, IH.
    + rewrite append_assoc. reflexivity.
    + destruct (String.index 0 _ s); [discriminate H|reflexivity].
Qed.

Lemma index_char_app (sep : ascii) (s v : string) :
  is_Some (String.index 0 (String sep EmptyString) (s +:+ String sep v)).
Proof.
  induction s as [|c s IH].
  - change (EmptyString +:+ String sep v) with (String sep v).
    rewrite index_char_cons, Ascii.eqb_refl. eauto.
  - change (String c s +:+ String sep v) with (String c (s +:+ String sep v)).
    rewrite index_char_cons. destruct (Ascii.eqb c sep); [eauto|].
    destruct IH as [n ->]. eauto.
Qed.

Lemma split_aux_head (sep : ascii) (v cur : string) :
  Js.split_aux sep v cur !! 0 = Some (cur +:+ upto sep v).
Proof.
  revert cur. induction v as [|c v IH]; intros cur; simpl.
  - rewrite append_nil_r. reflexivity.
  - destruct (Ascii.eqb c sep); simpl.
    + rewrite append_nil_r. reflexivity.
    + rewrite IH, append_assoc. reflexivity.
Qed.

(** X10. A token [name=value] whose [name] is a declared option string
    resolves to that option; its explicit argument is the part of
    [value] in front of the first '=' in it, what follows that '=' is
    dropped. *)
Theorem parseOptional_name_value (p : Parser) (name value : string) (a : Action) :
  name <> EmptyString ->
  is_prefix_char (prefixChars p) name 0 = true ->
  (Js.indexOf name "=" < 0)%Z ->
  lookup_option (_optionStringActions p) name = Some a ->
  lookup_option (_optionStringActions p) (name +:+ "=" +:+ value) = None ->
  _parseOptional p (name +:+ "=" +:+ value)
  = Ok (Some (Some a, name, MStr (upto "=" value))).
Proof.
  intros Hne Hpre Hidx Hname Htok.
  assert (Hnone : String.index 0 "=" name = None).
  { unfold Js.indexOf in Hidx. destruct (String.index 0 "=" name); [lia|reflexivity]. }
  destruct name as [|c name]; [congruence|].
  unfold _parseOptional. rewrite Htok.
  change (String c name +:+ "=" +:+ value) with (String c (name +:+ "=" +:+ value)) in *.
  cbn [String.eqb]. 
  replace (is_prefix_char (prefixChars p) (String c (name +:+ "=" +:+ value)) 0)
    with true by (rewrite <- Hpre; reflexivity).
  cbn [negb String.length].
  replace (Nat.eqb (S (String.length (name +:+ "=" +:+ value))) 1) with false
    by (destruct name; reflexivity).
  change (String c (name +:+ "=" +:+ value)) with (String c name +:+ String "=" value).
  unfold Js.indexOf at 1.
  destruct (index_char_app "=" (String c name) value) as [n ->].
  replace (0 <=? Z.of_nat n)%Z with true by (symmetry; apply Z.leb_le; lia).
  unfold Js.split. rewrite (split_aux_app "=" (String c name) value EmptyString Hnone).
  change (EmptyString +:+ String c name) with (String c name).
  cbn [lookup list_lookup]. rewrite Hname.
  unfold piece_at. cbn [lookup list_lookup]. rewrite split_aux_head. reflexivity.
Qed.

Lemma parseOptional_name_value_witness :
  _parseOptional (Sample.parser [Sample.opt_foo]) ("--foo" +:+ "=" +:+ "a=b")
  = Ok (Some (Some Sample.opt_foo, "--foo", MStr (upto "=" "a=b"))).
Proof.
  apply (parseOptional_name_value (Sample.parser [Sample.opt_foo]) "--foo" "a=b");
    [discriminate|reflexivity|reflexivity|reflexivity|reflexivity].
Defined.
(** ** The state of a parse *)

Lemma progress_refl (argStrings : list string) (st : State) : progress argStrings st st.
Proof.
  repeat split.
  - exists []. rewrite app_nil_r. split; [reflexivity|]. intros t [].
  - exists []. rewrite app_nil_r. reflexivity.
  - intros a Ha. left. exact Ha.
Qed.

Lemma progress_trans (argStrings : list string) (st1 st2 st3 : State) :
  progress argStrings st1 st2 -> progress argStrings st2 st3 ->
  progress argStrings st1 st3.
Proof.
  intros ((m1 & E1 & H1) & (f1 & S1) & P1) ((m2 & E2 & H2) & (f2 & S2) & P2).
  repeat split.
  - exists (m1 ++ m2). rewrite E2, E1, app_assoc. split; [reflexivity|].
    intros t Ht. apply in_app_or in Ht as [Ht|Ht]; auto.
  - exists (f1 ++ f2). rewrite S2, S1, app_assoc. reflexivity.
  - intros a Ha. destruct (P1 a Ha) as [Hq|Hs]; [apply P2, Hq|].
    right. rewrite S2. apply in_or_app. left. exact Hs.
Qed.

Lemma takeAction_state (st st' : State) (a : Action) (args : list string) (o : MaybeStr) :
  takeAction st a args o = Ok st' ->
  extras st' = extras st
  /\ seenActions st' = seenActions st ++ [a]
  /\ positionals st' = positionals st.
Proof.
  unfold takeAction.
  destruct (_getValues a args) as [v|]; simpl_result; [|discriminate].
  match goal with
  | |- context [mbind _ ?m] => destruct m; simpl_result; [|discriminate]
  end.
  match goal with
  | |- context [mbind _ ?m] => destruct m; simpl_result; [|discriminate]
  end.
  intros [= <-]. auto.
Qed.

Lemma take_all_state (tuples : list (Action * list string * string)) (st st' : State) :
  take_all st tuples = Ok st' ->
  extras st' = extras st
  /\ seenActions st' = seenActions st ++ map (fun t => t.1.1) tuples
  /\ positionals st' = positionals st.
Proof.
  revert st. induction tuples as [|[[a args] o] r IH]; intros st; simpl.
  - intros [= <-]. rewrite app_nil_r. auto.
  - destruct (takeAction st a args (MStr o)) as [st1|] eqn:E; simpl_result; [|discriminate].
    intros H. apply IH in H as (H1 & H2 & H3).
    apply takeAction_state in E as (E1 & E2 & E3).
    rewrite H1, H2, H3, E1, E2, E3, <- app_assoc. auto.
Qed.

Lemma take_positionals_state (argStrings : list string)
    (items : list (option Action * option nat)) (st st' : State) (i i' : Index) :
  take_positionals argStrings st i items = Ok (i', st') ->
  extras st' = extras st
  /\ (exists acts, map fst items = map Some acts /\ seenActions st' = seenActions st ++ acts)
  /\ positionals st' = positionals st.
Proof.
  revert st i. induction items as [|[[a|] c] r IH]; intros st i; simpl.
  - intros [= _ <-]. split; [reflexivity|]. split; [|reflexivity].
    exists []. rewrite app_nil_r. auto.
  - destruct (takeAction st a _ _) as [st1|] eqn:E; simpl_result; [|discriminate].
    intros H. apply IH in H as (H1 & (acts & Hacts & H2) & H3).
    apply takeAction_state in E as (E1 & E2 & E3).
    rewrite H1, H2, H3, E1, E2, E3, <- app_assoc.
    split; [reflexivity|]. split; [|reflexivity].
    exists (a :: acts). simpl. rewrite Hacts. auto.
  - discriminate.
Qed.

Lemma zip_longest_fst {A B} (xs : list A) (ys : list B) :
  length ys <= length xs -> map fst (zip_longest xs ys) = map Some xs.
Proof.
  revert ys. induction xs as [|x xs IH]; intros [|y ys] H; simpl in *; try lia.
  - reflexivity.
  - f_equal. apply (IH []). simpl. lia.
  - f_equal. apply IH. lia.
Qed.

Lemma map_Some_inj {A} (xs ys : list A) : map Some xs = map Some ys -> xs = ys.
Proof.
  revert ys. induction xs as [|x xs IH]; intros [|y ys]; simpl; try discriminate.
  - reflexivity.
  - intros [= -> H]. f_equal. apply IH, H.
Qed.

Lemma consumePositionals_advances (pattern : string) (argStrings : list string)
    (st st' : State) (s : nat) (i : Index) :
  consumePositionals pattern argStrings st s = Ok (i, st') ->
  progress argStrings st st'.
Proof.
  unfold consumePositionals.
  destruct (matchPartial_from_spec (positionals st) (Js.substr_from pattern s)
              (length (positionals st)) (le_n _)) as (counts & Ec & Hle & _).
  unfold _matchArgumentsPartial. rewrite Ec. simpl_result.
  destruct (Nat.ltb_spec 0 (length counts)) as [Hpos|Hzero].
  - destruct (take_positionals _ _ _ _) as [[i1 st1]|] eqn:E; simpl_result; [|discriminate].
    intros [= _ <-]. apply take_positionals_state in E as (E1 & (acts & Hacts & E2) & E3).
    rewrite zip_longest_fst in Hacts by exact Hle. apply map_Some_inj in Hacts. subst acts.
    repeat split; simpl.
    + exists []. rewrite app_nil_r. split; [exact E1|]. intros t [].
    + eauto.
    + intros a Ha. right. rewrite E2. apply in_or_app. right. exact Ha.
  - simpl_result. intros [= _ <-]. repeat split; simpl.
    + exists []. rewrite app_nil_r. split; [reflexivity|]. intros t [].
    + exists []. rewrite app_nil_r. reflexivity.
    + intros a Ha. left. destruct counts; [exact Ha|simpl in Hzero; lia].
Qed.
Lemma with_extras_advances (argStrings : list string) (st : State) (more : list string) :
  (forall t, In t more -> In t argStrings) ->
  progress argStrings st (with_extras st more).
Proof.
  intros H. repeat split; simpl.
  - exists more. auto.
  - exists []. rewrite app_nil_r. reflexivity.
  - intros a Ha. left. exact Ha.
Qed.

Lemma slice_In {A} (xs : list A) (a b : nat) (x : A) : In x (Js.slice xs a b) -> In x xs.
Proof.
  unfold Js.slice. intros H. apply list_elem_of_In in H. apply list_elem_of_In.
  apply elem_of_take in H as (i & H & _). rewrite lookup_drop in H.
  eapply list_elem_of_lookup_2, H.
Qed.

Lemma consumeOptional_advances (p : Parser) (pattern : string)
    (indices : gmap nat OptionTuple) (argStrings : list string) (st st' : State)
    (s s' : nat) :
  consumeOptional p pattern indices argStrings st s = Ok (s', st') ->
  progress argStrings st st'.
Proof.
  unfold consumeOptional.
  destruct (indices !! s) as [[[a o] e]|]; [|discriminate].
  destruct (consumeOptional_loop _ _ _ _ _ _ _ _) as [[|tuples stop]|];
    simpl_result; [| |discriminate].
  - intros [= _ <-]. apply (with_extras_advances argStrings st).
    intros t Ht. destruct (argStrings !! s) as [tok|] eqn:E; [|destruct Ht].
    destruct Ht as [<-|[]]. apply list_elem_of_In. eapply list_elem_of_lookup_2, E.
  - destruct (length tuples <? 1)%nat; [discriminate|].
    destruct (take_all st tuples) as [st1|] eqn:E; simpl_result; [|discriminate].
    intros [= _ <-]. apply take_all_state in E as (E1 & E2 & E3).
    repeat split.
    + exists []. rewrite app_nil_r. split; [exact E1|]. intros t [].
    + eauto.
    + intros x Hx. left. rewrite E3. exact Hx.
Qed.

Lemma consume_next_optional_advances (p : Parser) (pattern : string)
    (indices : gmap nat OptionTuple) (argStrings : list string) (st st' : State)
    (i : Index) (next : option nat) (s' : nat) :
  consume_next_optional p pattern indices argStrings st i next = Ok (s', st') ->
  progress argStrings st st'.
Proof.
  unfold consume_next_optional. destruct (negb _).
  - destruct next as [n|]; [|discriminate]. intros H.
    apply consumeOptional_advances in H.
    eapply progress_trans; [|exact H]. apply with_extras_advances.
    intros t. apply slice_In.
  - apply consumeOptional_advances.
Qed.

Lemma main_loop_advances (fuel : nat) (p : Parser) (pattern : string)
    (indices : gmap nat OptionTuple) (argStrings : list string) (st st' : State)
    (s s' : nat) :
  main_loop fuel p pattern indices argStrings st s = Ok (s', st') ->
  progress argStrings st st'.
Proof.
  revert st s. induction fuel as [|fuel IH]; intros st s; cbn [main_loop].
  - destruct (_ <=? _)%Z; [discriminate|]. intros [= _ <-]. apply progress_refl.
  - destruct (_ <=? _)%Z; [|intros [= _ <-]; apply progress_refl].
    assert (Hnext : forall st1 i,
      ('(startIndex', st'') ←
         consume_next_optional p pattern indices argStrings st1 i
           (nextOptionStringIndex indices s);
       main_loop fuel p pattern indices argStrings st'' startIndex') = Ok (s', st') ->
      progress argStrings st1 st').
    { intros st1 i.
      destruct (consume_next_optional _ _ _ _ _ _ _) as [[j st2]|] eqn:E;
        simpl_result; [|discriminate].
      intros H. apply consume_next_optional_advances in E. apply IH in H.
      eapply progress_trans; eassumption. }
    destruct (negb _); [|apply Hnext].
    destruct (consumePositionals _ _ _ _) as [[[e|] st1]|] eqn:E;
      simpl_result; [| |discriminate].
    + apply consumePositionals_advances in E.
      destruct (s <? e)%nat.
      * intros H. apply IH in H. eapply progress_trans; eassumption.
      * intros H. apply Hnext in H. eapply progress_trans; eassumption.
    + apply consumePositionals_advances in E.
      intros H. apply Hnext in H. eapply progress_trans; eassumption.
Qed.

Lemma parse_loop_advances (p : Parser) (argStrings : list string) (ns : Namespace)
    (st : State) :
  parse_loop p argStrings ns = Ok st -> progress argStrings (initial_state p ns) st.
Proof.
  unfold parse_loop.
  destruct (classify p argStrings) as [[pattern indices]|]; simpl_result; [|discriminate].
  destruct (main_loop _ _ _ _ _ _ _) as [[s st1]|] eqn:E1; simpl_result; [|discriminate].
  destruct (consumePositionals _ _ _ _) as [[stop st2]|] eqn:E2; simpl_result;
    [|discriminate].
  intros [= <-]. apply main_loop_advances in E1. apply consumePositionals_advances in E2.
  eapply progress_trans; [exact E1|]. eapply progress_trans; [exact E2|].
  apply with_extras_advances. intros t Ht. unfold rest_from in Ht.
  apply list_elem_of_In in Ht. apply list_elem_of_In.
  apply list_elem_of_lookup_1 in Ht as [k Hk]. rewrite lookup_drop in Hk.
  eapply list_elem_of_lookup_2, Hk.
Qed.

(** X11. The extras of a parse are tokens of the input: nothing else is
    ever reported as unrecognized. *)
Theorem extras_are_input_tokens (p : Parser) (argStrings : list string)
    (ns ns' : Namespace) (rest : list string) :
  _parseKnownArgs p argStrings ns = Ok (ns', rest) ->
  forall t, In t rest -> In t argStrings.
Proof.
  unfold _parseKnownArgs, parse_state.
  destruct (parse_loop p argStrings ns) as [st|] eqn:E; simpl_result; [|discriminate].
  destruct (0 <? _)%nat; [discriminate|].
  destruct (check_required _ _); simpl_result; [|discriminate].
  intros [= _ <-]. apply parse_loop_advances in E as ((more & Em & Hm) & _).
  simpl in Em. rewrite Em. exact Hm.
Qed.

Lemma extras_are_input_tokens_witness :
  _parseKnownArgs (Sample.parser [Sample.opt_x]) ["--nope"; "-x"; "b"] ∅
  = Ok ({[ "x" := VArray [] ]}, ["--nope"; "b"])
  /\ (forall t, In t ["--nope"; "b"] -> In t ["--nope"; "-x"; "b"]).
Proof.
  split; [vm_compute; reflexivity|].
  apply (extras_are_input_tokens (Sample.parser [Sample.opt_x]) ["--nope"; "-x"; "b"]
           ∅ {[ "x" := VArray [] ]}).
  vm_compute. reflexivity.
Defined.

Lemma action_indexOf_from_cases (xs : list Action) (y : Action) (i : Z) :
  action_indexOf_from xs y i = (-1)%Z \/ exists x, In x xs /\ uid x = uid y.
Proof.
  revert i. induction xs as [|x xs IH]; intros i; simpl; [left; reflexivity|].
  destruct (Nat.eqb (uid x) (uid y)) eqn:Eu.
  - right. exists x. split; [left; reflexivity|]. apply Nat.eqb_eq, Eu.
  - destruct (IH (i + 1)%Z) as [H|(x' & Hx' & Hu)]; [left; exact H|].
    right. exists x'. split; [right|]; assumption.
Qed.

Lemma check_required_ok (seen actions : list Action) :
  check_required seen actions = Ok tt ->
  forall a, In a actions -> required a = true -> exists x, In x seen /\ uid x = uid a.
Proof.
  induction actions as [|y r IH]; simpl; [intros _ a []|].
  destruct (required y && _) eqn:E; [discriminate|].
  intros H a [<-|Ha] Hr; [|apply IH; assumption].
  rewrite Hr in E. simpl in E. apply Z.ltb_ge in E.
  destruct (action_indexOf_from_cases seen y 0) as [Hn|Hx]; [|exact Hx].
  unfold action_indexOf in E. lia.
Qed.

(** X12. When [_parseKnownArgs] returns, no positional action is left
    in the queue, every positional action of the parser has been taken,
    and every required action has been taken. *)
Theorem parse_success_is_complete (p : Parser) (argStrings : list string)
    (ns : Namespace) (st : State) :
  parse_state p argStrings ns = Ok st ->
  positionals st = []
  /\ (forall a, In a (_actions p) -> isPositional a = true -> In a (seenActions st))
  /\ (forall a, In a (_actions p) -> required a = true ->
        exists x, In x (seenActions st) /\ uid x = uid a).
Proof.
  unfold parse_state.
  destruct (parse_loop p argStrings ns) as [st1|] eqn:E; simpl_result; [|discriminate].
  destruct (Nat.ltb_spec 0 (length (positionals st1))) as [|Hq]; [discriminate|].
  destruct (check_required _ _) as [[]|] eqn:Er; simpl_result; [|discriminate].
  intros [= <-].
  assert (Hnil : positionals st1 = []) by (destruct (positionals st1); [reflexivity|simpl in Hq; lia]).
  split; [exact Hnil|]. split.
  - intros a Ha Hp. apply parse_loop_advances in E as (_ & _ & Hpos).
    destruct (Hpos a) as [H|H]; [|rewrite Hnil in H; destruct H|exact H].
    simpl. unfold _getPositionalActions. apply filter_In. auto.
  - apply check_required_ok, Er.
Qed.

Lemma parse_success_is_complete_witness :
  exists st,
    parse_state (Sample.parser [Sample.pos_name; Sample.opt_x]) ["-x"; "a"] ∅ = Ok st
    /\ positionals st = []
    /\ (forall a, In a (_actions (Sample.parser [Sample.pos_name; Sample.opt_x])) ->
          isPositional a = true -> In a (seenActions st))
    /\ (forall a, In a (_actions (Sample.parser [Sample.pos_name; Sample.opt_x])) ->
          required a = true -> exists x, In x (seenActions st) /\ uid x = uid a).
Proof.
  eexists. split; [vm_compute; reflexivity|].
  apply (parse_success_is_complete (Sample.parser [Sample.pos_name; Sample.opt_x])
           ["-x"; "a"] ∅).
  vm_compute. reflexivity.
Defined.
(** ** The empty input *)

Lemma classify_nil (p : Parser) : classify p [] = Ok (EmptyString, ∅).
Proof. reflexivity. Qed.

Lemma main_loop_no_options (fuel : nat) (p : Parser) (pattern : string)
    (argStrings : list string) (st : State) :
  main_loop fuel p pattern ∅ argStrings st 0 = Ok (0, st).
Proof. apply main_loop_done. reflexivity. Qed.

Lemma check_required_unseen (actions : list Action) :
  check_required [] actions
  = match List.find required actions with
    | Some a => Err (ParserError (ArgumentRequired (uid a)))
    | None => Ok tt
    end.
Proof.
  induction actions as [|a r IH]; simpl; [reflexivity|].
  destruct (required a); simpl; [reflexivity|exact IH].
Qed.

(** X13. Parsing no token at all with a parser that declares no
    positional action takes no action: the result is the namespace as it
    was given and no extras, unless an action is required, in which case
    the first required action is reported as missing. *)
Theorem parse_empty_input (p : Parser) (ns : Namespace) :
  _getPositionalActions p = [] ->
  _parseKnownArgs p [] ns
  = match List.find required (_actions p) with
    | Some a => Err (ParserError (ArgumentRequired (uid a)))
    | None => Ok (ns, [])
    end.
Proof.
  intros Hpos. unfold _parseKnownArgs, parse_state, parse_loop.
  rewrite classify_nil. simpl_result. rewrite main_loop_no_options. simpl_result.
  rewrite consumePositionals_none by exact Hpos. simpl_result.
  cbn [with_extras initial_state positionals seenActions extras namespace].
  rewrite Hpos. cbn [length Nat.ltb Nat.leb]. rewrite check_required_unseen.
  destruct (List.find required (_actions p)); reflexivity.
Qed.

Lemma parse_empty_input_witness :
  _parseKnownArgs (Sample.parser [Sample.opt_foo; Sample.opt_x]) [] ∅
  = match List.find required (_actions (Sample.parser [Sample.opt_foo; Sample.opt_x])) with
    | Some a => Err (ParserError (ArgumentRequired (uid a)))
    | None => Ok (∅, [])
    end.
Proof.
  apply (parse_empty_input (Sample.parser [Sample.opt_foo; Sample.opt_x]) ∅). reflexivity.
Defined.

Lemma matchArgumentsPartial_empty_window (a : Action) (queue : list Action) :
  0 < arity_min (nargs a) -> _matchArgumentsPartial (a :: queue) EmptyString = Ok [].
Proof.
  intros Hmin.
  destruct (matchArgumentsPartial_spans (a :: queue) EmptyString)
    as (counts & Ec & _ & Hall & Hsum).
  rewrite Ec. destruct counts as [|c counts]; [reflexivity|].
  simpl in Hall, Hsum. inversion Hall; subst. lia.
Qed.

(** X14. Parsing no token at all with a parser whose first positional
    action asks for at least one token raises 'too few arguments'. *)
Theorem parse_empty_input_too_few (p : Parser) (ns : Namespace) (a : Action)
    (queue : list Action) :
  _getPositionalActions p = a :: queue ->
  0 < arity_min (nargs a) ->
  _parseKnownArgs p [] ns = Err (ParserError TooFewArguments).
Proof.
  intros Hpos Hmin. unfold _parseKnownArgs, parse_state, parse_loop.
  rewrite classify_nil. simpl_result. rewrite main_loop_no_options. simpl_result.
  unfold consumePositionals.
  cbn [initial_state positionals Js.substr_from]. rewrite Hpos.
  rewrite (matchArgumentsPartial_empty_window a queue Hmin). simpl_result.
  cbn [length Nat.ltb Nat.leb]. simpl_result.
  cbn [with_extras positionals initial_state drop length]. rewrite Hpos. reflexivity.
Qed.

Lemma parse_empty_input_too_few_witness :
  _parseKnownArgs (Sample.parser [Sample.opt_x; Sample.pos_name]) [] ∅
  = Err (ParserError TooFewArguments).
Proof.
  apply (parse_empty_input_too_few (Sample.parser [Sample.opt_x; Sample.pos_name]) ∅
           Sample.pos_name []); [reflexivity|simpl; lia].
Defined.
(** ** The token classifier *)

(** X15. Without a [--] among the tokens the classifier keeps its
    invariants: the pattern string has one character per token, and the
    indices of the option-tuple map are exactly the positions of the
    character 'O'. *)
Theorem classifier_aligned_without_separator (p : Parser) (argStrings : list string)
    (pattern : string) (indices : gmap nat OptionTuple) :
  Forall (fun t => t <> "--") argStrings ->
  classify p argStrings = Ok (pattern, indices) ->
  String.length pattern = length argStrings
  /\ forall k, is_Some (indices !! k) <-> Js.char_at pattern k = Some "O"%char.
Proof.
  intros Hall H.
  apply (classify_from_aligned _ _ _ 0 _ _ _ _ Hall) in H; [exact H|].
  split; [reflexivity|]. intros k. rewrite lookup_empty.
  destruct k; split; try discriminate; intros [? ?]; discriminate.
Qed.

Lemma classifier_aligned_without_separator_witness :
  String.length "AOA" = length ["a"; "-x"; "b"]
  /\ forall k,
       is_Some (({[ 1 := (Some Sample.opt_x, "-x", MNull) ]} : gmap nat OptionTuple) !! k)
       <-> Js.char_at "AOA" k = Some "O"%char.
Proof.
  apply (classifier_aligned_without_separator (Sample.parser [Sample.opt_x])
           ["a"; "-x"; "b"]).
  - repeat constructor; discriminate.
  - reflexivity.
Defined.

Lemma string_length_app (s t : string) :
  String.length (s +:+ t) = String.length s + String.length t.
Proof.
  induction s as [|c s IH]; [reflexivity|].
  change (String c s +:+ t) with (String c (s +:+ t)). simpl. rewrite IH. reflexivity.
Qed.

Lemma classify_from_length (p : Parser) (n : nat) (rest : list string) (i : nat)
    (parts : string) (indices : gmap nat OptionTuple)
    (pattern : string) (indices' : gmap nat OptionTuple) :
  classify_from p n rest i parts indices = Ok (pattern, indices') ->
  String.length parts + length rest <= String.length pattern.
Proof.
  revert i parts indices. induction rest as [|t rest IH]; intros i parts indices; simpl.
  - intros [= <- _]. lia.
  - destruct (String.eqb t "--").
    + intros H. apply IH in H. rewrite !string_length_app in H. simpl in H. lia.
    + destruct (_parseOptional p t) as [[tuple|]|]; simpl_result; [| |discriminate];
        intros H; apply IH in H; rewrite string_length_app in H; simpl in H; lia.
Qed.

(** X16. Whatever the tokens, every entry of the option-tuple map sits
    at the index of a token and holds the tuple [_parseOptional] returns
    for that token, and the pattern string is never shorter than the
    list of tokens. *)
Theorem classifier_entries_are_resolutions (p : Parser) (argStrings : list string)
    (pattern : string) (indices : gmap nat OptionTuple) :
  classify p argStrings = Ok (pattern, indices) ->
  length argStrings <= String.length pattern
  /\ forall k t, indices !! k = Some t ->
       exists tok, argStrings !! k = Some tok /\ _parseOptional p tok = Ok (Some t).
Proof.
  intros H. split.
  - apply classify_from_length in H. simpl in H. exact H.
  - intros k t Hk.
    destruct (classify_from_entries _ _ _ _ _ _ _ _ H k t Hk) as [Hl|(_ & tok & Hr & Hp)].
    + rewrite lookup_empty in Hl. discriminate.
    + rewrite Nat.sub_0_r in Hr. eauto.
Qed.

Lemma classifier_entries_are_resolutions_witness :
  length ["--"; "-x"] <= String.length "-AAO"
  /\ forall k t,
       ({[ 1 := (Some Sample.opt_x, "-x", MNull) ]} : gmap nat OptionTuple) !! k = Some t ->
       exists tok, ["--"; "-x"] !! k = Some tok
                   /\ _parseOptional (Sample.parser [Sample.opt_x]) tok = Ok (Some t).
Proof.
  apply (classifier_entries_are_resolutions (Sample.parser [Sample.opt_x]) ["--"; "-x"]).
  reflexivity.
Defined.

(** ** Values for no token *)

Lemma array_never_member (vs items : list Value) :
  existsb (strict_eq (VArray vs)) items = false.
Proof. induction items as [|x items IH]; [reflexivity|exact IH]. Qed.

(** X17. An option of the arity '*' that has an array of choices and no
    truthy default refuses the occurrence without arguments: the empty
    array it would store is no member of the choices. *)
Theorem getValues_star_option_without_arguments (a : Action) (argStrings : list string)
    (items : list Value) :
  strip_separators argStrings = [] ->
  isOptional a = true -> nargs a = ZERO_OR_MORE ->
  truthy (defaultValue a) = false ->
  choices a = ChoicesArray items ->
  _getValues a argStrings = Err (ArgumentError (uid a) (InvalidChoice (VArray []))).
Proof.
  intros Hs Ho Hn Hd Hc. unfold _getValues, strip_separators in *.
  rewrite Hn. cbn [is_parser_or_remainder negb]. rewrite Hs, Ho, Hd.
  cbn [length Nat.eqb Nargs_eqb andb map]. unfold _checkValue. rewrite Hc.
  rewrite array_never_member. reflexivity.
Qed.

Lemma getValues_star_option_without_arguments_witness :
  _getValues (Sample.action 20 ["--pick"] "pick" ZERO_OR_MORE
                (ChoicesArray [VStr "a"; VStr "b"])) ["--"]
  = Err (ArgumentError 20 (InvalidChoice (VArray []))).
Proof.
  apply (getValues_star_option_without_arguments
           (Sample.action 20 ["--pick"] "pick" ZERO_OR_MORE
              (ChoicesArray [VStr "a"; VStr "b"])) ["--"] [VStr "a"; VStr "b"]);
    reflexivity.
Defined.



(** ** The patterns of the arities *)

Lemma remove_dash_no_dash (s : string) (k : nat) :
  Js.char_at (Js.remove_dash s) k <> Some "-"%char.
Proof.
  unfold Js.char_at. revert k. induction s as [|c s IH]; intros k; simpl.
  - destruct k; discriminate.
  - destruct (Ascii.eqb_spec c "-") as [->|Hne]; [apply IH|].
    destruct k as [|k]; simpl; [congruence|apply IH].
Qed.

(** X19. The pattern [_getNargsPattern] builds for an action is always a
    well-formed regular expression: one capture group that holds the
    grammar of the arity.  For an option the pattern contains no dash. *)
Theorem nargs_pattern_is_one_group (a : Action) :
  Regex.parse (_getNargsPattern a) = Some [Regex.Group (Grammar.action_pieces a)]
  /\ (isOptional a = true -> forall k, Js.char_at (_getNargsPattern a) k <> Some "-"%char).
Proof.
  split; [apply GrammarFacts.parse_pattern|].
  intros Ho k. unfold _getNargsPattern. rewrite Ho. apply remove_dash_no_dash.
Qed.
(** ** One action, one token *)











(** ** Option-shaped tokens that match nothing *)

(** X22. A token of at least two characters that starts with a prefix
    character, contains no '=', is no declared option string and has no
    candidate in the prefix search is an argument when it looks like a
    negative number and the parser has no option that looks like one,
    or when it contains a space; otherwise it is an option without
    action. *)
Theorem parseOptional_without_candidate (p : Parser) (P : string) :
  2 <= String.length P ->
  is_prefix_char (prefixChars p) P 0 = true ->
  lookup_option (_optionStringActions p) P = None ->
  (Js.indexOf P "=" < 0)%Z ->
  candidates p P = [] ->
  _parseOptional p P
  = if _regexpNegativeNumber p P && negb (_hasNegativeNumberOptionals p) then Ok None
    else if Js.has_space P then Ok None
    else Ok (Some (None, P, MNull)).
Proof.
  intros Hlen Hpre Hnot Heq Hc. unfold _parseOptional.
  destruct P as [|c0 [|c1 P']]; simpl in Hlen; try lia.
  simpl String.eqb. rewrite Hpre, Hnot. simpl negb. cbv iota.
  replace (Nat.eqb (String.length (String c0 (String c1 P'))) 1) with false
    by (symmetry; apply Nat.eqb_neq; simpl; lia).
  destruct (Z.leb_spec 0 (Js.indexOf (String c0 (String c1 P')) "=")) as [Hle|_]; [lia|].
  rewrite getOptionTuples_candidates by assumption. rewrite Hc. reflexivity.
Qed.

Lemma parseOptional_without_candidate_witness :
  _parseOptional
    {| prefixChars := "-"; _actions := [Sample.opt_x];
       _optionStringActions := [("-x", Sample.opt_x)];
       _regexpNegativeNumber := fun s => String.eqb s "-5";
       _hasNegativeNumberOptionals := false |} "-5"
  = Ok None.
Proof.
  apply (parseOptional_without_candidate
           {| prefixChars := "-"; _actions := [Sample.opt_x];
              _optionStringActions := [("-x", Sample.opt_x)];
              _regexpNegativeNumber := fun s => String.eqb s "-5";
              _hasNegativeNumberOptionals := false |} "-5");
    [simpl; lia|reflexivity|reflexivity|vm_compute; reflexivity|reflexivity].
Defined.

(** ** Declared actions and the namespace *)

Lemma called_trans (p : Parser) (ns1 ns2 ns3 : Namespace) :
  called p ns1 ns2 -> called p ns2 ns3 -> called p ns1 ns3.
Proof.
  intros H. induction H as [ns|ns ns' ns'' a v o Ha Hc _ IH]; intros H3; [exact H3|].
  eapply called_step; [exact Ha|exact Hc|apply IH, H3].
Qed.

Lemma lookup_option_In (m : list (string * Action)) (key : string) (a : Action) :
  lookup_option m key = Some a -> In (key, a) m.
Proof.
  induction m as [|[k b] m IH]; simpl; [discriminate|].
  destruct (String.eqb_spec k key) as [->|_].
  - intros [= ->]. left. reflexivity.
  - intros H. right. apply IH, H.
Qed.

Lemma lookup_option_declared (p : Parser) (key : string) (a : Action) :
  lookup_option (_optionStringActions p) key = Some a -> declared p a.
Proof. intros H. left. exists key. apply lookup_option_In, H. Qed.

Lemma omap_tuples_declared (f : string * Action -> option OptionTuple)
    (m : list (string * Action)) :
  (forall o a t, f (o, a) = Some t -> exists e, t = (Some a, o, e)) ->
  forall t, In t (omap f m) -> exists o a e, t = (Some a, o, e) /\ In (o, a) m.
Proof.
  intros Hf. induction m as [|[o a] m IH]; csimpl; [intros t []|].
  intros t Ht. destruct (f (o, a)) as [t0|] eqn:E; csimpl in Ht.
  - destruct Ht as [<-|Ht].
    + destruct (Hf _ _ _ E) as [e ->]. exists o, a, e. split; [reflexivity|left; reflexivity].
    + destruct (IH t Ht) as (o' & a' & e' & -> & Hin). exists o', a', e'.
      split; [reflexivity|right; exact Hin].
  - destruct (IH t Ht) as (o' & a' & e' & -> & Hin). exists o', a', e'.
    split; [reflexivity|right; exact Hin].
Qed.

Lemma getOptionTuples_declared (p : Parser) (s : string) (tuples : list OptionTuple) :
  _getOptionTuples p s = Ok tuples ->
  forall t, In t tuples ->
    exists o a e, t = (Some a, o, e) /\ In (o, a) (_optionStringActions p).
Proof.
  unfold _getOptionTuples.
  destruct (_ && _).
  - destruct (0 <=? _)%Z; intros [= <-]; apply omap_tuples_declared;
      intros o a t; destruct (String.eqb _ _); intros [= <-]; eauto.
  - destruct (_ && _); [|discriminate].
    intros [= <-]. apply omap_tuples_declared.
    intros o a t. destruct (String.eqb _ _); [intros [= <-]; eauto|].
    destruct (String.eqb _ _); intros [= <-]; eauto.
Qed.

(** An option tuple that [_parseOptional] returns with an action pairs
    the action with one of its declared option strings. *)
Lemma parseOptional_declared (p : Parser) (s : string) (a : Action) (o : string)
    (e : MaybeStr) :
  _parseOptional p s = Ok (Some (Some a, o, e)) -> In (o, a) (_optionStringActions p).
Proof.
  unfold _parseOptional.
  destruct (String.eqb s EmptyString); [discriminate|].
  destruct (negb _); [discriminate|].
  destruct (lookup_option _ s) as [a0|] eqn:El.
  { intros H. assert (Hs : a0 = a /\ s = o) by (split; congruence). destruct Hs as [<- <-]. apply lookup_option_In, El. }
  destruct (Nat.eqb _ 1); [discriminate|].
  destruct (0 <=? _)%Z.
  - match goal with
    | |- context [lookup_option ?m ?k] => destruct (lookup_option m k) as [a1|] eqn:E1
    end.
    + intros H.
      match type of E1 with
      | lookup_option _ ?k = _ =>
          assert (Hs : a1 = a /\ k = o) by (split; congruence)
      end.
      destruct Hs as [<- <-]. apply lookup_option_In, E1.
    + destruct (_getOptionTuples p s) as [tuples|] eqn:Et; simpl_result; [|discriminate].
      destruct tuples as [|t [|t' r]]; [| |discriminate].
      * destruct (_ && _); [discriminate|]. destruct (Js.has_space s); discriminate.
      * intros [= ->].
        destruct (getOptionTuples_declared _ _ _ Et _ (or_introl eq_refl))
          as (o' & a' & e' & Heq & Hin).
        assert (Hs : a' = a /\ o' = o) by (split; congruence).
        destruct Hs as [<- <-]. exact Hin.
  - destruct (_getOptionTuples p s) as [tuples|] eqn:Et; simpl_result; [|discriminate].
    destruct tuples as [|t [|t' r]]; [| |discriminate].
    + destruct (_ && _); [discriminate|]. destruct (Js.has_space s); discriminate.
    + intros [= ->].
      destruct (getOptionTuples_declared _ _ _ Et _ (or_introl eq_refl))
        as (o' & a' & e' & Heq & Hin).
      assert (Hs : a' = a /\ o' = o) by (split; congruence).
      destruct Hs as [<- <-]. exact Hin.
Qed.

Lemma classify_tuples_declared (p : Parser) (argStrings : list string)
    (pattern : string) (indices : gmap nat OptionTuple) :
  classify p argStrings = Ok (pattern, indices) -> tuples_declared p indices.
Proof.
  intros H k a o e Hk.
  destruct (classify_entries _ _ _ _ H k _ Hk) as (tok & _ & Hp).
  left. exists o. eapply parseOptional_declared, Hp.
Qed.

Lemma takeAction_called (p : Parser) (st st' : State) (a : Action) (args : list string)
    (o : MaybeStr) :
  declared p a -> state_declared p st ->
  takeAction st a args o = Ok st' ->
  state_declared p st' /\ called p (namespace st) (namespace st').
Proof.
  intros Ha [Hq Hs]. unfold takeAction.
  destruct (_getValues a args) as [v|]; simpl_result; [|discriminate].
  match goal with
  | |- context [mbind _ ?m] => destruct m; simpl_result; [|discriminate]
  end.
  destruct (negb (strict_eq v (VStr SUPPRESS))).
  - destruct (call a (namespace st) v o) as [ns'|] eqn:Ec; simpl_result; [|discriminate].
    intros [= <-]. simpl. split.
    + split; [exact Hq|]. apply Forall_app. split; [exact Hs|]. constructor; [exact Ha|constructor].
    + eapply called_step; [exact Ha|exact Ec|apply called_refl].
  - simpl_result. intros [= <-]. simpl. split; [|apply called_refl].
    split; [exact Hq|]. apply Forall_app. split; [exact Hs|]. constructor; [exact Ha|constructor].
Qed.

Lemma take_all_called (p : Parser) (tuples : list (Action * list string * string))
    (st st' : State) :
  Forall (fun t : Action * list string * string => declared p t.1.1) tuples ->
  state_declared p st ->
  take_all st tuples = Ok st' ->
  state_declared p st' /\ called p (namespace st) (namespace st').
Proof.
  intros Ht. revert st. induction Ht as [|[[a args] o] r Ha _ IH]; intros st Hst; simpl.
  - intros [= <-]. split; [exact Hst|apply called_refl].
  - destruct (takeAction st a args (MStr o)) as [st1|] eqn:E; simpl_result; [|discriminate].
    intros H. apply (takeAction_called p) in E as [Hst1 Hc1]; [|exact Ha|exact Hst].
    apply IH in H as [Hst' Hc']; [|exact Hst1].
    split; [exact Hst'|]. eapply called_trans; eassumption.
Qed.

Lemma consumeOptional_loop_declared (p : Parser) (pattern : string)
    (argStrings : list string) (s : nat) (explicitArg : string)
    (action : option Action) (o : string)
    (tuples tuples' : list (Action * list string * string)) (stop : nat) :
  (forall a, action = Some a -> declared p a) ->
  Forall (fun t : Action * list string * string => declared p t.1.1) tuples ->
  consumeOptional_loop p pattern argStrings s explicitArg action o tuples
  = Ok (Matched tuples' stop) ->
  Forall (fun t : Action * list string * string => declared p t.1.1) tuples'.
Proof.
  revert action o tuples.
  induction explicitArg as [|c e IH]; intros [a|] o tuples Ha Ht; simpl; try discriminate.
  - destruct (_matchArgument a _) as [argCount|]; simpl_result; [|discriminate].
    intros [= <- _]. apply Forall_app. split; [exact Ht|].
    constructor; [apply Ha; reflexivity|constructor].
  - destruct (_matchArgument a "A") as [argCount|]; simpl_result; [|discriminate].
    destruct (_ && _).
    + destruct (lookup_option _ _) as [a'|] eqn:El; [|discriminate].
      apply IH.
      * intros a0 [= <-]. eapply lookup_option_declared, El.
      * apply Forall_app. split; [exact Ht|].
        constructor; [apply Ha; reflexivity|constructor].
    + destruct (Nat.eqb argCount 1); [|discriminate].
      intros [= <- _]. apply Forall_app. split; [exact Ht|].
      constructor; [apply Ha; reflexivity|constructor].
Qed.

Lemma consumeOptional_called (p : Parser) (pattern : string)
    (indices : gmap nat OptionTuple) (argStrings : list string) (st st' : State)
    (s s' : nat) :
  tuples_declared p indices -> state_declared p st ->
  consumeOptional p pattern indices argStrings st s = Ok (s', st') ->
  state_declared p st' /\ called p (namespace st) (namespace st').
Proof.
  intros Hi Hst. unfold consumeOptional.
  destruct (indices !! s) as [[[a o] e]|] eqn:Es; [|discriminate].
  destruct (consumeOptional_loop _ _ _ _ _ _ _ _) as [[|tuples stop]|] eqn:El;
    simpl_result; [| |discriminate].
  - intros [= _ <-]. split; [exact Hst|apply called_refl].
  - destruct (length tuples <? 1)%nat; [discriminate|].
    destruct (take_all st tuples) as [st1|] eqn:E; simpl_result; [|discriminate].
    intros [= _ <-]. eapply take_all_called; [|exact Hst|exact E].
    eapply consumeOptional_loop_declared; [| |exact El]; [|constructor].
    intros a0 ->. eapply Hi, Es.
Qed.

Lemma take_positionals_called (p : Parser) (argStrings : list string)
    (items : list (option Action * option nat)) (st st' : State) (i i' : Index) :
  (forall a c, In (Some a, c) items -> declared p a) ->
  state_declared p st ->
  take_positionals argStrings st i items = Ok (i', st') ->
  state_declared p st' /\ called p (namespace st) (namespace st').
Proof.
  revert st i. induction items as [|[[a|] c] r IH]; intros st i Hitems Hst; simpl.
  - intros [= _ <-]. split; [exact Hst|apply called_refl].
  - destruct (takeAction st a _ _) as [st1|] eqn:E; simpl_result; [|discriminate].
    intros H. apply (takeAction_called p) in E as [Hst1 Hc1];
      [|eapply Hitems; left; reflexivity|exact Hst].
    apply IH in H as [Hst' Hc']; [| |exact Hst1].
    + split; [exact Hst'|]. eapply called_trans; eassumption.
    + intros a' c' Hin. eapply Hitems. right. exact Hin.
  - discriminate.
Qed.

Lemma zip_longest_In {A B} (xs : list A) (ys : list B) (x : A) (c : option B) :
  In (Some x, c) (zip_longest xs ys) -> In x xs.
Proof.
  revert ys. induction xs as [|x0 xs IH]; intros [|y ys]; simpl.
  - intros [].
  - intros [H|H]; [discriminate|].
    induction ys as [|z ys IHy]; simpl in H; [destruct H|].
    destruct H as [H|H]; [discriminate|auto].
  - intros [[= <- _]|H]; [left; reflexivity|right; eapply IH, H].
  - intros [[= <- _]|H]; [left; reflexivity|right; eapply IH, H].
Qed.

Lemma consumePositionals_called (p : Parser) (pattern : string)
    (argStrings : list string) (st st' : State) (s : nat) (i : Index) :
  state_declared p st ->
  consumePositionals pattern argStrings st s = Ok (i, st') ->
  state_declared p st' /\ called p (namespace st) (namespace st').
Proof.
  intros Hst. unfold consumePositionals.
  destruct (_matchArgumentsPartial _ _) as [counts|]; simpl_result; [|discriminate].
  assert (Hdrop : forall st1 : State,
    state_declared p st1 ->
    state_declared p
      {| extras := extras st1; seenActions := seenActions st1;
         seenNonDefaultActions := seenNonDefaultActions st1;
         positionals := drop (length counts) (positionals st1);
         namespace := namespace st1; actionConflicts := actionConflicts st1 |}).
  { intros st1 [Hq Hs]. split; simpl; [|exact Hs].
    rewrite <- (take_drop (length counts) (positionals st1)) in Hq.
    apply Forall_app in Hq as [_ Hq]. exact Hq. }
  destruct (0 <? length counts)%nat.
  - destruct (take_positionals _ _ _ _) as [[i1 st1]|] eqn:E; simpl_result; [|discriminate].
    intros [= _ <-]. apply (take_positionals_called p) in E as [Hst1 Hc]; [| |exact Hst].
    + split; [apply Hdrop, Hst1|exact Hc].
    + intros a c Hin. apply zip_longest_In in Hin.
      destruct Hst as [Hq _]. rewrite Forall_forall in Hq. apply Hq.
      apply list_elem_of_In, Hin.
  - simpl_result. intros [= _ <-]. split; [apply Hdrop, Hst|apply called_refl].
Qed.

Lemma consume_next_optional_called (p : Parser) (pattern : string)
    (indices : gmap nat OptionTuple) (argStrings : list string) (st st' : State)
    (i : Index) (next : option nat) (s' : nat) :
  tuples_declared p indices -> state_declared p st ->
  consume_next_optional p pattern indices argStrings st i next = Ok (s', st') ->
  state_declared p st' /\ called p (namespace st) (namespace st').
Proof.
  intros Hi Hst. unfold consume_next_optional. destruct (negb _).
  - destruct next as [n|]; [|discriminate].
    intros H. apply (consumeOptional_called p) in H; [exact H|exact Hi|].
    destruct Hst as [Hq Hs]. split; assumption.
  - apply (consumeOptional_called p); [exact Hi|exact Hst].
Qed.

Lemma main_loop_called (fuel : nat) (p : Parser) (pattern : string)
    (indices : gmap nat OptionTuple) (argStrings : list string) (st st' : State)
    (s s' : nat) :
  tuples_declared p indices -> state_declared p st ->
  main_loop fuel p pattern indices argStrings st s = Ok (s', st') ->
  state_declared p st' /\ called p (namespace st) (namespace st').
Proof.
  intros Hi. revert st s. induction fuel as [|fuel IH]; intros st s Hst; cbn [main_loop].
  - destruct (_ <=? _)%Z; [discriminate|]. intros [= _ <-].
    split; [exact Hst|apply called_refl].
  - destruct (_ <=? _)%Z; [|intros [= _ <-]; split; [exact Hst|apply called_refl]].
    assert (Hnext : forall st1 i,
      state_declared p st1 ->
      ('(startIndex', st'') ←
         consume_next_optional p pattern indices argStrings st1 i
           (nextOptionStringIndex indices s);
       main_loop fuel p pattern indices argStrings st'' startIndex') = Ok (s', st') ->
      state_declared p st' /\ called p (namespace st1) (namespace st')).
    { intros st1 i Hst1.
      destruct (consume_next_optional _ _ _ _ _ _ _) as [[j st2]|] eqn:E;
        simpl_result; [|discriminate].
      intros H. apply (consume_next_optional_called p) in E as [Hst2 Hc2];
        [|exact Hi|exact Hst1].
      apply IH in H as [Hst' Hc']; [|exact Hst2].
      split; [exact Hst'|]. eapply called_trans; eassumption. }
    destruct (negb _); [|apply Hnext, Hst].
    destruct (consumePositionals _ _ _ _) as [[[e|] st1]|] eqn:E;
      simpl_result; [| |discriminate].
    + apply (consumePositionals_called p) in E as [Hst1 Hc1]; [|exact Hst].
      destruct (s <? e)%nat.
      * intros H. apply IH in H as [Hst' Hc']; [|exact Hst1].
        split; [exact Hst'|]. eapply called_trans; eassumption.
      * intros H. apply Hnext in H as [Hst' Hc']; [|exact Hst1].
        split; [exact Hst'|]. eapply called_trans; eassumption.
    + apply (consumePositionals_called p) in E as [Hst1 Hc1]; [|exact Hst].
      intros H. apply Hnext in H as [Hst' Hc']; [|exact Hst1].
      split; [exact Hst'|]. eapply called_trans; eassumption.
Qed.

Lemma initial_state_declared (p : Parser) (ns : Namespace) :
  state_declared p (initial_state p ns).
Proof.
  split; simpl; [|constructor]. apply Forall_forall. intros a Ha.
  apply list_elem_of_In in Ha. unfold _getPositionalActions in Ha.
  apply filter_In in Ha as [Ha _]. right. exact Ha.
Qed.

Lemma parse_state_called (p : Parser) (argStrings : list string) (ns : Namespace)
    (st : State) :
  parse_state p argStrings ns = Ok st ->
  state_declared p st /\ called p ns (namespace st).
Proof.
  unfold parse_state, parse_loop.
  destruct (classify p argStrings) as [[pattern indices]|] eqn:Ec; simpl_result;
    [|discriminate].
  pose proof (classify_tuples_declared _ _ _ _ Ec) as Hi.
  destruct (main_loop _ _ _ _ _ _ _) as [[s st1]|] eqn:E1; simpl_result; [|discriminate].
  destruct (consumePositionals _ _ _ _) as [[stop st2]|] eqn:E2; simpl_result;
    [|discriminate].
  apply (main_loop_called _ p) in E1 as [Hst1 Hc1]; [|exact Hi|apply initial_state_declared].
  apply (consumePositionals_called p) in E2 as [Hst2 Hc2]; [|exact Hst1].
  destruct (0 <? _)%nat; [discriminate|].
  destruct (check_required _ _); simpl_result; [|discriminate].
  intros [= <-]. split; [exact Hst2|]. simpl in *.
  eapply called_trans; eassumption.
Qed.

(** X23. A parse takes only declared actions, and the namespace it
    returns results from the given one by successive calls of declared
    actions: nothing else writes to it. *)
Theorem parse_calls_declared_actions (p : Parser) (argStrings : list string)
    (ns : Namespace) (st : State) :
  parse_state p argStrings ns = Ok st ->
  Forall (declared p) (seenActions st) /\ called p ns (namespace st).
Proof.
  intros H. apply parse_state_called in H as [[_ Hs] Hc]. split; assumption.
Qed.

Lemma parse_calls_declared_actions_witness :
  exists st,
    parse_state (Sample.parser [Sample.opt_foo]) ["--foo"; "a"] ∅ = Ok st
    /\ Forall (declared (Sample.parser [Sample.opt_foo])) (seenActions st)
    /\ called (Sample.parser [Sample.opt_foo]) ∅ (namespace st).
Proof.
  eexists. split; [vm_compute; reflexivity|].
  apply (parse_calls_declared_actions (Sample.parser [Sample.opt_foo]) ["--foo"; "a"] ∅).
  vm_compute. reflexivity.
Defined.

(** X24. A property of the namespace that the [call] of every declared
    action preserves holds of the namespace a parse returns whenever it
    holds of the namespace the parse is given. *)
Theorem parse_preserves_namespace_invariant (p : Parser) (K : Namespace -> Prop)
    (argStrings : list string) (ns ns' : Namespace) (rest : list string) :
  (forall a ns1 ns2 v o, declared p a -> K ns1 -> call a ns1 v o = inl ns2 -> K ns2) ->
  K ns ->
  _parseKnownArgs p argStrings ns = Ok (ns', rest) ->
  K ns'.
Proof.
  intros Hcall Hns. unfold _parseKnownArgs.
  destruct (parse_state p argStrings ns) as [st|] eqn:E; simpl_result; [|discriminate].
  intros [= <- _]. apply parse_state_called in E as [_ Hc].
  induction Hc as [ns0|ns0 ns1 ns2 a v o Ha Hc _ IH]; [exact Hns|].
  apply IH. eapply Hcall; eassumption.
Qed.

Lemma parse_preserves_namespace_invariant_witness :
  (<[ "foo" := VStr "a" ]> (<[ "other" := VNum 1 ]> ∅) : Namespace) !! "other"
  = Some (VNum 1).
Proof.
  apply (parse_preserves_namespace_invariant (Sample.parser [Sample.opt_foo])
           (fun ns => ns !! "other" = Some (VNum 1)) ["--foo"; "a"]
           (<[ "other" := VNum 1 ]> ∅)
           (<[ "foo" := VStr "a" ]> (<[ "other" := VNum 1 ]> ∅)) []).
  - intros a ns1 ns2 v o Hd Hk.
    assert (a = Sample.opt_foo) as ->
      by (destruct Hd as [[o' [Hin|[]]]|[Hin|[]]]; congruence).
    simpl. unfold Sample.store. intros [= <-].
    rewrite lookup_insert_ne by discriminate. exact Hk.
  - reflexivity.
  - vm_compute. reflexivity.
Defined.
